(** * ImageTriangulation: the blue-noise sampler and the triangle colouring

    A shallow embedding of [ImageTriangulation.py]: the classes [Point],
    [Grid] and [BlueNoiseGenerator] and the function [calculateTriColors].

    Conventions of the embedding.

    - Python [int] values are [Z].  Python [float] values are read as exact
      rationals ([Q]): rounding is not modelled.  The values that numpy
      produces when it divides by zero are modelled by [npfloat].
    - [cellSize = minDist / sqrt 2] is irrational, so it is never stored: the
      two places that divide by it ([int (v / cellSize)] and
      [ceil (v / cellSize)]) are computed exactly with the integer square
      root, see [div_cellSize].
    - [math.sqrt d2 < minDist] is decided on the squares.
    - The module [random] is a tape of raw draws that the generator object
      consumes from left to right; [random], [randint] and [uniform] map a
      raw draw into their range.
    - Python exceptions are the values of [exn]; a [while] loop takes fuel
      and answers [Timeout] when the fuel runs out. *)

From Stdlib Require Import ZArith QArith Qround Qabs List Bool Lia Psatz.
From Stdlib Require Import Sorted Permutation.
Import ListNotations.
Local Open Scope Z_scope.

(** ** Python lists *)

Inductive exn := IndexError | ValueError | ZeroDivisionError | TypeError.

Definition py_len {A} (l : list A) : Z := Z.of_nat (length l).

(** [range(a, b)]: empty when [b <= a]. *)
Definition py_range (a b : Z) : list Z :=
  map (fun i => a + Z.of_nat i) (seq 0 (Z.to_nat (b - a))).

(** The position that index [i] denotes in a list of length [n]: negative
    indices count from the end, anything else is out of range. *)
Definition py_index (n : nat) (i : Z) : option nat :=
  if (0 <=? i) && (i <? Z.of_nat n) then Some (Z.to_nat i)
  else if (- Z.of_nat n <=? i) && (i <? 0) then Some (Z.to_nat (Z.of_nat n + i))
  else None.

Definition py_getitem {A} (l : list A) (i : Z) : exn + A :=
  match py_index (length l) i with
  | Some k => match nth_error l k with Some a => inr a | None => inl IndexError end
  | None => inl IndexError
  end.

Fixpoint set_nth {A} (l : list A) (k : nat) (a : A) : list A :=
  match l, k with
  | [], _ => []
  | _ :: t, O => a :: t
  | h :: t, S k' => h :: set_nth t k' a
  end.

Definition py_setitem {A} (l : list A) (i : Z) (a : A) : exn + list A :=
  match py_index (length l) i with
  | Some k => inr (set_nth l k a)
  | None => inl IndexError
  end.

Fixpoint remove_nth {A} (l : list A) (k : nat) : list A :=
  match l, k with
  | [], _ => []
  | _ :: t, O => t
  | h :: t, S k' => h :: remove_nth t k'
  end.

(** [l.pop(i)]: the element and the list without it. *)
Definition py_pop {A} (l : list A) (i : Z) : exn + (A * list A) :=
  match py_index (length l) i with
  | Some k =>
      match nth_error l k with
      | Some a => inr (a, remove_nth l k)
      | None => inl IndexError
      end
  | None => inl IndexError
  end.

(** ** Floats *)

(** [int(q)] on a float: truncation toward zero. *)
Definition int_trunc (q : Q) : Z := Z.quot (Qnum q) (QDen q).

Definition Qltb (a b : Q) : bool := negb (Qle_bool b a).

(** A numpy float: a finite value, an infinity or NaN. *)
Inductive npfloat := Fin (q : Q) | PInf | NInf | NaN.

Definition np_neg (a : npfloat) : npfloat :=
  match a with
  | Fin q => Fin (- q)
  | PInf => NInf
  | NInf => PInf
  | NaN => NaN
  end.

(** [a < b] on floats: false as soon as one side is NaN. *)
Definition np_lt (a b : npfloat) : bool :=
  match a, b with
  | Fin p, Fin q => Qltb p q
  | Fin _, PInf => true
  | NInf, Fin _ => true
  | NInf, PInf => true
  | _, _ => false
  end.

(** [a / d] in numpy for finite operands: no exception, [0/0] is NaN and
    [a/0] an infinity of the sign of [a]. *)
Definition np_div (a d : Q) : npfloat :=
  if Qeq_bool d 0 then
    if Qeq_bool a 0 then NaN else if Qltb 0 a then PInf else NInf
  else Fin (a / d).

(** ** class Point *)

Record Point := mkPoint { x : Z; y : Z; priority : npfloat }.

(** [Point(x, y)]: the priority defaults to [0.0]. *)
Definition newPoint (vx vy : Z) : Point := mkPoint vx vy (Fin 0).

(** [list(point)], through [__iter__]: the two coordinates. *)
Definition Point_list (p : Point) : Q * Q := (inject_Z (x p), inject_Z (y p)).

(** [__lt__] *)
Definition Point_lt (self other : Point) : bool :=
  np_lt (priority self) (priority other).

(** The integer under the square root of [distance]. *)
Definition distance2 (self point : Point) : Z :=
  (x point - x self) ^ 2 + (y point - y self) ^ 2.

(** [self.distance(point) < d]: the square root of a non-negative integer is
    below [d] exactly when [d] is positive and the integer is below [d * d]. *)
Definition distance_lt (self point : Point) (d : Q) : bool :=
  Qltb 0 d && Qltb (inject_Z (distance2 self point)) (d * d).

(** ** class Grid *)

(** [int(v / cellSize)] for an integer [v], where [cellSize = minDist/sqrt 2]
    and [minDist = a/b]: the quotient is [v * b * sqrt 2 / a], of absolute
    value [sqrt (2 * (v*b)^2) / |a|], whose integer part is
    [Z.sqrt (2 * (v*b)^2) / |a|]. *)
Definition div_cellSize (minDist : Q) (v : Z) : Z :=
  Z.sgn v * Z.sgn (Qnum minDist)
  * (Z.sqrt (2 * (v * QDen minDist) ^ 2) / Z.abs (Qnum minDist)).

(** [math.ceil(v / cellSize)]: the quotient is irrational unless [v = 0], so
    the ceiling is one above the truncation when the quotient is positive
    and the truncation itself otherwise. *)
Definition ceil_div_cellSize (minDist : Q) (v : Z) : Z :=
  if 0 <? Z.sgn v * Z.sgn (Qnum minDist)
  then div_cellSize minDist v + 1
  else div_cellSize minDist v.

Record Grid := mkGrid {
  minDist : Q;
  width : Z;
  height : Z;
  grid : list (option Point)
}.

(** [__init__]: dividing by [cellSize = 0.0] raises. *)
Definition Grid_init (minDist0 : Q) (imageWidth0 imageHeight0 : Z) : exn + Grid :=
  if Qeq_bool minDist0 0 then inl ZeroDivisionError
  else
    let w := ceil_div_cellSize minDist0 imageWidth0 in
    let h := ceil_div_cellSize minDist0 imageHeight0 in
    inr (mkGrid minDist0 w h (repeat None (Z.to_nat w * Z.to_nat h))).

Definition getGridCoordinates (self : Grid) (point : Point) : Point :=
  newPoint (div_cellSize (minDist self) (x point))
           (div_cellSize (minDist self) (y point)).

Definition getGridIndex (self : Grid) (vx vy : Z) (gridSpace : bool) : Z :=
  let c := if gridSpace then newPoint vx vy
           else getGridCoordinates self (newPoint vx vy) in
  y c * width self + x c.

Definition insert (self : Grid) (point : Point) : exn + Grid :=
  match py_setitem (grid self) (getGridIndex self (x point) (y point) false)
                   (Some point) with
  | inr cells => inr (mkGrid (minDist self) (width self) (height self) cells)
  | inl e => inl e
  end.

(** The body of the two loops of [checkInNeighborhood] at one cell. *)
Definition cell_hit (self : Grid) (point : Point) (cx cy : Z) : bool :=
  let index := getGridIndex self cx cy true in
  if (0 <=? index) && (index <? py_len (grid self)) then
    match nth_error (grid self) (Z.to_nat index) with
    | Some (Some neighbor) => distance_lt point neighbor (minDist self)
    | _ => false
    end
  else false.

Definition checkInNeighborhood (self : Grid) (point : Point) : bool :=
  let gridCoords := getGridCoordinates self point in
  let radius := 2 in
  existsb (fun cy =>
    existsb (fun cx => cell_hit self point cx cy)
            (py_range (x gridCoords - radius) (x gridCoords + radius)))
    (py_range (y gridCoords - radius) (y gridCoords + radius)).

Definition reset (self : Grid) : Grid :=
  mkGrid (minDist self) (width self) (height self)
         (repeat None (length (grid self))).

(** Inserting a list of points one after the other. *)
Fixpoint insert_all (self : Grid) (points : list Point) : exn + Grid :=
  match points with
  | [] => inr self
  | p :: rest =>
      match insert self p with
      | inr g => insert_all g rest
      | inl e => inl e
      end
  end.

(** ** The module random *)

(** The random source: a tape of raw draws and the position of the next
    one.  Every call of [random.random] consumes one raw draw. *)
Record Rng := mkRng { tape : nat -> Q; pos : nat }.

(** The fractional part, in [[0, 1)]. *)
Definition frac (q : Q) : Q := q - inject_Z (Qfloor q).

(** [cos(angle)] and [sin(angle)] for [angle = 2*PI*r2].  The exact values
    are irrational for almost every [r2], so the direction is read through a
    rational parametrisation of the unit circle: it turns once
    counter-clockwise as [r2] runs over [[0, 1)], meets the four axes at
    [0], [1/4], [1/2] and [3/4], and reaches every rational point of the
    circle (in each quarter, [t] is the tangent of the half angle).  At
    those four values of [r2] the integers [int(radius * cos(angle))] and
    [int(radius * sin(angle))] of Python are the ones computed here; at
    another [r2] the direction is that of an angle of the same quarter,
    not of [2*PI*r2] itself. *)
Definition unit_dir (r2 : Q) : Q * Q :=
  let k := Qfloor (4 * r2) in
  let t := (4 * r2 - inject_Z k)%Q in
  let c := ((1 - t * t) / (1 + t * t))%Q in
  let s := ((2 * t) / (1 + t * t))%Q in
  match k mod 4 with
  | 0 => (c, s)
  | 1 => ((- s)%Q, c)
  | 2 => ((- c)%Q, (- s)%Q)
  | _ => (s, (- c)%Q)
  end.

(** ** class BlueNoiseGenerator *)

(** [image] is represented by its shape and by [rawWeight], the surface
    [0.3*image_entropy + 0.7*image_sobel] that the scikit-image filters
    compute from it (rows first, as [imageWeight[y][x]] reads it). *)
Record BlueNoiseGenerator := mkGen {
  pointCount : Z;
  newPointsToGenerate : Z;
  imageHeight : Z;
  imageWidth : Z;
  rawWeight : list (list Q);
  self_grid : Grid;
  self_minDist : Q;
  sampledList : list (Q * Q);
  processingList : list Point;
  imageWeight : option (list (list npfloat));
  edgeThreshold : Q
}.

Definition BlueNoiseGenerator_init (pointCount0 : Z) (imageHeight0 imageWidth0 : Z)
    (rawWeight0 : list (list Q)) (grid0 : Grid) (minDist0 : Q)
    (newPointsGenerationCount : Z) : BlueNoiseGenerator :=
  mkGen pointCount0 newPointsGenerationCount imageHeight0 imageWidth0 rawWeight0
        grid0 (minDist grid0) [] [] None minDist0.

(** *** The monad of the methods: random tape, object state, exceptions, fuel *)

Inductive outcome (A : Type) :=
| Done (a : A)
| Raise (e : exn)
| Timeout.
Arguments Done {A} a.
Arguments Raise {A} e.
Arguments Timeout {A}.

Definition St : Type := Rng * BlueNoiseGenerator.
Definition M (A : Type) : Type := St -> outcome (A * St).

Definition ret {A} (a : A) : M A := fun s => Done (a, s).

Definition bind {A B} (c : M A) (k : A -> M B) : M B :=
  fun s => match c s with
           | Done (a, s') => k a s'
           | Raise e => Raise e
           | Timeout => Timeout
           end.

Notation "v <- c ;; k" := (bind c (fun v => k))
  (at level 61, c at next level, right associativity).
Notation "c ;;; k" := (bind c (fun _ => k))
  (at level 61, right associativity).

Definition raise {A} (e : exn) : M A := fun _ => Raise e.
Definition timeout {A} : M A := fun _ => Timeout.
Definition get_self : M BlueNoiseGenerator := fun s => Done (snd s, s).
Definition set_self (g : BlueNoiseGenerator) : M unit := fun s => Done (tt, (fst s, g)).
Definition lift {A} (r : exn + A) : M A :=
  match r with inr a => ret a | inl e => raise e end.

(** [random.random()] *)
Definition random : M Q :=
  fun s => let r := fst s in
           Done (frac (tape r (pos r)), (mkRng (tape r) (S (pos r)), snd s)).

(** [random.randint(a, b)]: an integer of [[a, b]], both ends included. *)
Definition randint (a b : Z) : M Z :=
  if b <? a then raise ValueError
  else u <- random ;; ret (a + Qfloor (u * inject_Z (b - a + 1))).

(** [random.uniform(a, b)] *)
Definition uniform (a b : Q) : M Q :=
  u <- random ;; ret (a + (b - a) * u)%Q.

(** [Point.generateRandomPointAround] *)
Definition generateRandomPointAround (self : Point) (minDist0 : Q) : M Point :=
  r1 <- random ;;
  r2 <- random ;;
  let radius := (minDist0 * (1 + r1))%Q in
  let d := unit_dir r2 in
  ret (newPoint (x self + int_trunc (radius * fst d))
                (y self + int_trunc (radius * snd d))).

(** *** The queue of [generateWeighted]

    [queue.PriorityQueue] is kept as the list of its entries in the order
    in which [get] hands them out: [put] places an entry before the first
    one it is [__lt__] of.  Among entries of equal priority the list keeps
    the order of arrival, which the heap of [queue.PriorityQueue] does not
    promise. *)
Fixpoint pq_put (p : Point) (q : list Point) : list Point :=
  match q with
  | [] => [p]
  | h :: t => if Point_lt p h then p :: h :: t else h :: pq_put p t
  end.

(** *** Bodies shared by the two samplers *)

(** The early boundary check on a candidate. *)
Definition in_bounds (g : BlueNoiseGenerator) (p : Point) : bool :=
  Qltb (edgeThreshold g) (inject_Z (x p))
  && Qltb (inject_Z (x p)) (inject_Z (imageWidth g) - edgeThreshold g)
  && Qltb (edgeThreshold g) (inject_Z (y p))
  && Qltb (inject_Z (y p)) (inject_Z (imageHeight g) - edgeThreshold g).

Definition with_lists (g : BlueNoiseGenerator) (grid0 : Grid)
    (sampled : list (Q * Q)) (processing : list Point) : BlueNoiseGenerator :=
  mkGen (pointCount g) (newPointsToGenerate g) (imageHeight g) (imageWidth g)
        (rawWeight g) grid0 (self_minDist g) sampled processing
        (imageWeight g) (edgeThreshold g).

(** [processingList.append(p); sampledList.append(list(p)); grid.insert(p)] *)
Definition accept (p : Point) : M unit :=
  g <- get_self ;;
  grid' <- lift (insert (self_grid g) p) ;;
  set_self (with_lists g grid' (sampledList g ++ [Point_list p])
                       (processingList g ++ [p])).

(** The seed: [Point(randint(0, imageWidth), randint(0, imageHeight))],
    appended to both lists and inserted in the grid. *)
Definition seed : M Point :=
  g <- get_self ;;
  sx <- randint 0 (imageWidth g) ;;
  sy <- randint 0 (imageHeight g) ;;
  let startingPoint := newPoint sx sy in
  grid' <- lift (insert (self_grid g) startingPoint) ;;
  set_self (with_lists g grid' (sampledList g ++ [Point_list startingPoint])
                       (processingList g ++ [startingPoint])) ;;;
  ret startingPoint.

(** The loop test of both samplers. *)
Definition keep_sampling (g : BlueNoiseGenerator) : bool :=
  (0 <? py_len (processingList g))
  && (py_len (sampledList g) <? pointCount g).

(** [processingList.pop(random.randint(0, len(processingList) - 1))] *)
Definition pop_random : M Point :=
  g <- get_self ;;
  i <- randint 0 (py_len (processingList g) - 1) ;;
  g1 <- get_self ;;
  r <- lift (py_pop (processingList g1) i) ;;
  set_self (with_lists g1 (self_grid g1) (sampledList g1) (snd r)) ;;;
  ret (fst r).

(** *** generateBoundary *)

Record Cursors := mkCursors {
  upperWidth : Q; lowerWidth : Q; leftHeight : Q; rightHeight : Q
}.

Definition append_sampled (pts : list (Q * Q)) : M unit :=
  g <- get_self ;;
  set_self (with_lists g (self_grid g) (sampledList g ++ pts) (processingList g)).

Definition boundary_test (g : BlueNoiseGenerator) (c : Cursors) : bool :=
  Qltb (lowerWidth c) (inject_Z (imageWidth g))
  && Qltb (upperWidth c) (inject_Z (imageWidth g))
  && Qltb (leftHeight c) (inject_Z (imageHeight g))
  && Qltb (rightHeight c) (inject_Z (imageHeight g)).

Fixpoint boundary_loop (fuel : nat) (twiceMinDist aspectRatio : Q) (c : Cursors)
  : M unit :=
  g <- get_self ;;
  if boundary_test g c then
    match fuel with
    | O => timeout
    | S fuel' =>
        append_sampled
          [ (upperWidth c, 0%Q);
            (lowerWidth c, inject_Z (imageHeight g - 1));
            (0%Q, leftHeight c);
            (inject_Z (imageWidth g - 1), rightHeight c) ] ;;;
        let wide := imageHeight g <? imageWidth g in
        let tall := imageWidth g <? imageHeight g in
        let lo (b : bool) := if b then (self_minDist g * aspectRatio)%Q else self_minDist g in
        let hi (b : bool) := if b then (twiceMinDist * aspectRatio)%Q else twiceMinDist in
        upperDelta <- uniform (lo wide) (hi wide) ;;
        lowerDelta <- uniform (lo wide) (hi wide) ;;
        leftDelta <- uniform (lo tall) (hi tall) ;;
        rightDelta <- uniform (lo tall) (hi tall) ;;
        boundary_loop fuel' twiceMinDist aspectRatio
          (mkCursors (upperWidth c + upperDelta) (lowerWidth c + lowerDelta)
                     (leftHeight c + leftDelta) (rightHeight c + rightDelta))
    end
  else ret tt.

Definition generateBoundary (fuel : nat) : M unit :=
  g <- get_self ;;
  let twiceMinDist := (2 * self_minDist g)%Q in
  aspectRatio <-
    (if imageHeight g <? imageWidth g then
       if imageHeight g =? 0 then raise ZeroDivisionError
       else ret (inject_Z (imageWidth g) / inject_Z (imageHeight g))%Q
     else
       if imageWidth g =? 0 then raise ZeroDivisionError
       else ret (inject_Z (imageHeight g) / inject_Z (imageWidth g))%Q) ;;
  boundary_loop fuel twiceMinDist aspectRatio (mkCursors 0 0 0 0) ;;;
  g1 <- get_self ;;
  append_sampled
    [ (inject_Z (imageWidth g1 - 1), 0%Q);
      (inject_Z (imageWidth g1 - 1), inject_Z (imageHeight g1 - 1)) ].

(** *** generate *)

(** The [for] loop over the candidates of one removed point. *)
Fixpoint uniform_candidates (n : nat) (randomPoint : Point) : M unit :=
  match n with
  | O => ret tt
  | S n' =>
      g <- get_self ;;
      newPoint0 <- generateRandomPointAround randomPoint (self_minDist g) ;;
      g1 <- get_self ;;
      (if in_bounds g1 newPoint0 && negb (checkInNeighborhood (self_grid g1) newPoint0)
       then accept newPoint0
       else ret tt) ;;;
      uniform_candidates n' randomPoint
  end.

(** One turn of the [while] loop of [generate]. *)
Definition uniform_step : M unit :=
  g <- get_self ;;
  randomPoint <- pop_random ;;
  uniform_candidates (Z.to_nat (newPointsToGenerate g)) randomPoint.

Fixpoint uniform_loop (fuel : nat) : M unit :=
  g <- get_self ;;
  if keep_sampling g then
    match fuel with
    | O => timeout
    | S fuel' => uniform_step ;;; uniform_loop fuel'
    end
  else ret tt.

(** [generate] up to the call of [generateBoundary]. *)
Definition generate_sampling (fuel : nat) : M unit :=
  seed ;;; uniform_loop fuel.

Definition generate (fuel : nat) : M (list (Q * Q)) :=
  generate_sampling fuel ;;;
  generateBoundary fuel ;;;
  g <- get_self ;;
  ret (sampledList g).

(** *** generateWeighted *)

(** [np.mean] of a two-dimensional array: the sum over the number of
    entries; numpy answers NaN for an empty array. *)
Definition np_sum (rows : list (list Q)) : Q :=
  fold_right (fun row acc => fold_right Qplus acc row) 0%Q rows.

Definition np_size {A} (rows : list (list A)) : nat :=
  fold_right (fun row acc => (length row + acc)%nat) 0%nat rows.

Definition np_mean (rows : list (list Q)) : npfloat :=
  np_div (np_sum rows) (inject_Z (Z.of_nat (np_size rows))).

(** A finite entry divided by the mean. *)
Definition np_div_by (a : Q) (d : npfloat) : npfloat :=
  match d with
  | Fin d' => np_div a d'
  | NaN => NaN
  | PInf | NInf => Fin 0
  end.

(** [self.imageWeight /= np.mean(self.imageWeight)] *)
Definition normalize (rows : list (list Q)) : list (list npfloat) :=
  let mean := np_mean rows in
  map (map (fun a => np_div_by a mean)) rows.

Definition np_nonzero (a : npfloat) : bool :=
  match a with Fin q => negb (Qeq_bool q 0) | _ => true end.

(** The truth value of an array, as [not self.imageWeight] asks for it:
    numpy refuses to give one to an array of more than one entry. *)
Definition np_truth (w : list (list npfloat)) : exn + bool :=
  match concat w with
  | [] => inr false
  | [a] => inr (np_nonzero a)
  | _ => inl ValueError
  end.

Definition set_imageWeight (g : BlueNoiseGenerator) (w : list (list npfloat))
  : BlueNoiseGenerator :=
  mkGen (pointCount g) (newPointsToGenerate g) (imageHeight g) (imageWidth g)
        (rawWeight g) (self_grid g) (self_minDist g) (sampledList g)
        (processingList g) (Some w) (edgeThreshold g).

(** The preprocessing block: the filters are outside the program (their
    result is [rawWeight]); the last line normalises by the mean. *)
Definition preprocess : M unit :=
  g <- get_self ;;
  stale <- match imageWeight g with
           | None => ret true
           | Some w => b <- lift (np_truth w) ;; ret (negb b)
           end ;;
  if (stale : bool) then set_self (set_imageWeight g (normalize (rawWeight g)))
  else ret tt.

(** [self.imageWeight[newPoint.y][newPoint.x]] *)
Definition weight_at (g : BlueNoiseGenerator) (p : Point) : exn + npfloat :=
  match imageWeight g with
  | None => inl TypeError
  | Some w =>
      match py_getitem w (y p) with
      | inr row => py_getitem row (x p)
      | inl e => inl e
      end
  end.

(** The [for] loop that queues the candidates of one removed point. *)
Fixpoint weighted_candidates (n : nat) (randomPoint : Point) (pQueue : list Point)
  : M (list Point) :=
  match n with
  | O => ret pQueue
  | S n' =>
      g <- get_self ;;
      newPoint0 <- generateRandomPointAround randomPoint (self_minDist g) ;;
      g1 <- get_self ;;
      pQueue' <- (if in_bounds g1 newPoint0 then
                    w <- lift (weight_at g1 newPoint0) ;;
                    ret (pq_put (mkPoint (x newPoint0) (y newPoint0) (np_neg w)) pQueue)
                  else ret pQueue) ;;
      weighted_candidates n' randomPoint pQueue'
  end.

(** The inner [while not pQueue.empty() and not found]: the queue that is
    left when it stops. *)
Fixpoint drain (pQueue : list Point) : M (list Point) :=
  match pQueue with
  | [] => ret []
  | newPoint0 :: rest =>
      g <- get_self ;;
      if negb (checkInNeighborhood (self_grid g) newPoint0)
      then accept newPoint0 ;;; ret rest
      else drain rest
  end.

(** One turn of the outer loop, from the queue before to the queue after. *)
Definition weighted_step (pQueue : list Point) : M (list Point) :=
  g <- get_self ;;
  randomPoint <- pop_random ;;
  pQueue1 <- weighted_candidates (Z.to_nat (newPointsToGenerate g)) randomPoint pQueue ;;
  drain pQueue1.

Fixpoint weighted_loop (fuel : nat) (pQueue : list Point) : M unit :=
  g <- get_self ;;
  if keep_sampling g then
    match fuel with
    | O => timeout
    | S fuel' => pQueue' <- weighted_step pQueue ;; weighted_loop fuel' pQueue'
    end
  else ret tt.

(** [generateWeighted] up to the call of [generateBoundary]. *)
Definition generateWeighted_sampling (fuel : nat) : M unit :=
  preprocess ;;; seed ;;; weighted_loop fuel [].

Definition generateWeighted (fuel : nat) : M (list (Q * Q)) :=
  generateWeighted_sampling fuel ;;;
  generateBoundary fuel ;;;
  g <- get_self ;;
  ret (sampledList g).


(** ** calculateTriColors *)

Definition Color : Type := (Q * Q * Q)%type.

Definition red (c : Color) : Q := fst (fst c).
Definition green (c : Color) : Q := snd (fst c).
Definition blue (c : Color) : Q := snd c.

(** An image: its shape and [image[row][column]]. *)
Record Image := mkImage {
  shape_height : nat;
  shape_width : nat;
  pixel : nat -> nat -> Color
}.

(** What the function uses of a [scipy.spatial.Delaunay] object: the
    simplices and the point location, which answers [-1] outside the hull. *)
Record Triangulation := mkTriangulation {
  simplices : list (Z * Z * Z);
  find_simplex : Z * Z -> Z
}.

(** [np.c_[xx.ravel(), yy.ravel()]]: the coordinates [(x, y)], row after row. *)
Definition pixelCoords (image : Image) : list (nat * nat) :=
  flat_map (fun r => map (fun c => (c, r)) (seq 0 (shape_width image)))
           (seq 0 (shape_height image)).

(** The rows of the data frame: the triangle of the pixel and its colour,
    in the order of [image.reshape(-1, 3)]. *)
Definition frame (image : Image) (triangulation : Triangulation)
  : list (Z * Color) :=
  map (fun xy => (find_simplex triangulation (Z.of_nat (fst xy), Z.of_nat (snd xy)),
                  pixel image (snd xy) (fst xy)))
      (pixelCoords image).

(** [groupby]: the rows of each key, in the order of the frame.  The groups
    are kept in the order of first appearance; [reindex] looks them up by
    label, so the order among them is immaterial. *)
Fixpoint group_add (k : Z) (c : Color) (groups : list (Z * list Color))
  : list (Z * list Color) :=
  match groups with
  | [] => [(k, [c])]
  | (k', cs) :: rest =>
      if k =? k' then (k', cs ++ [c]) :: rest
      else (k', cs) :: group_add k c rest
  end.

Definition groupby (rows : list (Z * Color)) : list (Z * list Color) :=
  fold_left (fun groups row => group_add (fst row) (snd row) groups) rows [].

(** [aggregate(aggregateFunc)]: the function on each of the columns r, g, b
    of each group. *)
Definition aggregate (aggregateFunc : list Q -> Q) (groups : list (Z * list Color))
  : list (Z * Color) :=
  map (fun g => (fst g, (aggregateFunc (map red (snd g)),
                         aggregateFunc (map green (snd g)),
                         aggregateFunc (map blue (snd g)))))
      groups.

Fixpoint lookup {A} (k : Z) (l : list (Z * A)) : option A :=
  match l with
  | [] => None
  | (k', a) :: rest => if k =? k' then Some a else lookup k rest
  end.

(** [reindex(range(triangleCount), fill_value=0)] *)
Definition reindex (triangleCount : Z) (rows : list (Z * Color)) : list Color :=
  map (fun t => match lookup t rows with
                | Some c => c
                | None => (0, 0, 0)%Q
                end)
      (py_range 0 triangleCount).

Definition calculateTriColors (image : Image) (triangulation : Triangulation)
    (aggregateFunc : list Q -> Q) : list Color :=
  let triangleCount := py_len (simplices triangulation) in
  let triangleColors :=
    reindex triangleCount (aggregate aggregateFunc (groupby (frame image triangulation))) in
  map (fun c => (red c / 256, green c / 256, blue c / 256)%Q) triangleColors.

(** [np.mean] and [np.median] of a non-empty column. *)
Definition np_mean_col (l : list Q) : Q :=
  (fold_right Qplus 0 l / inject_Z (Z.of_nat (length l)))%Q.

Fixpoint sort_insert (a : Q) (l : list Q) : list Q :=
  match l with
  | [] => [a]
  | h :: t => if Qle_bool a h then a :: h :: t else h :: sort_insert a t
  end.

Definition np_sort (l : list Q) : list Q := fold_right sort_insert [] l.

Definition np_median_col (l : list Q) : Q :=
  let s := np_sort l in
  let n := length l in
  if Nat.even n
  then ((nth (n / 2 - 1) s 0 + nth (n / 2) s 0) / 2)%Q
  else nth (n / 2) s 0%Q.

(** ** Concrete runs used below *)

Definition tape_of (l : list Q) : Rng := mkRng (fun i => nth i l 0%Q) 0.

Definition grid_of (r : exn + Grid) : Grid :=
  match r with inr g => g | inl _ => mkGrid 0 0 0 [] end.

Definition ones (rows cols : nat) : list (list Q) := repeat (repeat 1%Q cols) rows.
Definition zeros (rows cols : nat) : list (list Q) := repeat (repeat 0%Q cols) rows.

(** A 120 x 120 image, [minDist = 20], three points asked for, one
    candidate per removed point. *)
Definition scenario_gen : BlueNoiseGenerator :=
  BlueNoiseGenerator_init 3 120 120 (ones 120 120) (grid_of (Grid_init 20 120 120)) 20 1.

(** The draws: the seed (71, 60); index 0, [r1 = 0.05] and the direction
    (-5/13, 12/13); index 0, [r1 = 0.05] and the direction (-5/13, -12/13). *)
Definition scenario_tape : Rng :=
  tape_of [71 # 121; 60 # 121; 0; 1 # 20; 3 # 10; 0; 1 # 20; 2 # 3]%Q.

(** The outcome of a method as an option: the value and the object. *)
Definition result {A} (o : outcome (A * St)) : option (A * BlueNoiseGenerator) :=
  match o with Done (a, s) => Some (a, snd s) | _ => None end.

Definition value {A} (o : outcome (A * St)) : option A :=
  match o with Done (a, _) => Some a | _ => None end.

Definition final {A} (o : outcome (A * St)) : option BlueNoiseGenerator :=
  match o with Done (_, s) => Some (snd s) | _ => None end.

(** The value and the state in which a method ends, [d] when it does not
    return. *)
Definition value_or {A} (d : A) (o : outcome (A * St)) : A :=
  match o with Done (a, _) => a | _ => d end.

Definition state_or {A} (d : St) (o : outcome (A * St)) : St :=
  match o with Done (_, s) => s | _ => d end.

(** ** Specifications of methods *)

(** [post T c Q s]: run from [s], the method [c] either ends in a state and
    with a value that satisfy [Q], or raises; running out of fuel is
    accepted when [T] holds.  [post True] is partial correctness,
    [post False] adds that the fuel suffices. *)
Definition post {A} (T : Prop) (c : M A) (Q : A -> St -> Prop) (s : St) : Prop :=
  match c s with
  | Done (a, s') => Q a s'
  | Raise _ => True
  | Timeout => T
  end.

(** The run does not stop for lack of fuel. *)
Definition halts {A} (o : outcome A) : Prop :=
  match o with Timeout => False | _ => True end.

(** A 10 x 10 image with [minDist = 3]. *)
Definition small_gen : BlueNoiseGenerator :=
  BlueNoiseGenerator_init 5 10 10 (ones 10 10) (grid_of (Grid_init 3 10 10)) 3 50.

(** Draws for it: the seed (0, 5); index 0; the candidate (4, 5), which is
    accepted; every later draw is 0. *)
Definition small_tape : Rng := tape_of [0; 5 # 11; 0; 1 # 3; 0]%Q.

(** The colours of the pixels that the point location puts in simplex [t],
    in the order of the frame. *)
Definition covered (image : Image) (triangulation : Triangulation) (t : Z)
  : list Color :=
  map snd (filter (fun row => fst row =? t) (frame image triangulation)).

(** All the colours of the image, row after row. *)
Definition all_pixels (image : Image) : list Color :=
  map (fun xy => pixel image (snd xy) (fst xy)) (pixelCoords image).

(** One row of three pixels. *)
Definition strip3 : Image :=
  mkImage 1 3 (fun _ c => match c with
                          | O => (0, 64, 32)
                          | S O => (30, 64, 32)
                          | _ => (240, 64, 128)
                          end%Q).

(** A triangulation of one simplex whose point location always answers 0. *)
Definition one_simplex : Triangulation := mkTriangulation [(0, 1, 2)] (fun _ => 0).

(** A 120 x 120 image whose importance surface is zero everywhere,
    [minDist = 20], two points asked for, two candidates per removed
    point.  The draws: the seed (60, 60); index 0; the candidates
    (52, 79) and (52, 41). *)
Definition zero_gen : BlueNoiseGenerator :=
  BlueNoiseGenerator_init 2 120 120 (zeros 120 120) (grid_of (Grid_init 20 120 120)) 20 2.

Definition zero_tape : Rng :=
  tape_of [60 # 121; 60 # 121; 0; 1 # 20; 3 # 10; 1 # 20; 2 # 3]%Q.

(** Other draws for the same object: the seed (60, 60); index 0; the
    candidates (80, 60) and (40, 60), at the angles 0 and half a turn. *)
Definition zero_axis_tape : Rng :=
  tape_of [1 # 2; 1 # 2; 0; 0; 0; 0; 1 # 2]%Q.

(** [zero_gen] after the preprocessing and the seed. *)
Definition zero_seeded : St :=
  state_or (zero_axis_tape, zero_gen) ((preprocess ;;; seed) (zero_axis_tape, zero_gen)).

(** Every entry of the surface is zero. *)
Definition all_zero (rows : list (list Q)) : Prop :=
  Forall (Forall (fun a => a == 0)%Q) rows.

(** ** Vocabulary of the sampler properties *)

(** The fields of the object that are only read once the sampling starts. *)
Definition params (g : BlueNoiseGenerator) :=
  (pointCount g, newPointsToGenerate g, imageHeight g, imageWidth g,
   rawWeight g, self_minDist g, imageWeight g, edgeThreshold g).

(** [g'] is [g] after [a] acceptances: both lists are longer by [a]. *)
Definition grew (a : nat) (g g' : BlueNoiseGenerator) : Prop :=
  params g' = params g /\
  length (sampledList g') = (length (sampledList g) + a)%nat /\
  length (processingList g') = (length (processingList g) + a)%nat.

(** [g'] is [g] after one removal from the processing list followed by [a]
    acceptances. *)
Definition stepped (a : nat) (g g' : BlueNoiseGenerator) : Prop :=
  params g' = params g /\
  length (sampledList g') = (length (sampledList g) + a)%nat /\
  (length (processingList g') + 1 = length (processingList g) + a)%nat.

(** Fuel that lets the outer loop of a sampler end, when one turn accepts
    at most [k] points. *)
Definition loop_fuel (k : nat) (g : BlueNoiseGenerator) : nat :=
  (length (processingList g)
   + (k + 1) * Z.to_nat (pointCount g - py_len (sampledList g)))%nat.

(** Fuel that lets the loop of [generateBoundary] end from cursor [u] of the
    upper edge. *)
Definition boundary_fuel (g : BlueNoiseGenerator) (u : Q) : nat :=
  Z.to_nat (Qceiling ((inject_Z (imageWidth g) - u) / self_minDist g)).

(** Fuel for a whole run of either sampler. *)
Definition run_fuel (g : BlueNoiseGenerator) : nat :=
  (length (processingList g) + 1
   + (Z.to_nat (newPointsToGenerate g) + 2)
     * Z.to_nat (pointCount g - py_len (sampledList g) - 1)
   + boundary_fuel g 0)%nat.

(** A float that is not NaN. *)
Definition defined (a : npfloat) : bool :=
  match a with NaN => false | _ => true end.

(** [p] is handed out by the queue no later than [q]. *)
Definition prio_le (p q : Point) : Prop := Point_lt q p = false.

(** A queue whose entries have a priority and are in ascending order of
    it: the head is the next entry that [get] returns. *)
Definition queue_ok (q : list Point) : Prop :=
  Forall (fun p => defined (priority p) = true) q /\ StronglySorted prio_le q.

(** The importance surface is there and holds no NaN. *)
Definition weights_defined (g : BlueNoiseGenerator) : Prop :=
  match imageWeight g with
  | Some w => forallb (forallb defined) w = true
  | None => False
  end.

(** The priority of [c] is the negated importance at its coordinates. *)
Definition stored_priority (g : BlueNoiseGenerator) (c : Point) : Prop :=
  exists w, weight_at g c = inr w /\ priority c = np_neg w.

(** The grid reports a neighbour of [c]. *)
Definition blocked (grid0 : Grid) (c : Point) : Prop :=
  checkInNeighborhood grid0 c = true.

(** What the inner [while] does to the queue [q1] and the object [g]:
    either it pops the entries [rejected], all blocked, then [p], which is
    free and is accepted, and leaves the rest [q'] queued; or every entry
    is blocked, the queue ends empty and nothing is accepted. *)
Definition drained (q1 : list Point) (g : BlueNoiseGenerator)
    (q' : list Point) (g' : BlueNoiseGenerator) : Prop :=
  (exists rejected p,
      q1 = rejected ++ p :: q' /\
      Forall (blocked (self_grid g)) rejected /\
      checkInNeighborhood (self_grid g) p = false /\
      processingList g' = processingList g ++ [p] /\
      sampledList g' = sampledList g ++ [Point_list p] /\
      insert (self_grid g) p = inr (self_grid g'))
  \/
  (Forall (blocked (self_grid g)) q1 /\ q' = [] /\ g' = g).

(** One turn of the outer loop of [generateWeighted], from the queue [q0]
    and the object [g] to the queue [q'] and the object [g']: one point
    [randomPoint] leaves the processing list; the admitted candidates
    [batch] join the queue, each with the negated importance as priority;
    the queue [q1] that results keeps every earlier entry and is in
    ascending order of priority; it is then drained from its head. *)
Definition weighted_turn (q0 : list Point) (g : BlueNoiseGenerator)
    (q' : list Point) (g' : BlueNoiseGenerator) : Prop :=
  exists batch q1 g1,
    (length batch <= Z.to_nat (newPointsToGenerate g))%nat /\
    Forall (fun c => in_bounds g c = true /\ stored_priority g c) batch /\
    Permutation q1 (batch ++ q0) /\
    queue_ok q1 /\
    params g1 = params g /\ self_grid g1 = self_grid g /\
    sampledList g1 = sampledList g /\
    (length (processingList g1) + 1 = length (processingList g))%nat /\
    drained q1 g1 q' g' /\
    queue_ok q' /\
    params g' = params g /\
    (length (sampledList g') <= length (sampledList g) + 1)%nat.

(** A point of one of the four edge lines of the image: on the top or the
    bottom row with its abscissa in [[0, imageWidth)], or on the left or
    the right column with its ordinate in [[0, imageHeight)]. *)
Definition on_edge (g : BlueNoiseGenerator) (pt : Q * Q) : Prop :=
  (((snd pt == 0) \/ (snd pt == inject_Z (imageHeight g) - 1)) /\
   0 <= fst pt /\ fst pt < inject_Z (imageWidth g))%Q
  \/
  (((fst pt == 0) \/ (fst pt == inject_Z (imageWidth g) - 1)) /\
   0 <= snd pt /\ snd pt < inject_Z (imageHeight g))%Q.

Definition cursors_nonneg (c : Cursors) : Prop :=
  (0 <= upperWidth c /\ 0 <= lowerWidth c /\ 0 <= leftHeight c /\ 0 <= rightHeight c)%Q.

(** *** A turn of the weighted sampler

    A 36 x 36 image with [minDist = 5] and four candidates per removed
    point.  The importance grows along each row and from row to row,
    [1 + x + 36 * y] before the normalisation, so that no two pixels have
    the same weight. *)
Definition ramp (rows cols : nat) : list (list Q) :=
  map (fun r => map (fun c => inject_Z (Z.of_nat (1 + c + cols * r))) (seq 0 cols))
      (seq 0 rows).

Definition turn_gen : BlueNoiseGenerator :=
  BlueNoiseGenerator_init 10 36 36 (ramp 36 36) (grid_of (Grid_init 5 36 36)) 5 4.

(** The draws.  The seed (20, 20).  First turn: index 0, then the
    candidates (25, 20), (20, 26), (13, 20) and (20, 12), one along each
    axis.  Second turn: index 0, then the candidates (20, 21), (20, 20),
    (20, 19) and (20, 34), the last of which fails the boundary check.
    Every draw is a binary fraction and every angle a multiple of a
    quarter turn, where [int] gives the same integers whether the cosine
    and the sine are exact or rounded. *)
Definition turn_tape : Rng :=
  tape_of [9 # 16; 9 # 16;
           0; 0; 0; 1 # 4; 1 # 4; 1 # 2; 1 # 2; 3 # 4; 3 # 4;
           0; 0; 3 # 4; 1 # 4; 3 # 4; 1 # 2; 3 # 4; 3 # 4; 1 # 4]%Q.

(** The queue and the object after the first turn. *)
Definition first_turn : outcome (list Point * St) :=
  (preprocess ;;; seed ;;; weighted_step []) (turn_tape, turn_gen).

Definition turn_queue : list Point := value_or [] first_turn.

Definition turn_state : St := state_or (turn_tape, turn_gen) first_turn.

(** The coordinates of the entries of a queue, in [get] order. *)
Definition coordinates (q : list Point) : list (Z * Z) :=
  map (fun c => (x c, y c)) q.

(** ** Vocabulary of the grid properties *)

(** The grid holds [p] in the slot of its own cell. *)
Definition stored (g : Grid) (p : Point) : Prop :=
  0 <= getGridIndex g (x p) (y p) false /\
  nth_error (grid g) (Z.to_nat (getGridIndex g (x p) (y p) false)) = Some (Some p).

(** The fields of a grid that [insert] and [reset] leave alone, and the
    number of its slots. *)
Definition shape (g : Grid) : Q * Z * Z * nat :=
  (minDist g, width g, height g, length (grid g)).

(** ** The script *)

(** [numPoints = int(imageWidth * imageHeight / (grid.cellSize ** 2))]: the
    square of [cellSize] is [minDist ** 2 / 2]. *)
Definition numPoints (g : Grid) (imageWidth0 imageHeight0 : Z) : Z :=
  int_trunc (inject_Z (imageWidth0 * imageHeight0) / (minDist g * minDist g / 2)).

(** ** Invariants of the sampling loops *)

(** A property of the object that survives what the loops do to it: the
    removal of points from the processing list, and the acceptance of a
    candidate that passed the boundary check and that the grid did not
    block. *)
Definition sampler_invariant (I : BlueNoiseGenerator -> Prop) : Prop :=
  (forall g rest,
      I g -> incl rest (processingList g) ->
      I (with_lists g (self_grid g) (sampledList g) rest)) /\
  (forall g p grid',
      I g -> in_bounds g p = true ->
      checkInNeighborhood (self_grid g) p = false ->
      insert (self_grid g) p = inr grid' ->
      I (with_lists g grid' (sampledList g ++ [Point_list p]) (processingList g ++ [p]))).

(** The sampled list is a seed of [[0, imageWidth] x [0, imageHeight]]
    followed by points that passed the boundary check of [g0]. *)
Definition inside_margin (g0 g : BlueNoiseGenerator) : Prop :=
  params g = params g0 /\
  exists p0 rest,
    sampledList g = Point_list p0 :: map Point_list rest /\
    0 <= x p0 <= imageWidth g0 /\ 0 <= y p0 <= imageHeight g0 /\
    Forall (fun p => in_bounds g0 p = true) rest.

(** The lists and the grid agree: a point of the processing list, and a
    point held by the grid, is a sampled point. *)
Definition consistent (g : BlueNoiseGenerator) : Prop :=
  (forall p, In p (processingList g) -> In (Point_list p) (sampledList g)) /\
  (forall p, In (Some p) (grid (self_grid g)) -> In (Point_list p) (sampledList g)).

(** ** Runs that return *)

(** [returns c K s]: run from [s], the method [c] returns (it neither
    raises nor runs out of fuel) with a value and in a state that satisfy
    [K]. *)
Definition returns {A} (c : M A) (K : A -> St -> Prop) (s : St) : Prop :=
  match c s with
  | Done (a, s') => K a s'
  | _ => False
  end.

(** The configuration of the script: a positive [minDist], an image of at
    least one pixel per direction, a margin that is not negative, and a
    grid of the shape that [Grid] builds for this image and this
    [minDist]. *)
Definition well_formed (g : BlueNoiseGenerator) : Prop :=
  (0 < self_minDist g)%Q /\
  1 <= imageWidth g /\ 1 <= imageHeight g /\
  (0 <= edgeThreshold g)%Q /\
  exists g0,
    Grid_init (self_minDist g) (imageWidth g) (imageHeight g) = inr g0 /\
    shape (self_grid g) = shape g0.

(** The surface has one row per image row and one entry per pixel. *)
Definition surface_fits {A} (g : BlueNoiseGenerator) (w : list (list A)) : Prop :=
  length w = Z.to_nat (imageHeight g) /\
  Forall (fun row => length row = Z.to_nat (imageWidth g)) w.

(** A well-formed object whose surface is computed and fits the image. *)
Definition weighted_ready (g : BlueNoiseGenerator) : Prop :=
  well_formed g /\
  exists w, imageWeight g = Some w /\ surface_fits g w.

(** ** One point per cell *)

(** The sampled list and the grid agree slot by slot: the sampled points
    are pairwise different, each of them is held by the grid in the slot of
    its own cell, and every point that the grid holds lies in
    [[0, imageWidth] x [0, imageHeight]] and sits in the slot of its own
    cell. *)
Definition one_per_cell (g : BlueNoiseGenerator) : Prop :=
  well_formed g /\
  NoDup (sampledList g) /\
  (forall pt, In pt (sampledList g) ->
              exists p, Point_list p = pt /\ stored (self_grid g) p) /\
  (forall k p, nth_error (grid (self_grid g)) k = Some (Some p) ->
               0 <= x p <= imageWidth g /\ 0 <= y p <= imageHeight g /\
               Z.of_nat k = getGridIndex (self_grid g) (x p) (y p) false).

(** * Properties *)

(** Split a conjunction into its parts, and nothing else. *)
Ltac conjuncts := repeat match goal with |- _ /\ _ => split end.

(** ** Sanity checks of the embedding *)

Example py_range_window : py_range (3 - 2) (3 + 2) = [1; 2; 3; 4].
Proof. reflexivity. Qed.

Example grid_10_100 :
  match Grid_init 10 100 100 with
  | inr g => (width g, height g, length (grid g)) = (15, 15, 225%nat)
  | inl _ => False
  end.
Proof. vm_compute. reflexivity. Qed.

Example cells_10 :
  map (div_cellSize 10) [0; 7; 8; 14; 15; 21; 22; -7; -8] = [0; 0; 1; 1; 2; 2; 3; 0; -1].
Proof. vm_compute. reflexivity. Qed.

(** ** Grid *)

Lemma existsb_py_range (f : Z -> bool) (a b : Z) :
  existsb f (py_range a b) = true <-> exists i, a <= i < b /\ f i = true.
Proof.
  unfold py_range. rewrite existsb_exists. split.
  - intros [i [Hin Hf]]. apply in_map_iff in Hin as [k [<- Hk]].
    apply in_seq in Hk. exists (a + Z.of_nat k). split; [lia | assumption].
  - intros [i [Hi Hf]]. exists i. split; [| assumption].
    apply in_map_iff. exists (Z.to_nat (i - a)). split; [lia |].
    apply in_seq. lia.
Qed.

(** A cell that makes the query answer True holds a point closer than
    [minDist]. *)
Lemma cell_hit_inv (g : Grid) (q : Point) (cx cy : Z) :
  cell_hit g q cx cy = true ->
  exists p, In (Some p) (grid g) /\ distance_lt q p (minDist g) = true.
Proof.
  unfold cell_hit. intros H.
  destruct ((0 <=? _) && _); [| discriminate].
  destruct (nth_error (grid g) _) as [[p |] |] eqn:E; try discriminate.
  exists p. split; [| assumption]. eapply nth_error_In; eassumption.
Qed.

(** The window is the four offsets -2, -1, 0, 1 on each axis. *)
Lemma checkInNeighborhood_window (g : Grid) (q : Point) :
  checkInNeighborhood g q = true <->
  exists dx dy, -2 <= dx <= 1 /\ -2 <= dy <= 1 /\
    cell_hit g q (x (getGridCoordinates g q) + dx)
                 (y (getGridCoordinates g q) + dy) = true.
Proof.
  unfold checkInNeighborhood. rewrite existsb_py_range. split.
  - intros [cy [Hy H]]. apply existsb_py_range in H as [cx [Hx H]].
    exists (cx - x (getGridCoordinates g q)), (cy - y (getGridCoordinates g q)).
    repeat split; try lia.
    now replace (x _ + (cx - x _)) with cx by lia;
        replace (y _ + (cy - y _)) with cy by lia.
  - intros [dx [dy [Hx [Hy H]]]].
    exists (y (getGridCoordinates g q) + dy). split; [lia |].
    apply existsb_py_range. exists (x (getGridCoordinates g q) + dx).
    split; [lia | assumption].
Qed.

(** C2, at a failing input.  Grid for [minDist = 10] on a 100 x 100 image,
    the single point (15, 0) inserted: the query at (7, 0), which is 8 away,
    answers false, because (15, 0) lies two cells to the right and the loops
    stop at offset +1.  The mirrored situation, (7, 0) stored and (15, 0)
    queried, answers true. *)
Theorem checkInNeighborhood_misses_cell_at_plus_two :
  exists g g1 g2,
    Grid_init 10 100 100 = inr g /\
    insert g (newPoint 15 0) = inr g1 /\
    insert g (newPoint 7 0) = inr g2 /\
    x (getGridCoordinates g (newPoint 15 0)) = x (getGridCoordinates g (newPoint 7 0)) + 2 /\
    distance2 (newPoint 7 0) (newPoint 15 0) = 64 /\
    distance_lt (newPoint 7 0) (newPoint 15 0) (minDist g) = true /\
    checkInNeighborhood g1 (newPoint 7 0) = false /\
    checkInNeighborhood g2 (newPoint 15 0) = true.
Proof.
  eexists; eexists; eexists.
  split; [vm_compute; reflexivity |].
  split; [vm_compute; reflexivity |].
  split; [vm_compute; reflexivity |].
  conjuncts; vm_compute; reflexivity.
Qed.

(** ** A run that breaks the minimum distance *)

(** C1, at a failing input.  Image 120 x 120, [minDist = 20], three points
    asked for, one candidate per removed point.  Both samplers return the
    seed (71, 60), then (63, 79), then (55, 60), followed by the boundary
    points; the first and the third are 16 apart.  The seed lies two cells
    to the right of (55, 60), outside the window of the query. *)
Theorem samplers_accept_point_16_from_seed :
  minDist (self_grid scenario_gen) = 20%Q /\
  option_map sampledList (final (generate_sampling 10 (scenario_tape, scenario_gen)))
    = Some (map Point_list [newPoint 71 60; newPoint 63 79; newPoint 55 60]) /\
  option_map sampledList (final (generateWeighted_sampling 10 (scenario_tape, scenario_gen)))
    = Some (map Point_list [newPoint 71 60; newPoint 63 79; newPoint 55 60]) /\
  option_map (firstn 3) (value (generate 10 (scenario_tape, scenario_gen)))
    = Some (map Point_list [newPoint 71 60; newPoint 63 79; newPoint 55 60]) /\
  option_map (firstn 3) (value (generateWeighted 10 (scenario_tape, scenario_gen)))
    = Some (map Point_list [newPoint 71 60; newPoint 63 79; newPoint 55 60]) /\
  distance2 (newPoint 71 60) (newPoint 55 60) = 16 ^ 2 /\
  distance_lt (newPoint 55 60) (newPoint 71 60) 20 = true.
Proof.
  conjuncts; vm_compute; reflexivity.
Qed.

(** ** Rules for [post] *)

Section PostRules.
Context {A B : Type} (T : Prop).

Lemma post_ret (a : A) (K : A -> St -> Prop) s : K a s -> post T (ret a) K s.
Proof. exact (fun H => H). Qed.

Lemma post_bind (c : M A) (k : A -> M B) (K : B -> St -> Prop) s :
  post T c (fun a s' => post T (k a) K s') s -> post T (bind c k) K s.
Proof.
  unfold post, bind. destruct (c s) as [[a s'] | e |]; auto.
Qed.

Lemma post_mono (c : M A) (K K' : A -> St -> Prop) s :
  (forall a s', K a s' -> K' a s') -> post T c K s -> post T c K' s.
Proof.
  unfold post. destruct (c s) as [[a s'] | e |]; auto.
Qed.

Lemma post_raise (e : exn) (K : A -> St -> Prop) s : post T (raise e) K s.
Proof. exact I. Qed.

Lemma post_lift (r : exn + A) (K : A -> St -> Prop) s :
  (forall a, r = inr a -> K a s) -> post T (lift r) K s.
Proof. destruct r as [e | a]; intros H; [exact I | apply H; reflexivity]. Qed.

Lemma post_done (c : M A) (K : A -> St -> Prop) s a s' :
  post T c K s -> c s = Done (a, s') -> K a s'.
Proof. unfold post. intros H E. now rewrite E in H. Qed.
End PostRules.

Lemma post_halts {A} (c : M A) (K : A -> St -> Prop) s :
  post False c K s -> halts (c s).
Proof. unfold post, halts. destruct (c s) as [[a s'] | e |]; auto. Qed.

Lemma post_weaken {A} (T : Prop) (c : M A) (K : A -> St -> Prop) s :
  post False c K s -> post T c K s.
Proof. unfold post. destruct (c s) as [[a s'] | e |]; tauto. Qed.

Lemma post_get_self T (K : BlueNoiseGenerator -> St -> Prop) s :
  K (snd s) s -> post T get_self K s.
Proof. exact (fun H => H). Qed.

Lemma post_set_self T g (K : unit -> St -> Prop) s :
  K tt (fst s, g) -> post T (set_self g) K s.
Proof. exact (fun H => H). Qed.

(** Peel one monadic step off the goal. *)
Ltac step :=
  cbv beta;
  lazymatch goal with
  | |- post _ (bind _ _) _ _ => apply post_bind
  | |- post _ (ret _) _ _ => apply post_ret
  | |- post _ get_self _ _ => apply post_get_self
  | |- post _ (set_self _) _ _ => apply post_set_self
  | |- post _ (raise _) _ _ => apply post_raise
  | |- post _ (lift _) _ _ => apply post_lift; intros ? ?
  end.

(** ** The random source *)

Lemma frac_range (q : Q) : (0 <= frac q < 1)%Q.
Proof.
  unfold frac.
  pose proof (Qfloor_le q) as Hlo. pose proof (Qlt_floor q) as Hhi.
  rewrite inject_Z_plus in Hhi. change (inject_Z 1) with 1%Q in Hhi. lra.
Qed.

Lemma post_random T (K : Q -> St -> Prop) s :
  (forall u r', (0 <= u < 1)%Q -> K u (r', snd s)) -> post T random K s.
Proof. intros H. unfold post, random. apply H, frac_range. Qed.

Lemma scaled_floor_range (u : Q) (n : Z) :
  (0 <= u < 1)%Q -> 0 < n -> 0 <= Qfloor (u * inject_Z n) < n.
Proof.
  intros [Hu0 Hu1] Hn.
  assert (Hq : (0 < inject_Z n)%Q) by (unfold Qlt; simpl; lia).
  split.
  - change 0 with (Qfloor 0). apply Qfloor_resp_le. nra.
  - rewrite Zlt_Qlt. eapply Qle_lt_trans; [apply Qfloor_le |]. nra.
Qed.

(** [randint(a, b)] answers an integer between [a] and [b], ends included,
    and leaves the object alone. *)
Lemma post_randint T (a b : Z) (K : Z -> St -> Prop) s :
  (forall v r', a <= v <= b -> K v (r', snd s)) -> post T (randint a b) K s.
Proof.
  intros H. unfold randint. destruct (b <? a) eqn:E; [exact I |].
  apply Z.ltb_ge in E. step. apply post_random. intros u r' Hu. step.
  apply H. pose proof (scaled_floor_range u (b - a + 1) Hu). lia.
Qed.

Lemma post_uniform T (a b : Q) (K : Q -> St -> Prop) s :
  (forall u r', (0 <= u < 1)%Q -> K (a + (b - a) * u)%Q (r', snd s)) ->
  post T (uniform a b) K s.
Proof.
  intros H. unfold uniform. step. apply post_random. intros u r' Hu. step.
  now apply H.
Qed.

(** ** The seed *)

(** The seed has coordinates in [[0, imageWidth]] and [[0, imageHeight]],
    both ends included; it is appended to both lists and written in the
    grid. *)
Lemma post_seed T (K : Point -> St -> Prop) s :
  (forall p r' grid',
      0 <= x p <= imageWidth (snd s) -> 0 <= y p <= imageHeight (snd s) ->
      priority p = Fin 0 ->
      insert (self_grid (snd s)) p = inr grid' ->
      K p (r', with_lists (snd s) grid' (sampledList (snd s) ++ [Point_list p])
                          (processingList (snd s) ++ [p]))) ->
  post T seed K s.
Proof.
  intros H. unfold seed. step. step. step.
  apply post_randint. intros sx r1 Hx. step.
  apply post_randint. intros sy r2 Hy. step. step. step. step. step.
  cbn [fst snd]. apply H; auto.
Qed.

(** C9, at a failing input.  On a 10 x 10 image, when both calls of
    [randint] answer their upper end, the seed is (10, 10): it is put in the
    processing list, the sampled list and the grid, and lies outside the
    image, whose columns and rows are 0 to 9. *)
Theorem seed_at_imageWidth_imageHeight :
  exists p g',
    result (seed (tape_of [10 # 11; 10 # 11]%Q, small_gen)) = Some (p, g') /\
    p = newPoint 10 10 /\
    imageWidth small_gen = 10 /\ imageHeight small_gen = 10 /\
    processingList g' = [p] /\
    sampledList g' = [Point_list p] /\
    In (Some p) (grid (self_grid g')) /\
    (x p <? imageWidth small_gen) = false /\
    (y p <? imageHeight small_gen) = false.
Proof.
  eexists; eexists. split; [vm_compute; reflexivity |].
  repeat split; try reflexivity.
  vm_compute. do 24 right. left. reflexivity.
Qed.

(** ** Candidates around a point *)

Lemma unit_dir_on_circle (r2 : Q) :
  (fst (unit_dir r2) * fst (unit_dir r2) + snd (unit_dir r2) * snd (unit_dir r2) == 1)%Q.
Proof.
  unfold unit_dir.
  set (t := (4 * r2 - inject_Z (Qfloor (4 * r2)))%Q).
  assert (Hpos : ~ (1 + t * t == 0)%Q) by nra.
  repeat match goal with
         | |- context [match ?z with _ => _ end] => destruct z
         end; cbn [fst snd]; field; exact Hpos.
Qed.

(** [int] drops less than one unit, toward zero. *)
Lemma int_trunc_square (q : Q) :
  (inject_Z (int_trunc q ^ 2) <= q * q)%Q /\
  (q * q < inject_Z ((Z.abs (int_trunc q) + 1) ^ 2))%Q.
Proof.
  destruct q as [n d]. unfold int_trunc, Qle, Qlt, Qmult, inject_Z. cbn [Qnum Qden].
  pose proof (Pos2Z.is_pos d) as Hd.
  assert (Hk : Z.abs (n ÷ Z.pos d) = Z.abs n / Z.pos d).
  { rewrite <- Z.quot_abs by lia. rewrite Z.abs_eq with (n := Z.pos d) by lia.
    apply Z.quot_div_nonneg; lia. }
  pose proof (Z.mul_div_le (Z.abs n) (Z.pos d) Hd) as Hlo.
  pose proof (Z.mod_pos_bound (Z.abs n) (Z.pos d) Hd) as Hmod.
  pose proof (Z.div_mod (Z.abs n) (Z.pos d)) as Hdm.
  assert (Hhi : Z.abs n < (Z.abs n / Z.pos d + 1) * Z.pos d) by lia.
  assert (H0 : 0 <= Z.abs n / Z.pos d) by (apply Z.div_pos; lia).
  set (k := Z.abs n / Z.pos d) in *.
  assert (Hsq : (n ÷ Z.pos d) ^ 2 = k ^ 2) by (rewrite <- Hk; lia).
  assert (Hn : n * n = Z.abs n * Z.abs n) by lia.
  rewrite Hsq, Hk, Pos2Z.inj_mul. fold k. split; nia.
Qed.

Lemma radius_range (m r1 : Q) :
  (0 < m)%Q -> (0 <= r1 < 1)%Q ->
  (m * m <= (m * (1 + r1)) * (m * (1 + r1)))%Q /\
  ((m * (1 + r1)) * (m * (1 + r1)) < 4 * m * m)%Q.
Proof.
  intros Hm [H0 H1].
  assert (Hmm : (0 < m * m)%Q) by nra.
  set (t := ((1 + r1) * (1 + r1))%Q).
  assert (Ht : (1 <= t)%Q /\ (t < 4)%Q) by (unfold t; split; nra).
  assert (E : ((m * (1 + r1)) * (m * (1 + r1)) == m * m * t)%Q) by (unfold t; ring).
  rewrite E. destruct Ht. split; nra.
Qed.

(** What [generateRandomPointAround] returns: it always returns, the
    offset is shorter than [2 * minDist], and lengthening it by one unit on
    each axis makes it longer than [minDist]. *)
Lemma post_generateRandomPointAround T (parent : Point) (m : Q)
    (K : Point -> St -> Prop) s :
  (forall p r',
      priority p = Fin 0 ->
      ((0 < m)%Q ->
       (inject_Z (distance2 parent p) < 4 * m * m)%Q /\
       (m * m < inject_Z ((Z.abs (x p - x parent) + 1) ^ 2
                          + (Z.abs (y p - y parent) + 1) ^ 2))%Q) ->
      K p (r', snd s)) ->
  post T (generateRandomPointAround parent m) K s.
Proof.
  intros H. unfold generateRandomPointAround.
  step. apply post_random. intros r1 ra Hr1.
  step. apply post_random. intros r2 rb Hr2.
  step. apply H; [reflexivity |]. intros Hm.
  unfold distance2, newPoint; cbn [x y fst snd].
  pose proof (unit_dir_on_circle r2) as Hc.
  set (c := fst (unit_dir r2)) in *. set (sn := snd (unit_dir r2)) in *.
  set (u := (m * (1 + r1) * c)%Q). set (v := (m * (1 + r1) * sn)%Q).
  destruct (int_trunc_square u) as [Hu1 Hu2].
  destruct (int_trunc_square v) as [Hv1 Hv2].
  assert (Hsum : (u * u + v * v == (m * (1 + r1)) * (m * (1 + r1)))%Q).
  { unfold u, v.
    setoid_replace (m * (1 + r1) * c * (m * (1 + r1) * c)
                    + m * (1 + r1) * sn * (m * (1 + r1) * sn))%Q
      with ((m * (1 + r1)) * (m * (1 + r1)) * (c * c + sn * sn))%Q by ring.
    rewrite Hc. ring. }
  pose proof (radius_range m r1 Hm Hr1) as Hr.
  replace (x parent + int_trunc u - x parent) with (int_trunc u) by lia.
  replace (y parent + int_trunc v - y parent) with (int_trunc v) by lia.
  rewrite !inject_Z_plus. split; lra.
Qed.




(** ** calculateTriColors *)

Lemma lookup_group_add (t k : Z) (c : Color) (groups : list (Z * list Color)) :
  lookup t (group_add k c groups) =
  if t =? k
  then Some (match lookup t groups with Some cs => cs ++ [c] | None => [c] end)
  else lookup t groups.
Proof.
  induction groups as [| [k' cs] rest IH]; cbn [group_add lookup].
  - destruct (t =? k); reflexivity.
  - destruct (k =? k') eqn:Ekk'; cbn [lookup].
    + apply Z.eqb_eq in Ekk'. subst k'.
      destruct (t =? k); reflexivity.
    + destruct (t =? k') eqn:Etk'.
      * apply Z.eqb_eq in Etk'. subst k'.
        rewrite Z.eqb_sym in Ekk'. rewrite Ekk'. reflexivity.
      * exact IH.
Qed.

Lemma lookup_fold_group_add (t : Z) (rows : list (Z * Color)) (groups : list (Z * list Color)) :
  lookup t (fold_left (fun gs row => group_add (fst row) (snd row) gs) rows groups) =
  match lookup t groups, map snd (filter (fun row => fst row =? t) rows) with
  | None, [] => None
  | None, cs => Some cs
  | Some cs0, cs => Some (cs0 ++ cs)
  end.
Proof.
  revert groups. induction rows as [| [k c] rows IH]; intros groups; cbn [fold_left filter map fst snd].
  - destruct (lookup t groups); [rewrite app_nil_r |]; reflexivity.
  - rewrite IH, lookup_group_add. rewrite (Z.eqb_sym k t).
    destruct (t =? k); cbn [map snd].
    + destruct (lookup t groups) as [cs0 |].
      * rewrite <- app_assoc. reflexivity.
      * reflexivity.
    + reflexivity.
Qed.

(** The group of key [t] holds exactly the rows of key [t]. *)
Lemma lookup_groupby (t : Z) (rows : list (Z * Color)) :
  lookup t (groupby rows) =
  match map snd (filter (fun row => fst row =? t) rows) with
  | [] => None
  | cs => Some cs
  end.
Proof. unfold groupby. rewrite lookup_fold_group_add. reflexivity. Qed.

Lemma lookup_aggregate (f : list Q -> Q) (t : Z) (groups : list (Z * list Color)) :
  lookup t (aggregate f groups) =
  option_map (fun cs => (f (map red cs), f (map green cs), f (map blue cs)))
             (lookup t groups).
Proof.
  induction groups as [| [k cs] rest IH]; [reflexivity |].
  cbn [aggregate map lookup fst snd]. destruct (t =? k); [reflexivity | exact IH].
Qed.

Lemma py_range_0_length (n : Z) : length (py_range 0 n) = Z.to_nat n.
Proof. unfold py_range. rewrite length_map, length_seq. f_equal. lia. Qed.

Lemma nth_error_py_range_0 (n : Z) (t : nat) :
  (t < Z.to_nat n)%nat -> nth_error (py_range 0 n) t = Some (Z.of_nat t).
Proof.
  intros H. unfold py_range. rewrite Z.sub_0_r.
  rewrite nth_error_map, nth_error_seq.
  destruct (Nat.ltb_spec t (Z.to_nat n)); [reflexivity | lia].
Qed.

(** The colour that [calculateTriColors] gives to the simplex [t]. *)
Lemma calculateTriColors_nth (image : Image) (triangulation : Triangulation)
    (f : list Q -> Q) (t : nat) :
  (t < length (simplices triangulation))%nat ->
  nth_error (calculateTriColors image triangulation f) t =
  Some (match covered image triangulation (Z.of_nat t) with
        | [] => (0 / 256, 0 / 256, 0 / 256)%Q
        | cs => (f (map red cs) / 256, f (map green cs) / 256, f (map blue cs) / 256)%Q
        end).
Proof.
  intros Ht. unfold calculateTriColors, reindex, py_len.
  rewrite !nth_error_map, nth_error_py_range_0 by lia.
  cbn [option_map]. rewrite lookup_aggregate, lookup_groupby.
  fold (covered image triangulation (Z.of_nat t)).
  destruct (covered image triangulation (Z.of_nat t)); reflexivity.
Qed.

Lemma calculateTriColors_length (image : Image) (triangulation : Triangulation)
    (f : list Q -> Q) :
  length (calculateTriColors image triangulation f) = length (simplices triangulation).
Proof.
  unfold calculateTriColors, reindex, py_len.
  rewrite !length_map, py_range_0_length. lia.
Qed.



Lemma filter_all {A} (f : A -> bool) (l : list A) :
  (forall a, In a l -> f a = true) -> filter f l = l.
Proof.
  induction l as [| a l IH]; intros H; [reflexivity |].
  cbn [filter]. rewrite (H a (or_introl eq_refl)).
  f_equal. apply IH. intros b Hb. apply H. right. exact Hb.
Qed.

(** Under a point location that always answers 0, simplex 0 covers the
    whole image. *)
Lemma covered_whole_image (image : Image) (triangulation : Triangulation) :
  (forall xy, In xy (pixelCoords image) ->
     find_simplex triangulation (Z.of_nat (fst xy), Z.of_nat (snd xy)) = 0) ->
  covered image triangulation 0 = all_pixels image.
Proof.
  intros H. unfold covered, all_pixels, frame.
  rewrite filter_all.
  - rewrite map_map. reflexivity.
  - intros row Hrow. apply in_map_iff in Hrow as [xy [<- Hxy]].
    cbn [fst]. rewrite (H xy Hxy). reflexivity.
Qed.

Lemma single_simplex_aggregate (image : Image) (triangulation : Triangulation)
    (f : list Q -> Q) :
  length (simplices triangulation) = 1%nat ->
  all_pixels image <> [] ->
  (forall xy, In xy (pixelCoords image) ->
     find_simplex triangulation (Z.of_nat (fst xy), Z.of_nat (snd xy)) = 0) ->
  calculateTriColors image triangulation f =
  [ (f (map red (all_pixels image)) / 256,
     f (map green (all_pixels image)) / 256,
     f (map blue (all_pixels image)) / 256)%Q ].
Proof.
  intros Hone Hne Hall.
  pose proof (calculateTriColors_length image triangulation f) as Hlen.
  pose proof (calculateTriColors_nth image triangulation f 0) as H0.
  rewrite Hone in Hlen, H0. specialize (H0 (Nat.lt_0_1)).
  change (Z.of_nat 0) with 0 in H0.
  rewrite (covered_whole_image image triangulation Hall) in H0.
  destruct (calculateTriColors image triangulation f) as [| c [| c' rest]];
    try discriminate.
  cbn [nth_error] in H0. injection H0 as ->.
  destruct (all_pixels image); [contradiction | reflexivity].
Qed.

(** C8, counterexample.  For the strip of the three pixels (0, 64, 32),
    (30, 64, 32), (240, 64, 128) under one simplex, the mean colour is
    (90, 64, 64) and the median colour (30, 64, 32), while the function
    returns these over 256. *)
Lemma strip3_color_is_not_the_mean :
  exists c d,
    calculateTriColors strip3 one_simplex np_mean_col = [c] /\
    calculateTriColors strip3 one_simplex np_median_col = [d] /\
    (np_mean_col (map red (all_pixels strip3)) == 90)%Q /\
    (np_median_col (map red (all_pixels strip3)) == 30)%Q /\
    (red c == 90 / 256)%Q /\ (red d == 30 / 256)%Q /\
    ~ (red c == np_mean_col (map red (all_pixels strip3)))%Q /\
    ~ (red d == np_median_col (map red (all_pixels strip3)))%Q.
Proof.
  eexists; eexists.
  split; [vm_compute; reflexivity |].
  split; [vm_compute; reflexivity |].
  conjuncts; vm_compute; congruence.
Qed.

(** C8, as amended.  When the triangulation has one simplex and the point
    location puts every pixel of a non-empty image in it, the single colour
    returned is, channel by channel, the mean (with [np.mean]) or the median
    (with [np.median]) of all the pixel colours, divided by 256. *)
Theorem single_simplex_color_is_aggregate_over_256 (image : Image)
    (triangulation : Triangulation) :
  length (simplices triangulation) = 1%nat ->
  all_pixels image <> [] ->
  (forall xy, In xy (pixelCoords image) ->
     find_simplex triangulation (Z.of_nat (fst xy), Z.of_nat (snd xy)) = 0) ->
  calculateTriColors image triangulation np_mean_col =
    [ (np_mean_col (map red (all_pixels image)) / 256,
       np_mean_col (map green (all_pixels image)) / 256,
       np_mean_col (map blue (all_pixels image)) / 256)%Q ] /\
  calculateTriColors image triangulation np_median_col =
    [ (np_median_col (map red (all_pixels image)) / 256,
       np_median_col (map green (all_pixels image)) / 256,
       np_median_col (map blue (all_pixels image)) / 256)%Q ].
Proof.
  intros Hone Hne Hall. split; apply single_simplex_aggregate; assumption.
Qed.

Lemma single_simplex_color_witness :
  calculateTriColors strip3 one_simplex np_mean_col =
    [ (np_mean_col (map red (all_pixels strip3)) / 256,
       np_mean_col (map green (all_pixels strip3)) / 256,
       np_mean_col (map blue (all_pixels strip3)) / 256)%Q ] /\
  calculateTriColors strip3 one_simplex np_median_col =
    [ (np_median_col (map red (all_pixels strip3)) / 256,
       np_median_col (map green (all_pixels strip3)) / 256,
       np_median_col (map blue (all_pixels strip3)) / 256)%Q ].
Proof.
  apply (single_simplex_color_is_aggregate_over_256 strip3 one_simplex).
  - reflexivity.
  - vm_compute. discriminate.
  - intros xy _. reflexivity.
Defined.

(** ** Normalising the importance surface *)

Lemma np_sum_all_zero (rows : list (list Q)) : all_zero rows -> (np_sum rows == 0)%Q.
Proof.
  unfold all_zero, np_sum. induction 1 as [| row rows Hrow _ IH]; cbn [fold_right].
  - reflexivity.
  - induction Hrow as [| a row Ha _ IHrow]; cbn [fold_right].
    + exact IH.
    + rewrite Ha, IHrow. reflexivity.
Qed.

Lemma np_div_zero_zero (a d : Q) : (a == 0)%Q -> (d == 0)%Q -> np_div a d = NaN.
Proof.
  intros Ha Hd. unfold np_div.
  apply Qeq_bool_iff in Ha. apply Qeq_bool_iff in Hd. rewrite Ha, Hd. reflexivity.
Qed.

Lemma np_div_by_mean_all_zero (rows : list (list Q)) (a : Q) :
  all_zero rows -> (a == 0)%Q -> np_div_by a (np_mean rows) = NaN.
Proof.
  intros Hz Ha. unfold np_mean, np_div.
  destruct (Qeq_bool (inject_Z _) 0).
  - apply Qeq_bool_iff in Ha. apply np_sum_all_zero, Qeq_bool_iff in Hz.
    rewrite Hz. reflexivity.
  - cbn [np_div_by]. apply np_div_zero_zero; [exact Ha |].
    rewrite (np_sum_all_zero rows Hz). unfold Qdiv. ring.
Qed.

Lemma normalize_all_zero (rows : list (list Q)) :
  all_zero rows -> normalize rows = map (map (fun _ => NaN)) rows.
Proof.
  intros Hz. unfold normalize. cbv zeta. apply map_ext_in. intros row Hrow.
  apply map_ext_in. intros a Ha. apply np_div_by_mean_all_zero; [exact Hz |].
  unfold all_zero in Hz. rewrite Forall_forall in Hz.
  specialize (Hz row Hrow). rewrite Forall_forall in Hz. exact (Hz a Ha).
Qed.

Lemma py_getitem_In {A} (l : list A) (i : Z) (a : A) : py_getitem l i = inr a -> In a l.
Proof.
  unfold py_getitem. destruct (py_index (length l) i) as [k |]; [| discriminate].
  destruct (nth_error l k) as [b |] eqn:E; [| discriminate].
  intros [= <-]. eapply nth_error_In; eassumption.
Qed.

(** ** Steps of the samplers *)

Lemma params_with_lists g grid0 sampled processing :
  params (with_lists g grid0 sampled processing) = params g.
Proof. reflexivity. Qed.

Lemma post_accept T (p : Point) (K : unit -> St -> Prop) s :
  (forall grid',
      insert (self_grid (snd s)) p = inr grid' ->
      K tt (fst s, with_lists (snd s) grid' (sampledList (snd s) ++ [Point_list p])
                              (processingList (snd s) ++ [p]))) ->
  post T (accept p) K s.
Proof.
  intros H. unfold accept. step. step. step. step. step. now apply H.
Qed.

Lemma py_index_bound (n : nat) (i : Z) (k : nat) :
  py_index n i = Some k -> (k < n)%nat.
Proof.
  unfold py_index.
  destruct ((0 <=? i) && (i <? Z.of_nat n)) eqn:E1.
  - intros [= <-]. lia.
  - destruct ((- Z.of_nat n <=? i) && (i <? 0)) eqn:E2; [| discriminate].
    intros [= <-]. lia.
Qed.

Lemma length_remove_nth {A} (l : list A) (k : nat) :
  (k < length l)%nat -> (length (remove_nth l k) + 1 = length l)%nat.
Proof.
  revert k. induction l as [| a l IH]; intros k Hk; cbn [length] in *; [lia |].
  destruct k as [| k]; cbn [remove_nth length]; [lia |].
  specialize (IH k). lia.
Qed.

Lemma py_pop_spec {A} (l : list A) (i : Z) (a : A) (rest : list A) :
  py_pop l i = inr (a, rest) -> In a l /\ (length rest + 1 = length l)%nat.
Proof.
  unfold py_pop. destruct (py_index (length l) i) as [k |] eqn:Ek; [| discriminate].
  destruct (nth_error l k) as [b |] eqn:Eb; [| discriminate].
  intros [= <- <-]. split.
  - eapply nth_error_In; eassumption.
  - apply length_remove_nth. eapply py_index_bound; eassumption.
Qed.

(** The removal of a random point: one point of the processing list goes,
    nothing else changes. *)
Lemma post_pop_random T (K : Point -> St -> Prop) s :
  (forall rp r' rest,
      In rp (processingList (snd s)) ->
      (length rest + 1 = length (processingList (snd s)))%nat ->
      K rp (r', with_lists (snd s) (self_grid (snd s)) (sampledList (snd s)) rest)) ->
  post T pop_random K s.
Proof.
  intros H. unfold pop_random. step. step. step.
  apply post_randint. intros i r' _. step. step. step. step.
  cbn [snd] in *. destruct a as [rp rest]. apply py_pop_spec in H0 as [Hin Hlen].
  step. step. step. cbn [fst snd]. now apply H.
Qed.

Lemma grew_refl g : grew 0 g g.
Proof. unfold grew. repeat split; lia. Qed.

Lemma grew_accept g grid' p :
  grew 1 g (with_lists g grid' (sampledList g ++ [Point_list p]) (processingList g ++ [p])).
Proof.
  unfold grew. cbn [sampledList processingList with_lists].
  rewrite !length_app. cbn [length]. repeat split; lia.
Qed.

Lemma grew_trans a b g1 g2 g3 : grew a g1 g2 -> grew b g2 g3 -> grew (a + b) g1 g3.
Proof.
  unfold grew. intros (P1 & S1 & L1) (P2 & S2 & L2).
  repeat split; [congruence | lia | lia].
Qed.

(** The candidates of one removed point: at most [n] acceptances. *)
Lemma post_uniform_candidates T (n : nat) (rp : Point) s :
  post T (uniform_candidates n rp)
       (fun _ s' => exists a, (a <= n)%nat /\ grew a (snd s) (snd s')) s.
Proof.
  revert s. induction n as [| n IH]; intros s; cbn [uniform_candidates].
  - step. exists 0%nat. split; [lia | apply grew_refl].
  - step. step. step.
    apply post_generateRandomPointAround. intros p r' _ _.
    step. step. cbn [snd]. step.
    destruct (in_bounds (snd s) p && negb (checkInNeighborhood (self_grid (snd s)) p)).
    + apply post_accept. intros grid' _. cbn [fst snd].
      eapply post_mono; [| apply IH].
      cbn beta. intros _ s' [a [Ha Hg]]. cbn [snd] in Hg.
      exists (1 + a)%nat. split; [lia |].
      eapply grew_trans; [apply grew_accept | exact Hg].
    + step. eapply post_mono; [| apply IH].
      cbn beta. intros _ s' [a [Ha Hg]]. exists a. split; [lia | exact Hg].
Qed.

Lemma post_uniform_step T s :
  post T uniform_step
       (fun _ s' => exists a, (a <= Z.to_nat (newPointsToGenerate (snd s)))%nat /\
                               stepped a (snd s) (snd s')) s.
Proof.
  unfold uniform_step. step. step. step.
  apply post_pop_random. intros rp r' rest _ Hlen.
  eapply post_mono; [| apply post_uniform_candidates].
  cbn beta. intros _ s' [a [Ha (P & S & L)]].
  cbn [snd sampledList processingList with_lists] in *.
  exists a. split; [exact Ha |]. unfold stepped.
  repeat split; [rewrite P; reflexivity | lia | lia].
Qed.

(** One turn that accepts at most [k] points makes [loop_fuel k] smaller. *)
Lemma loop_fuel_decreases (k a : nat) (g g' : BlueNoiseGenerator) :
  keep_sampling g = true -> (a <= k)%nat -> stepped a g g' ->
  (loop_fuel k g' < loop_fuel k g)%nat.
Proof.
  unfold keep_sampling, stepped, loop_fuel, py_len, params.
  intros Hk Ha (P & S & L).
  apply andb_prop in Hk as [Hp Hs]. apply Z.ltb_lt in Hp, Hs.
  assert (HN : pointCount g' = pointCount g) by congruence.
  rewrite HN, S.
  set (d := Z.to_nat (pointCount g - Z.of_nat (length (sampledList g)))).
  set (d' := Z.to_nat (pointCount g - Z.of_nat (length (sampledList g) + a))).
  assert (Hd : (1 <= d)%nat) by (unfold d; lia).
  destruct a as [| a].
  - assert (d' = d) by (unfold d, d'; f_equal; lia). nia.
  - assert (d' <= d - 1)%nat by (unfold d, d'; lia). nia.
Qed.

(** The loop of [generate]: it ends when the fuel is at least [loop_fuel];
    when it ends its test is false; the sampled list never grows past a
    bound [b] that is at least [pointCount - 1 + newPointsToGenerate]. *)
Lemma post_uniform_loop T (fuel : nat) (b : Z) s :
  T \/ (loop_fuel (Z.to_nat (newPointsToGenerate (snd s))) (snd s) <= fuel)%nat ->
  py_len (sampledList (snd s)) <= b ->
  pointCount (snd s) - 1 + newPointsToGenerate (snd s) <= b ->
  post T (uniform_loop fuel)
       (fun _ s' =>
          params (snd s') = params (snd s) /\
          keep_sampling (snd s') = false /\
          py_len (sampledList (snd s')) <= b) s.
Proof.
  revert s. induction fuel as [| fuel IH]; intros s Hfuel Hbound Hb; cbn [uniform_loop].
  - step. step. destruct (keep_sampling (snd s)) eqn:Ek.
    + destruct Hfuel as [HT | Hf]; [exact HT |].
      exfalso. unfold keep_sampling in Ek. apply andb_prop in Ek as [Hp _].
      apply Z.ltb_lt in Hp. unfold loop_fuel, py_len in *. lia.
    + step. split; [reflexivity | split; [exact Ek | exact Hbound]].
  - step. step. destruct (keep_sampling (snd s)) eqn:Ek.
    + step. eapply post_mono; [| apply post_uniform_step].
      cbn beta. intros _ s1 [a [Ha Hstep]].
      pose proof (loop_fuel_decreases _ a _ _ Ek Ha Hstep) as Hdec.
      destruct Hstep as (P & S & L).
      assert (HN : pointCount (snd s1) = pointCount (snd s)) by (unfold params in P; congruence).
      assert (HK : newPointsToGenerate (snd s1) = newPointsToGenerate (snd s))
        by (unfold params in P; congruence).
      eapply post_mono; [| apply IH].
      * cbn beta. intros _ s2 (P2 & K2 & B2).
        split; [congruence | split; [exact K2 | exact B2]].
      * rewrite HK. destruct Hfuel as [HT | Hf]; [left; exact HT | right; lia].
      * unfold keep_sampling in Ek. apply andb_prop in Ek as [_ Hs].
        apply Z.ltb_lt in Hs. unfold py_len in *. lia.
      * rewrite HN, HK. exact Hb.
    + step. split; [reflexivity | split; [exact Ek | exact Hbound]].
Qed.

(** ** The priority queue *)

Lemma Qltb_false_iff (a b : Q) : Qltb a b = false <-> (b <= a)%Q.
Proof.
  unfold Qltb. rewrite negb_false_iff. apply Qle_bool_iff.
Qed.

Lemma Qltb_true_iff (a b : Q) : Qltb a b = true <-> (a < b)%Q.
Proof.
  unfold Qltb. rewrite negb_true_iff. split.
  - intros H. apply Qnot_le_lt. intros Hle. apply Qle_bool_iff in Hle. congruence.
  - intros H. destruct (Qle_bool b a) eqn:E; [| reflexivity].
    apply Qle_bool_iff in E. exfalso. eapply Qlt_not_le; eassumption.
Qed.

Lemma np_lt_asym (a b : npfloat) : np_lt a b = true -> np_lt b a = false.
Proof.
  destruct a, b; cbn; try reflexivity; try discriminate.
  rewrite Qltb_true_iff, Qltb_false_iff. apply Qlt_le_weak.
Qed.

(** On floats that are not NaN, "not below" is transitive. *)
Lemma np_le_trans (a b c : npfloat) :
  defined b = true -> np_lt b a = false -> np_lt c b = false -> np_lt c a = false.
Proof.
  destruct a, b, c; cbn; try reflexivity; try discriminate.
  rewrite !Qltb_false_iff. intros _ H1 H2. eapply Qle_trans; eassumption.
Qed.

Lemma defined_np_neg (a : npfloat) : defined (np_neg a) = defined a.
Proof. destruct a; reflexivity. Qed.

Lemma pq_put_perm (p : Point) (q : list Point) : Permutation (pq_put p q) (p :: q).
Proof.
  induction q as [| h t IH]; cbn [pq_put]; [reflexivity |].
  destruct (Point_lt p h); [reflexivity |].
  rewrite IH. apply perm_swap.
Qed.

(** [put] keeps the queue in ascending order of priority. *)
Lemma pq_put_ok (p : Point) (q : list Point) :
  defined (priority p) = true -> queue_ok q -> queue_ok (pq_put p q).
Proof.
  intros Hp [Hdef Hsort]. split.
  - eapply Permutation_Forall; [symmetry; apply pq_put_perm |].
    constructor; assumption.
  - induction Hsort as [| h t Hsort IH Hh]; cbn [pq_put].
    + repeat constructor.
    + inversion Hdef as [| ? ? Hdh Hdt]; subst.
      destruct (Point_lt p h) eqn:E.
      * constructor; [constructor; assumption |].
        assert (Hph : prio_le p h) by (apply np_lt_asym; exact E).
        constructor; [exact Hph |].
        rewrite Forall_forall in Hh |- *. intros c Hc.
        unfold prio_le, Point_lt in *.
        eapply np_le_trans; [exact Hdh | exact Hph | apply Hh; exact Hc].
      * constructor; [apply IH; exact Hdt |].
        eapply Permutation_Forall; [symmetry; apply pq_put_perm |].
        constructor; [exact E | exact Hh].
Qed.

Lemma queue_ok_suffix (l1 l2 : list Point) : queue_ok (l1 ++ l2) -> queue_ok l2.
Proof.
  induction l1 as [| a l1 IH]; cbn [app]; [trivial |].
  intros [Hdef Hsort]. apply IH.
  inversion Hdef; subst. inversion Hsort; subst. split; assumption.
Qed.

Lemma queue_ok_nil : queue_ok [].
Proof. split; constructor. Qed.

(** In a queue in order, whatever is popped first is below whatever is
    still queued. *)
Lemma queue_ok_head_least (popped : list Point) (p : Point) (rest : list Point) :
  queue_ok (popped ++ p :: rest) ->
  Forall (fun c => prio_le c p) popped /\ Forall (prio_le p) rest.
Proof.
  intros [_ Hsort]. induction popped as [| a popped IH]; cbn [app] in *.
  - inversion Hsort; subst. split; [constructor | assumption].
  - inversion Hsort as [| ? ? Hs Ha]; subst.
    destruct (IH Hs) as [H1 H2]. split; [| exact H2].
    constructor; [| exact H1].
    rewrite Forall_forall in Ha. apply Ha. apply in_elt.
Qed.

Lemma weight_at_defined (g : BlueNoiseGenerator) (p : Point) (w : npfloat) :
  weights_defined g -> weight_at g p = inr w -> defined w = true.
Proof.
  unfold weights_defined, weight_at. destruct (imageWeight g) as [rows |]; [| contradiction].
  intros Hall. destruct (py_getitem rows (y p)) as [e | row] eqn:Erow; [discriminate |].
  intros Hw. apply py_getitem_In in Erow, Hw.
  rewrite forallb_forall in Hall. specialize (Hall row Erow).
  rewrite forallb_forall in Hall. exact (Hall w Hw).
Qed.

(** ** One turn of the weighted sampler *)

(** The candidates of one removed point: the object is left alone; when
    the surface holds no NaN, the admitted candidates join the queue with
    the negated importance as priority and the queue stays in order. *)
Lemma post_weighted_candidates T (n : nat) (rp : Point) (q0 : list Point) s :
  post T (weighted_candidates n rp q0)
       (fun q1 s' =>
          snd s' = snd s /\
          (weights_defined (snd s) -> queue_ok q0 ->
           exists batch,
             (length batch <= n)%nat /\
             Forall (fun c => in_bounds (snd s) c = true /\ stored_priority (snd s) c) batch /\
             Permutation q1 (batch ++ q0) /\
             queue_ok q1)) s.
Proof.
  revert q0 s. induction n as [| n IH]; intros q0 s; cbn [weighted_candidates].
  - step. split; [reflexivity |]. intros _ Hq. exists []. cbn [length app].
    repeat split; [lia | constructor | reflexivity | apply Hq | apply Hq].
  - step. step. step.
    apply post_generateRandomPointAround. intros p r' _ _.
    step. step. cbn [snd]. step.
    destruct (in_bounds (snd s) p) eqn:Eb.
    + step. step. rename a into w, H into Hw. step.
      eapply post_mono; [| apply IH].
      cbn beta. intros q1 s' [Hs Hq]. cbn [snd] in Hs, Hq.
      split; [exact Hs |]. intros Hdef Hq0.
      set (c := mkPoint (x p) (y p) (np_neg w)) in *.
      assert (Hc : defined (priority c) = true).
      { cbn [priority c]. rewrite defined_np_neg.
        eapply weight_at_defined; eassumption. }
      destruct (Hq Hdef (pq_put_ok c q0 Hc Hq0)) as (batch & Hlen & Hall & Hperm & Hok).
      exists (batch ++ [c]). rewrite length_app. cbn [length].
      split; [lia |]. split; [| split; [| exact Hok]].
      * apply Forall_app. split; [exact Hall |].
        constructor; [| constructor].
        split; [exact Eb |]. exists w. split; [exact Hw | reflexivity].
      * rewrite Hperm, <- app_assoc. cbn [app].
        apply Permutation_app_head. apply pq_put_perm.
    + step. eapply post_mono; [| apply IH].
      cbn beta. intros q1 s' [Hs Hq]. cbn [snd] in Hs, Hq.
      split; [exact Hs |]. intros Hdef Hq0.
      destruct (Hq Hdef Hq0) as (batch & Hlen & Hall & Hperm & Hok).
      exists batch. repeat split; try assumption; try apply Hok. lia.
Qed.

(** The inner [while]: it always ends, and pops from the head up to the
    first entry that is free, which it accepts. *)
Lemma post_drain T (q : list Point) s :
  post T (drain q)
       (fun q' s' => params (snd s') = params (snd s) /\
                     drained q (snd s) q' (snd s')) s.
Proof.
  induction q as [| h t IH]; cbn [drain].
  - step. split; [reflexivity |]. right. repeat split. constructor.
  - step. step. destruct (checkInNeighborhood (self_grid (snd s)) h) eqn:E; cbn [negb].
    + eapply post_mono; [| exact IH].
      cbn beta. intros q' s' [P D]. split; [exact P |].
      destruct D as [(rej & p & Hq & Hrej & Hp & Hrest) | (Hall & Hq & Hg)].
      * left. exists (h :: rej), p. rewrite Hq.
        split; [reflexivity |]. split; [constructor; assumption |].
        split; [exact Hp | exact Hrest].
      * right. split; [constructor; assumption |]. split; assumption.
    + step. apply post_accept. intros grid' Hins. step.
      cbn [snd]. split; [reflexivity |].
      left. exists [], h. cbn [app processingList sampledList self_grid with_lists].
      repeat split; try assumption. constructor.
Qed.

Lemma drained_stepped (q1 : list Point) (g1 : BlueNoiseGenerator)
    (q' : list Point) (g' : BlueNoiseGenerator) :
  drained q1 g1 q' g' ->
  exists a, (a <= 1)%nat /\
    length (sampledList g') = (length (sampledList g1) + a)%nat /\
    length (processingList g') = (length (processingList g1) + a)%nat.
Proof.
  intros [(rej & p & _ & _ & _ & Hp & Hs & _) | (_ & _ & ->)].
  - exists 1%nat. rewrite Hp, Hs, !length_app. cbn [length]. repeat split; lia.
  - exists 0%nat. repeat split; lia.
Qed.

(** One turn of the outer loop of [generateWeighted]. *)
Lemma post_weighted_step T (q0 : list Point) s :
  post T (weighted_step q0)
       (fun q' s' =>
          (exists a, (a <= 1)%nat /\ stepped a (snd s) (snd s')) /\
          (weights_defined (snd s) -> queue_ok q0 ->
           weighted_turn q0 (snd s) q' (snd s'))) s.
Proof.
  unfold weighted_step. step. step. step.
  apply post_pop_random. intros rp r' rest _ Hlen. step.
  eapply post_mono; [| apply post_weighted_candidates].
  cbn beta. intros q1 s1 [Hs1 Hq1]. cbn [snd] in Hs1, Hq1.
  eapply post_mono; [| apply post_drain].
  cbn beta. intros q' s' [P D]. rewrite Hs1 in P, D.
  set (g := snd s) in *.
  set (g1 := with_lists g (self_grid g) (sampledList g) rest) in *.
  destruct (drained_stepped _ _ _ _ D) as (a & Ha & Hsa & Hpa).
  cbn [sampledList processingList with_lists g1] in Hsa, Hpa.
  split.
  - exists a. split; [exact Ha |]. unfold stepped.
    split; [exact P |]. split; [exact Hsa | lia].
  - intros Hdef Hq0.
    destruct (Hq1 Hdef Hq0) as (batch & Hb & Hall & Hperm & Hok).
    exists batch, q1, g1.
    repeat split; try assumption; try apply Hok; try reflexivity.
    + destruct D as [(rej & p & Hq & _) | (_ & -> & _)].
      * rewrite Hq in Hok.
        change (rej ++ p :: q') with (rej ++ [p] ++ q') in Hok.
        rewrite app_assoc in Hok. apply queue_ok_suffix in Hok. apply Hok.
      * constructor.
    + destruct D as [(rej & p & Hq & _) | (_ & -> & _)].
      * rewrite Hq in Hok.
        change (rej ++ p :: q') with (rej ++ [p] ++ q') in Hok.
        rewrite app_assoc in Hok. apply queue_ok_suffix in Hok. apply Hok.
      * constructor.
    + lia.
Qed.



(** ** The surface that is zero everywhere *)

Lemma weight_at_nan_surface (g : BlueNoiseGenerator) (rows : list (list Q))
    (p : Point) (w : npfloat) :
  imageWeight g = Some (map (map (fun _ => NaN)) rows) ->
  weight_at g p = inr w -> w = NaN.
Proof.
  intros Hs. unfold weight_at. rewrite Hs.
  destruct (py_getitem _ (y p)) as [e | row] eqn:Erow; [discriminate |].
  intros Hw. apply py_getitem_In in Erow, Hw.
  apply in_map_iff in Erow as [row0 [<- _]].
  apply in_map_iff in Hw as [a [<- _]]. reflexivity.
Qed.

(** On a surface of NaN every candidate is queued with priority NaN. *)
Lemma post_weighted_candidates_nan T (n : nat) (rp : Point) (q0 : list Point)
    (rows : list (list Q)) s :
  imageWeight (snd s) = Some (map (map (fun _ => NaN)) rows) ->
  Forall (fun c => priority c = NaN) q0 ->
  post T (weighted_candidates n rp q0)
       (fun q1 s' => snd s' = snd s /\ Forall (fun c => priority c = NaN) q1) s.
Proof.
  revert q0 s. induction n as [| n IH]; intros q0 s Hs Hq; cbn [weighted_candidates].
  - step. split; [reflexivity | exact Hq].
  - step. step. step.
    apply post_generateRandomPointAround. intros p r' _ _.
    step. step. cbn [snd]. step.
    destruct (in_bounds (snd s) p) eqn:Eb.
    + step. step. rename a into w, H into Hw. step.
      apply (weight_at_nan_surface _ rows) in Hw; [| exact Hs]. subst w.
      eapply post_mono; [| apply IH].
      * cbn beta. cbn [snd]. intros q1 s' Hpost. exact Hpost.
      * cbn [snd]. exact Hs.
      * eapply Permutation_Forall; [symmetry; apply pq_put_perm |].
        constructor; [reflexivity | exact Hq].
    + step. eapply post_mono; [| apply IH; [exact Hs | exact Hq]].
      cbn beta. cbn [snd]. intros q1 s' Hpost. exact Hpost.
Qed.

(** What the inner loop leaves queued is the tail of the queue it got. *)
Lemma drained_tail (q1 : list Point) (g1 : BlueNoiseGenerator)
    (q' : list Point) (g' : BlueNoiseGenerator) :
  drained q1 g1 q' g' -> exists popped, q1 = popped ++ q'.
Proof.
  intros [(rej & p & Hq & _) | (_ & -> & _)].
  - exists (rej ++ [p]). rewrite <- app_assoc. exact Hq.
  - exists q1. rewrite app_nil_r. reflexivity.
Qed.

(** One turn on a surface of NaN: the surface stays, every queued entry
    has priority NaN, and at most one point is accepted. *)
Lemma post_weighted_step_nan T (q0 : list Point) (rows : list (list Q)) s :
  imageWeight (snd s) = Some (map (map (fun _ => NaN)) rows) ->
  Forall (fun c => priority c = NaN) q0 ->
  post T (weighted_step q0)
       (fun q' s' =>
          imageWeight (snd s') = imageWeight (snd s) /\
          Forall (fun c => priority c = NaN) q' /\
          (length (sampledList (snd s')) <= length (sampledList (snd s)) + 1)%nat) s.
Proof.
  intros Hs Hq. unfold weighted_step. step. step. step.
  apply post_pop_random. intros rp r' rest _ Hlen. step.
  eapply post_mono; [| apply (post_weighted_candidates_nan T _ rp q0 rows); [exact Hs | exact Hq]].
  cbn beta. intros q1 s1 [Hs1 Hq1]. cbn [snd] in Hs1.
  eapply post_mono; [| apply post_drain].
  cbn beta. intros q' s' [P D]. rewrite Hs1 in P, D.
  destruct (drained_stepped _ _ _ _ D) as (a & Ha & Hsa & _).
  destruct (drained_tail _ _ _ _ D) as [popped Hpop].
  cbn [sampledList with_lists] in Hsa.
  split; [| split].
  - unfold params in P. cbn [imageWeight with_lists] in P. congruence.
  - rewrite Hpop in Hq1. apply Forall_app in Hq1. apply Hq1.
  - lia.
Qed.




(** The loop of [generateWeighted]: it ends when the fuel is at least
    [loop_fuel 1]; when it ends its test is false; the sampled list never
    grows past a bound [b] that is at least [pointCount]. *)
Lemma post_weighted_loop T (fuel : nat) (b : Z) (q : list Point) s :
  T \/ (loop_fuel 1 (snd s) <= fuel)%nat ->
  py_len (sampledList (snd s)) <= b ->
  pointCount (snd s) <= b ->
  post T (weighted_loop fuel q)
       (fun _ s' =>
          params (snd s') = params (snd s) /\
          keep_sampling (snd s') = false /\
          py_len (sampledList (snd s')) <= b) s.
Proof.
  revert q s. induction fuel as [| fuel IH]; intros q s Hfuel Hbound Hb; cbn [weighted_loop].
  - step. step. destruct (keep_sampling (snd s)) eqn:Ek.
    + destruct Hfuel as [HT | Hf]; [exact HT |].
      exfalso. unfold keep_sampling in Ek. apply andb_prop in Ek as [Hp _].
      apply Z.ltb_lt in Hp. unfold loop_fuel, py_len in *. lia.
    + step. split; [reflexivity | split; [exact Ek | exact Hbound]].
  - step. step. destruct (keep_sampling (snd s)) eqn:Ek.
    + step. eapply post_mono; [| apply post_weighted_step].
      cbn beta. intros q1 s1 [[a [Ha Hstep]] _].
      pose proof (loop_fuel_decreases _ a _ _ Ek Ha Hstep) as Hdec.
      destruct Hstep as (P & S & L).
      assert (HN : pointCount (snd s1) = pointCount (snd s)) by (unfold params in P; congruence).
      eapply post_mono; [| apply IH].
      * cbn beta. intros _ s2 (P2 & K2 & B2).
        split; [congruence | split; [exact K2 | exact B2]].
      * destruct Hfuel as [HT | Hf]; [left; exact HT | right; lia].
      * unfold keep_sampling in Ek. apply andb_prop in Ek as [_ Hs].
        apply Z.ltb_lt in Hs. unfold py_len in *. lia.
      * rewrite HN. exact Hb.
    + step. split; [reflexivity | split; [exact Ek | exact Hbound]].
Qed.

(** ** generateBoundary *)

Lemma post_append_sampled T (pts : list (Q * Q)) (K : unit -> St -> Prop) s :
  K tt (fst s, with_lists (snd s) (self_grid (snd s)) (sampledList (snd s) ++ pts)
                          (processingList (snd s))) ->
  post T (append_sampled pts) K s.
Proof. intros H. unfold append_sampled. step. step. step. exact H. Qed.

Lemma inject_Z_pred (a : Z) : (inject_Z (a - 1) == inject_Z a - 1)%Q.
Proof.
  replace (a - 1) with (a + -1) by lia. rewrite inject_Z_plus. reflexivity.
Qed.

(** A delta drawn between [lo] and [2 * lo] is at least [lo]. *)
Lemma uniform_delta_ge (lo hi u : Q) :
  (0 <= u)%Q -> (lo <= hi)%Q -> (lo <= lo + (hi - lo) * u)%Q.
Proof. intros Hu Hlo. nra. Qed.

Lemma boundary_fuel_decreases (g : BlueNoiseGenerator) (u d : Q) :
  (0 < self_minDist g)%Q -> (u < inject_Z (imageWidth g))%Q -> (self_minDist g <= d)%Q ->
  (boundary_fuel g (u + d) < boundary_fuel g u)%nat.
Proof.
  unfold boundary_fuel. set (m := self_minDist g). set (W := inject_Z (imageWidth g)).
  intros Hm Hu Hd.
  set (X := ((W - u) / m)%Q). set (Y := ((W - (u + d)) / m)%Q).
  assert (HX : (0 < X)%Q) by (unfold X; apply Qlt_shift_div_l; [exact Hm | lra]).
  assert (HY : (Y <= X - 1)%Q).
  { unfold Y. apply Qle_shift_div_r; [exact Hm |].
    assert (E : ((X - 1) * m == W - u - m)%Q) by (unfold X; field; lra).
    rewrite E. lra. }
  assert (H1 : 1 <= Qceiling X).
  { pose proof (Qle_ceiling X) as H.
    assert (H0 : (0 < inject_Z (Qceiling X))%Q) by lra.
    change 0%Q with (inject_Z 0) in H0. rewrite <- Zlt_Qlt in H0. lia. }
  assert (H2 : Qceiling Y <= Qceiling X - 1).
  { rewrite <- (Qceiling_Z (Qceiling X - 1)). apply Qceiling_resp_le.
    pose proof (Qle_ceiling X) as H.
    rewrite inject_Z_pred. lra. }
  lia.
Qed.

(** The loop of the perimeter walk.  It only appends to the sampled list;
    for [minDist > 0] and an aspect ratio of at least 1 it ends within
    [boundary_fuel] turns, and the points it appends lie on the edges. *)
Lemma post_boundary_loop T (fuel : nat) (aspect : Q) (c : Cursors) s :
  T \/ ((boundary_fuel (snd s) (upperWidth c) <= fuel)%nat /\
        (0 < self_minDist (snd s))%Q /\ (1 <= aspect)%Q) ->
  post T (boundary_loop fuel (2 * self_minDist (snd s)) aspect c)
       (fun _ s' =>
          params (snd s') = params (snd s) /\
          processingList (snd s') = processingList (snd s) /\
          self_grid (snd s') = self_grid (snd s) /\
          exists pts,
            sampledList (snd s') = sampledList (snd s) ++ pts /\
            ((0 < self_minDist (snd s))%Q -> (1 <= aspect)%Q -> cursors_nonneg c ->
             Forall (on_edge (snd s)) pts)) s.
Proof.
  revert c s. induction fuel as [| fuel IH]; intros c s Hfuel; cbn [boundary_loop].
  - step. step. destruct (boundary_test (snd s) c) eqn:Et.
    + destruct Hfuel as [HT | (Hf & Hm & Ha)]; [exact HT |].
      exfalso. unfold boundary_test in Et.
      apply andb_prop in Et as [Et _]. apply andb_prop in Et as [Et _].
      apply andb_prop in Et as [_ Et]. apply Qltb_true_iff in Et.
      pose proof (boundary_fuel_decreases (snd s) (upperWidth c) (self_minDist (snd s))
                    Hm Et (Qle_refl _)). lia.
    + step. repeat split. exists []. rewrite app_nil_r. split; [reflexivity | constructor].
  - step. step. destruct (boundary_test (snd s) c) eqn:Et.
    + unfold boundary_test in Et.
      apply andb_prop in Et as [Et Hr]. apply andb_prop in Et as [Et Hl].
      apply andb_prop in Et as [Hlo Hup].
      apply Qltb_true_iff in Hr, Hl, Hlo, Hup.
      step. apply post_append_sampled. set (g := snd s) in *.
      cbn [fst snd imageWidth imageHeight self_minDist with_lists].
      step. apply post_uniform. intros u1 r1 Hu1.
      step. apply post_uniform. intros u2 r2 Hu2.
      step. apply post_uniform. intros u3 r3 Hu3.
      step. apply post_uniform. intros u4 r4 Hu4.
      cbn [snd].
      set (lo := fun b : bool => if b then (self_minDist g * aspect)%Q else self_minDist g).
      set (hi := fun b : bool => if b then (2 * self_minDist g * aspect)%Q
                                 else (2 * self_minDist g)%Q).
      assert (Hdelta : forall (b : bool) (u : Q), (0 < self_minDist g)%Q -> (1 <= aspect)%Q ->
                 (0 <= u)%Q -> (self_minDist g <= lo b + (hi b - lo b) * u)%Q).
      { intros b u Hm Ha Hu. eapply Qle_trans; [| apply uniform_delta_ge; [exact Hu |]].
        - destruct b; unfold lo; [nra | lra].
        - destruct b; unfold lo, hi; [nra | lra]. }
      match goal with
      | |- post _ (boundary_loop _ _ _ ?c') _ ?s2 => pose proof (IH c' s2) as IH2
      end.
      cbn [snd self_minDist with_lists] in IH2.
      eapply post_mono; [| apply IH2].
      * cbn beta. cbn [snd upperWidth params processingList self_grid sampledList with_lists
                       pointCount newPointsToGenerate imageHeight imageWidth rawWeight
                       self_minDist imageWeight edgeThreshold].
        intros _ s' (P & Hp & Hg & pts & Hs & Hedge).
        split; [exact P |]. split; [exact Hp |]. split; [exact Hg |].
        eexists. rewrite Hs, <- app_assoc. split; [reflexivity |].
        intros Hm Ha (C1 & C2 & C3 & C4).
        apply Forall_app. split.
        -- unfold on_edge. cbn [fst snd].
           repeat apply Forall_cons; try apply Forall_nil.
           ++ left. split; [left; reflexivity | split; assumption].
           ++ left. split; [right; apply inject_Z_pred | split; assumption].
           ++ right. split; [left; reflexivity | split; assumption].
           ++ right. split; [right; apply inject_Z_pred | split; assumption].
        -- cbn [imageWidth imageHeight with_lists] in Hedge.
           assert (Hall : Forall (on_edge (with_lists g (self_grid g)
                     (sampledList g ++ [(upperWidth c, 0%Q);
                        (lowerWidth c, inject_Z (imageHeight g - 1));
                        (0%Q, leftHeight c);
                        (inject_Z (imageWidth g - 1), rightHeight c)])
                     (processingList g))) pts).
           { apply Hedge; [exact Hm | exact Ha |].
             unfold cursors_nonneg. cbn [upperWidth lowerWidth leftHeight rightHeight].
             pose proof (Hdelta (imageHeight g <? imageWidth g) u1 Hm Ha (proj1 Hu1)).
             pose proof (Hdelta (imageHeight g <? imageWidth g) u2 Hm Ha (proj1 Hu2)).
             pose proof (Hdelta (imageWidth g <? imageHeight g) u3 Hm Ha (proj1 Hu3)).
             pose proof (Hdelta (imageWidth g <? imageHeight g) u4 Hm Ha (proj1 Hu4)).
             unfold lo, hi in *. repeat split; lra. }
           exact Hall.
      * cbn [snd upperWidth]. destruct Hfuel as [HT | (Hf & Hm & Ha)]; [left; exact HT | right].
        split; [| split; assumption].
        pose proof (Hdelta (imageHeight g <? imageWidth g) u1 Hm Ha (proj1 Hu1)) as Hd.
        pose proof (boundary_fuel_decreases g (upperWidth c) _ Hm Hup Hd) as Hdec.
        unfold lo, hi in Hdec. unfold boundary_fuel in *.
        cbn [imageWidth self_minDist with_lists]. lia.
    + step. repeat split. exists []. rewrite app_nil_r. split; [reflexivity | constructor].
Qed.

Lemma aspect_ge_1 (a b : Z) : 1 <= b -> b <= a -> (1 <= inject_Z a / inject_Z b)%Q.
Proof.
  intros Hb Hab. apply Qle_shift_div_l.
  - change 0%Q with (inject_Z 0). rewrite <- Zlt_Qlt. lia.
  - rewrite Qmult_1_l. rewrite <- Zle_Qle. exact Hab.
Qed.

(** [generateBoundary] only appends to the sampled list.  On an image of
    at least one pixel with [minDist > 0] it ends within [boundary_fuel]
    turns and every point it appends lies on an edge of the image. *)
Lemma post_generateBoundary T (fuel : nat) s :
  T \/ ((boundary_fuel (snd s) 0 <= fuel)%nat /\ (0 < self_minDist (snd s))%Q /\
        1 <= imageWidth (snd s) /\ 1 <= imageHeight (snd s)) ->
  post T (generateBoundary fuel)
       (fun _ s' =>
          params (snd s') = params (snd s) /\
          processingList (snd s') = processingList (snd s) /\
          self_grid (snd s') = self_grid (snd s) /\
          exists pts,
            sampledList (snd s') = sampledList (snd s) ++ pts /\
            ((0 < self_minDist (snd s))%Q -> 1 <= imageWidth (snd s) ->
             1 <= imageHeight (snd s) -> Forall (on_edge (snd s)) pts)) s.
Proof.
  intros Hfuel. unfold generateBoundary. step. step. step.
  set (g := snd s) in *.
  assert (Hasp : forall aspect,
    (1 <= imageWidth g -> 1 <= imageHeight g -> (1 <= aspect)%Q) ->
    post T
      (boundary_loop fuel (2 * self_minDist g) aspect (mkCursors 0 0 0 0);;;
       g1 <- get_self;;
       append_sampled
         [(inject_Z (imageWidth g1 - 1), 0%Q);
          (inject_Z (imageWidth g1 - 1), inject_Z (imageHeight g1 - 1))])
      (fun _ s' =>
         params (snd s') = params g /\
         processingList (snd s') = processingList g /\
         self_grid (snd s') = self_grid g /\
         exists pts,
           sampledList (snd s') = sampledList g ++ pts /\
           ((0 < self_minDist g)%Q -> 1 <= imageWidth g -> 1 <= imageHeight g ->
            Forall (on_edge g) pts)) s).
  { intros aspect Ha. step.
    eapply post_mono; [| apply (post_boundary_loop T fuel aspect (mkCursors 0 0 0 0) s)].
    - cbn beta. fold g. intros _ s1 (P & Hp & Hg & pts & Hs & Hedge).
      step. step. apply post_append_sampled.
      cbn [snd fst params processingList self_grid sampledList with_lists
           pointCount newPointsToGenerate imageHeight imageWidth rawWeight
           self_minDist imageWeight edgeThreshold].
      assert (HW : imageWidth (snd s1) = imageWidth g) by (unfold params in P; congruence).
      assert (HH : imageHeight (snd s1) = imageHeight g) by (unfold params in P; congruence).
      split; [exact P |]. split; [exact Hp |]. split; [exact Hg |].
      eexists. rewrite Hs, <- app_assoc. split; [reflexivity |].
      intros Hm Hw Hh. apply Forall_app. split.
      + apply Hedge; [exact Hm | apply Ha; assumption |].
        unfold cursors_nonneg. cbn. repeat split; apply Qle_refl.
      + rewrite HW, HH.
        assert (H0 : (0 <= inject_Z (imageWidth g - 1))%Q)
          by (change 0%Q with (inject_Z 0); rewrite <- Zle_Qle; lia).
        assert (H1 : (inject_Z (imageWidth g - 1) < inject_Z (imageWidth g))%Q)
          by (rewrite <- Zlt_Qlt; lia).
        repeat apply Forall_cons; try apply Forall_nil; unfold on_edge; cbn [fst snd]; left.
        * split; [left; reflexivity | split; assumption].
        * split; [right; apply inject_Z_pred | split; assumption].
    - fold g. cbn [upperWidth].
      destruct Hfuel as [HT | (Hf & Hm & Hw & Hh)]; [left; exact HT | right].
      split; [exact Hf |]. split; [exact Hm | apply Ha; assumption]. }
  destruct (imageHeight g <? imageWidth g) eqn:Ewide.
  - apply Z.ltb_lt in Ewide. destruct (imageHeight g =? 0) eqn:E0.
    + step.
    + step. apply Hasp. intros Hw Hh. apply aspect_ge_1; lia.
  - apply Z.ltb_ge in Ewide. destruct (imageWidth g =? 0) eqn:E0.
    + step.
    + step. apply Hasp. intros Hw Hh. apply aspect_ge_1; lia.
Qed.

(** ** Whole runs *)

Lemma run_fuel_covers_loop (k : nat) (g : BlueNoiseGenerator) (grid' : Grid) (p : Point) :
  (k <= Z.to_nat (newPointsToGenerate g) + 1)%nat ->
  (loop_fuel k (with_lists g grid' (sampledList g ++ [Point_list p])
                           (processingList g ++ [p])) <= run_fuel g)%nat.
Proof.
  intros Hk. unfold loop_fuel, run_fuel, py_len.
  cbn [processingList sampledList pointCount with_lists].
  rewrite !length_app. cbn [length].
  replace (pointCount g - Z.of_nat (length (sampledList g) + 1))
    with (pointCount g - Z.of_nat (length (sampledList g)) - 1) by lia.
  nia.
Qed.

(** The sampling part of [generate]. *)
Lemma post_generate_sampling T (fuel : nat) s :
  T \/ (run_fuel (snd s) <= fuel)%nat ->
  post T (generate_sampling fuel)
       (fun _ s' =>
          params (snd s') = params (snd s) /\
          keep_sampling (snd s') = false /\
          py_len (sampledList (snd s'))
            <= Z.max (py_len (sampledList (snd s)) + 1)
                     (pointCount (snd s) - 1 + newPointsToGenerate (snd s))) s.
Proof.
  intros Hfuel. unfold generate_sampling. step.
  apply post_seed. intros p r' grid' _ _ _ _.
  set (g := snd s) in *.
  eapply post_mono; [| apply post_uniform_loop with
    (b := Z.max (py_len (sampledList g) + 1) (pointCount g - 1 + newPointsToGenerate g))].
  - cbn beta. cbn [snd]. intros _ s' (P & K & B).
    split; [exact P | split; [exact K | exact B]].
  - cbn [snd newPointsToGenerate with_lists].
    destruct Hfuel as [HT | Hf]; [left; exact HT | right].
    pose proof (run_fuel_covers_loop (Z.to_nat (newPointsToGenerate g)) g grid' p). lia.
  - cbn [snd sampledList with_lists]. unfold py_len. rewrite length_app. cbn [length]. lia.
  - cbn [snd pointCount newPointsToGenerate with_lists]. lia.
Qed.

(** The preprocessing writes the surface and nothing else, and always
    ends. *)
Lemma post_preprocess T (K : unit -> St -> Prop) s :
  K tt s ->
  (forall w, K tt (fst s, set_imageWeight (snd s) w)) ->
  post T preprocess K s.
Proof.
  intros H1 H2. unfold preprocess. step. step. step.
  destruct (imageWeight (snd s)) as [w |].
  - step. step. step. destruct a; cbn [negb]; step; [exact H1 | apply H2].
  - step. step. apply H2.
Qed.

(** The sampling part of [generateWeighted]. *)
Lemma post_generateWeighted_sampling T (fuel : nat) s :
  T \/ (run_fuel (snd s) <= fuel)%nat ->
  post T (generateWeighted_sampling fuel)
       (fun _ s' =>
          pointCount (snd s') = pointCount (snd s) /\
          imageWidth (snd s') = imageWidth (snd s) /\
          imageHeight (snd s') = imageHeight (snd s) /\
          self_minDist (snd s') = self_minDist (snd s) /\
          keep_sampling (snd s') = false /\
          py_len (sampledList (snd s'))
            <= Z.max (py_len (sampledList (snd s)) + 1) (pointCount (snd s))) s.
Proof.
  intros Hfuel. unfold generateWeighted_sampling. step.
  assert (Hmain : forall g0 r0,
    pointCount g0 = pointCount (snd s) -> imageWidth g0 = imageWidth (snd s) ->
    imageHeight g0 = imageHeight (snd s) -> self_minDist g0 = self_minDist (snd s) ->
    sampledList g0 = sampledList (snd s) -> run_fuel g0 = run_fuel (snd s) ->
    post T (seed ;;; weighted_loop fuel [])
      (fun _ s' =>
         pointCount (snd s') = pointCount (snd s) /\
         imageWidth (snd s') = imageWidth (snd s) /\
         imageHeight (snd s') = imageHeight (snd s) /\
         self_minDist (snd s') = self_minDist (snd s) /\
         keep_sampling (snd s') = false /\
         py_len (sampledList (snd s'))
           <= Z.max (py_len (sampledList (snd s)) + 1) (pointCount (snd s))) (r0, g0)).
  { intros g0 r0 HN HW HH Hm Hs Hrf. step.
    apply post_seed. cbn [snd]. intros p r' grid' _ _ _ _.
    eapply post_mono; [| apply post_weighted_loop with
      (b := Z.max (py_len (sampledList g0) + 1) (pointCount g0))].
    - cbn beta. cbn [snd]. intros _ s' (P & K & B).
      unfold params in P. cbn [pointCount newPointsToGenerate imageHeight imageWidth
        rawWeight self_minDist imageWeight edgeThreshold with_lists] in P.
      rewrite <- HN, <- HW, <- HH, <- Hm, <- Hs.
      repeat split; try congruence; exact B.
    - cbn [snd]. destruct Hfuel as [HT | Hf]; [left; exact HT | right].
      pose proof (run_fuel_covers_loop 1 g0 grid' p). lia.
    - cbn [snd sampledList with_lists]. unfold py_len. rewrite length_app. cbn [length]. lia.
    - cbn [snd pointCount with_lists]. lia. }
  apply post_preprocess.
  - destruct s as [r g]. apply Hmain; reflexivity.
  - intros w. apply Hmain; reflexivity.
Qed.

(** What [generate] returns is the sampled list of its sampling part
    followed by what [generateBoundary] appends. *)
Lemma generate_returns_sampled_then_boundary (fuel : nat) s l s' :
  generate fuel s = Done (l, s') ->
  exists s1 boundary,
    generate_sampling fuel s = Done (tt, s1) /\ l = sampledList (snd s1) ++ boundary.
Proof.
  unfold generate. unfold bind at 1.
  destruct (generate_sampling fuel s) as [[[] s1] | e |] eqn:E1; try discriminate.
  unfold bind at 1.
  pose proof (post_generateBoundary True fuel s1 (or_introl I)) as Hb. unfold post in Hb.
  destruct (generateBoundary fuel s1) as [[[] s2] | e |]; try discriminate.
  destruct Hb as (_ & _ & _ & pts & Hs & _).
  unfold bind, get_self, ret. intros [= <- <-].
  exists s1, pts. split; [reflexivity | exact Hs].
Qed.

Lemma generateWeighted_returns_sampled_then_boundary (fuel : nat) s l s' :
  generateWeighted fuel s = Done (l, s') ->
  exists s1 boundary,
    generateWeighted_sampling fuel s = Done (tt, s1) /\ l = sampledList (snd s1) ++ boundary.
Proof.
  unfold generateWeighted. unfold bind at 1.
  destruct (generateWeighted_sampling fuel s) as [[[] s1] | e |] eqn:E1; try discriminate.
  unfold bind at 1.
  pose proof (post_generateBoundary True fuel s1 (or_introl I)) as Hb. unfold post in Hb.
  destruct (generateBoundary fuel s1) as [[[] s2] | e |]; try discriminate.
  destruct Hb as (_ & _ & _ & pts & Hs & _).
  unfold bind, get_self, ret. intros [= <- <-].
  exists s1, pts. split; [reflexivity | exact Hs].
Qed.

(** C10.  On an object whose sampled list starts empty, the list that
    [generate] returns is the points of its sampling part followed by the
    boundary points, and the former are at most
    [max 1 (pointCount - 1 + newPointsToGenerate)]; for [generateWeighted]
    they are at most [max 1 pointCount].  The uniform sampler can return
    more than [pointCount] of them: three for [pointCount = 2] in the run
    of [zero_gen]. *)
Theorem sampled_count_bounds :
  (forall fuel s l s',
      sampledList (snd s) = [] ->
      generate fuel s = Done (l, s') ->
      exists s1 boundary,
        generate_sampling fuel s = Done (tt, s1) /\
        l = sampledList (snd s1) ++ boundary /\
        py_len (sampledList (snd s1))
          <= Z.max 1 (pointCount (snd s) - 1 + newPointsToGenerate (snd s))) /\
  (forall fuel s l s',
      sampledList (snd s) = [] ->
      generateWeighted fuel s = Done (l, s') ->
      exists s1 boundary,
        generateWeighted_sampling fuel s = Done (tt, s1) /\
        l = sampledList (snd s1) ++ boundary /\
        py_len (sampledList (snd s1)) <= Z.max 1 (pointCount (snd s))) /\
  (pointCount zero_gen = 2 /\
   option_map (fun g => py_len (sampledList g))
              (final (generate_sampling 10 (zero_tape, zero_gen))) = Some 3).
Proof.
  split; [| split].
  - intros fuel s l s' Hnil E.
    destruct (generate_returns_sampled_then_boundary fuel s l s' E) as (s1 & pts & E1 & Hl).
    exists s1, pts. split; [exact E1 |]. split; [exact Hl |].
    pose proof (post_done True _ _ _ _ _
                  (post_generate_sampling True fuel s (or_introl I)) E1) as (_ & _ & B).
    rewrite Hnil in B. exact B.
  - intros fuel s l s' Hnil E.
    destruct (generateWeighted_returns_sampled_then_boundary fuel s l s' E)
      as (s1 & pts & E1 & Hl).
    exists s1, pts. split; [exact E1 |]. split; [exact Hl |].
    pose proof (post_done True _ _ _ _ _
                  (post_generateWeighted_sampling True fuel s (or_introl I)) E1)
      as (_ & _ & _ & _ & _ & B).
    rewrite Hnil in B. exact B.
  - split; vm_compute; reflexivity.
Qed.

(** The run of the scenario: three sampled points, bound three. *)
Lemma sampled_count_bounds_witness :
  exists l s' s1 boundary,
    generate 10 (scenario_tape, scenario_gen) = Done (l, s') /\
    generate_sampling 10 (scenario_tape, scenario_gen) = Done (tt, s1) /\
    l = sampledList (snd s1) ++ boundary /\
    py_len (sampledList (snd s1)) <= Z.max 1 (3 - 1 + 1).
Proof.
  destruct (generate 10 (scenario_tape, scenario_gen)) as [[l s'] | e |] eqn:E.
  - destruct (proj1 sampled_count_bounds 10%nat (scenario_tape, scenario_gen) l s' eq_refl E)
      as (s1 & boundary & H1 & H2 & H3).
    exists l, s', s1, boundary. split; [reflexivity |].
    split; [exact H1 |]. split; [exact H2 | exact H3].
  - vm_compute in E. discriminate.
  - vm_compute in E. discriminate.
Defined.

(** C4.  On an image of at least one pixel in each direction and with
    [minDist > 0], whatever the target count, the number of candidates per
    turn and the random draws, both samplers stop (by returning or by
    raising) as soon as the fuel reaches [run_fuel], a number read off the
    object before the run. *)
Theorem samplers_terminate (g : BlueNoiseGenerator) :
  1 <= imageWidth g -> 1 <= imageHeight g -> (0 < self_minDist g)%Q ->
  forall (fuel : nat) (r : Rng),
    (run_fuel g <= fuel)%nat ->
    halts (generate fuel (r, g)) /\ halts (generateWeighted fuel (r, g)).
Proof.
  intros HW HH Hm fuel r Hfuel.
  assert (Hbf : (boundary_fuel g 0 <= fuel)%nat) by (unfold run_fuel in Hfuel; eapply Nat.le_trans; [apply Nat.le_add_l | exact Hfuel]).
  split.
  - apply post_halts with (K := fun _ _ => True).
    unfold generate. step.
    eapply post_mono; [| apply post_generate_sampling; right; exact Hfuel].
    cbn beta. cbn [snd]. intros _ s1 (P & _ & _). step.
    unfold params in P.
    eapply post_mono; [| apply post_generateBoundary; right].
    + cbn beta. intros _ s2 _. step. step. step. exact I.
    + unfold boundary_fuel.
      replace (imageWidth (snd s1)) with (imageWidth g) by congruence.
      replace (imageHeight (snd s1)) with (imageHeight g) by congruence.
      replace (self_minDist (snd s1)) with (self_minDist g) by congruence.
      repeat split; assumption.
  - apply post_halts with (K := fun _ _ => True).
    unfold generateWeighted. step.
    eapply post_mono; [| apply post_generateWeighted_sampling; right; exact Hfuel].
    cbn beta. cbn [snd]. intros _ s1 (HN & HW1 & HH1 & Hm1 & _). step.
    eapply post_mono; [| apply post_generateBoundary; right].
    + cbn beta. intros _ s2 _. step. step. step. exact I.
    + unfold boundary_fuel. rewrite HW1, HH1, Hm1.
      repeat split; assumption.
Qed.

(** The scenario: [run_fuel] is 13 there. *)
Lemma samplers_terminate_witness :
  halts (generate 13 (scenario_tape, scenario_gen)) /\
  halts (generateWeighted 13 (scenario_tape, scenario_gen)).
Proof.
  apply (samplers_terminate scenario_gen).
  - vm_compute. discriminate.
  - vm_compute. discriminate.
  - reflexivity.
  - vm_compute. apply le_n.
Defined.

(** ** More on the grid *)

(** The cell of a non-negative coordinate [v], for [minDist = a/b > 0]:
    the integer [k >= 0] with [(k*a)^2 <= 2*(v*b)^2 < ((k+1)*a)^2]. *)
Lemma div_cellSize_bounds (m : Q) (v : Z) :
  (0 < m)%Q -> 0 <= v ->
  0 <= div_cellSize m v /\
  (div_cellSize m v * Qnum m) ^ 2 <= 2 * (v * QDen m) ^ 2
    < ((div_cellSize m v + 1) * Qnum m) ^ 2.
Proof.
  intros Hm Hv.
  assert (Ha : 0 < Qnum m) by (unfold Qlt in Hm; cbn in Hm; lia).
  unfold div_cellSize.
  set (a := Qnum m) in *. set (N := 2 * (v * QDen m) ^ 2).
  assert (HN : 0 <= N) by (unfold N; nia).
  pose proof (Z.sqrt_spec N HN) as [Hs1 Hs2].
  pose proof (Z.sqrt_nonneg N) as Hs0.
  set (s := Z.sqrt N) in *.
  rewrite (Z.sgn_pos a Ha), (Z.abs_eq a) by lia.
  pose proof (Z.mul_div_le s a Ha) as Hd1.
  pose proof (Z.mul_succ_div_gt s a Ha) as Hd2.
  assert (Hk0 : 0 <= s / a) by (apply Z.div_pos; lia).
  set (k := s / a) in *.
  destruct (Z.eq_dec v 0) as [-> | Hv0].
  - replace N with 0 in * by (unfold N; lia).
    change (Z.sgn 0) with 0. rewrite !Z.mul_0_l. change (0 + 1) with 1.
    rewrite Z.mul_1_l. change (0 ^ 2) with 0. split; [lia | split; nia].
  - rewrite (Z.sgn_pos v) by lia. rewrite !Z.mul_1_l.
    split; [exact Hk0 |]. split; nia.
Qed.

(** Squares of integers against [minDist = a/b], on the integers. *)
Lemma sq_lt_minDist (m : Q) (k w : Z) :
  (inject_Z w < inject_Z k * (m * m))%Q <-> w * QDen m ^ 2 < k * Qnum m ^ 2.
Proof.
  destruct m as [a b]. unfold Qlt, Qmult, inject_Z. cbn [Qnum Qden].
  rewrite Pos2Z.inj_mul, !Z.pow_2_r. split; intros H; nia.
Qed.

Lemma sq_lt_lin (a b : Z) : 0 <= b -> a ^ 2 < b ^ 2 -> a < b.
Proof.
  intros Hb H. destruct (Z_lt_le_dec a b) as [Hlt | Hge]; [exact Hlt | exfalso].
  assert (b ^ 2 <= a ^ 2) by (apply Z.pow_le_mono_l; lia). lia.
Qed.

Lemma sq_le_lin (a b : Z) : 0 <= b -> a ^ 2 <= b ^ 2 -> a <= b.
Proof.
  intros Hb H. destruct (Z_le_gt_dec a b) as [Hle | Hgt]; [exact Hle | exfalso].
  assert (b ^ 2 < a ^ 2) by (apply Z.pow_lt_mono_l; lia). lia.
Qed.

(** Two coordinates of one cell differ by less than a cell side. *)
Lemma axis_gap (u a P R : Z) :
  0 <= u -> 0 < a -> 0 <= P <= R ->
  u ^ 2 <= 2 * P ^ 2 -> 2 * R ^ 2 < (u + a) ^ 2 ->
  2 * (R - P) ^ 2 < a ^ 2.
Proof.
  intros Hu Ha [HP HR] H1 H2.
  destruct (Z_lt_le_dec (2 * (R - P) ^ 2) (a ^ 2)) as [Hlt | Hge]; [exact Hlt | exfalso].
  set (d := R - P) in *. assert (Hd : 0 <= d) by (unfold d; lia).
  assert (Hprod : (u * a) ^ 2 <= (2 * P * d) ^ 2).
  { replace ((u * a) ^ 2) with (u ^ 2 * a ^ 2) by ring.
    replace ((2 * P * d) ^ 2) with ((2 * P ^ 2) * (2 * d ^ 2)) by ring.
    apply Z.mul_le_mono_nonneg;
      [apply Z.pow_nonneg; lia | exact H1 | apply Z.pow_nonneg; lia | exact Hge]. }
  assert (Hlin : u * a <= 2 * P * d).
  { apply sq_le_lin; [| exact Hprod].
    apply Z.mul_nonneg_nonneg; [lia | exact Hd]. }
  assert (E1 : (P + d) ^ 2 = P ^ 2 + 2 * (P * d) + d ^ 2) by ring.
  assert (E2 : (u + a) ^ 2 = u ^ 2 + 2 * (u * a) + a ^ 2) by ring.
  replace R with (P + d) in H2 by (unfold d; lia). rewrite E1, E2 in H2. lia.
Qed.

Lemma same_cell_axis (m : Q) (v w : Z) :
  (0 < m)%Q -> 0 <= v -> 0 <= w ->
  div_cellSize m v = div_cellSize m w ->
  2 * ((w - v) * QDen m) ^ 2 < Qnum m ^ 2.
Proof.
  intros Hm Hv Hw E.
  destruct (div_cellSize_bounds m v Hm Hv) as (Hk & Hv1 & Hv2).
  destruct (div_cellSize_bounds m w Hm Hw) as (_ & Hw1 & Hw2).
  rewrite <- E in Hw1, Hw2. set (k := div_cellSize m v) in *.
  assert (Ha : 0 < Qnum m) by (unfold Qlt in Hm; cbn in Hm; lia).
  pose proof (Pos2Z.is_pos (Qden m)) as Hb.
  replace ((k + 1) * Qnum m) with (k * Qnum m + Qnum m) in * by ring.
  destruct (Z_le_gt_dec v w).
  - replace ((w - v) * QDen m) with (w * QDen m - v * QDen m) by ring.
    apply (axis_gap (k * Qnum m)); try assumption; nia.
  - replace (((w - v) * QDen m) ^ 2) with ((v * QDen m - w * QDen m) ^ 2) by ring.
    apply (axis_gap (k * Qnum m)); try assumption; nia.
Qed.

(** Two points of non-negative coordinates that fall in the same cell are
    closer than [minDist]: the diagonal of a cell is [minDist]. *)
Theorem same_cell_closer_than_minDist (g : Grid) (p q : Point) :
  (0 < minDist g)%Q ->
  0 <= x p -> 0 <= y p -> 0 <= x q -> 0 <= y q ->
  x (getGridCoordinates g p) = x (getGridCoordinates g q) ->
  y (getGridCoordinates g p) = y (getGridCoordinates g q) ->
  distance_lt p q (minDist g) = true.
Proof.
  intros Hm Hxp Hyp Hxq Hyq Ex Ey. unfold getGridCoordinates, newPoint in Ex, Ey.
  cbn [x y] in Ex, Ey.
  pose proof (same_cell_axis _ _ _ Hm Hxp Hxq Ex) as Hx.
  pose proof (same_cell_axis _ _ _ Hm Hyp Hyq Ey) as Hy.
  unfold distance_lt. apply andb_true_intro. split; [apply Qltb_true_iff; exact Hm |].
  apply Qltb_true_iff. unfold distance2.
  setoid_replace (minDist g * minDist g)%Q with (inject_Z 1 * (minDist g * minDist g))%Q
    by (change (inject_Z 1) with 1%Q; ring).
  apply sq_lt_minDist. nia.
Qed.

Lemma same_cell_closer_witness :
  distance_lt (newPoint 8 8) (newPoint 14 14) (minDist (grid_of (Grid_init 10 100 100))) = true.
Proof.
  apply (same_cell_closer_than_minDist (grid_of (Grid_init 10 100 100))
           (newPoint 8 8) (newPoint 14 14)).
  - reflexivity.
  - vm_compute. discriminate.
  - vm_compute. discriminate.
  - vm_compute. discriminate.
  - vm_compute. discriminate.
  - vm_compute. reflexivity.
  - vm_compute. reflexivity.
Defined.

Lemma length_set_nth {A} (l : list A) (k : nat) (a : A) : length (set_nth l k a) = length l.
Proof.
  revert k. induction l as [| h t IH]; intros k; [reflexivity |].
  destruct k; cbn [set_nth length]; [reflexivity | now rewrite IH].
Qed.

Lemma nth_error_set_nth_same {A} (l : list A) (k : nat) (a : A) :
  (k < length l)%nat -> nth_error (set_nth l k a) k = Some a.
Proof.
  revert k. induction l as [| h t IH]; intros k Hk; cbn [length] in Hk; [lia |].
  destruct k; cbn [set_nth nth_error]; [reflexivity | apply IH; lia].
Qed.

Lemma In_set_nth {A} (l : list A) (k : nat) (a b : A) :
  In b (set_nth l k a) -> b = a \/ In b l.
Proof.
  revert k. induction l as [| h t IH]; intros k; [contradiction |].
  destruct k; cbn [set_nth In].
  - intros [<- | H]; auto.
  - intros [<- | H]; [auto |]. destruct (IH k H); auto.
Qed.

(** What a successful [insert] does: one slot is overwritten with the
    point, the rest of the grid object is as before. *)
Lemma insert_spec (g g' : Grid) (p : Point) :
  insert g p = inr g' ->
  shape g' = shape g /\
  exists k, py_index (length (grid g)) (getGridIndex g (x p) (y p) false) = Some k /\
            grid g' = set_nth (grid g) k (Some p).
Proof.
  unfold insert, py_setitem.
  destruct (py_index _ _) as [k |] eqn:Ek; [| discriminate].
  intros [= <-]. unfold shape. cbn [minDist width height grid].
  rewrite length_set_nth. split; [reflexivity |]. exists k. split; reflexivity.
Qed.

Lemma div_cellSize_nonneg (m : Q) (v : Z) : (0 < m)%Q -> 0 <= v -> 0 <= div_cellSize m v.
Proof. intros Hm Hv. apply div_cellSize_bounds; assumption. Qed.

(** A point written at a non-negative index sits in the slot of its own
    cell. *)
Lemma insert_stored (g g' : Grid) (p : Point) :
  0 <= getGridIndex g (x p) (y p) false ->
  insert g p = inr g' ->
  stored g' p /\
  getGridIndex g' (x p) (y p) false = getGridIndex g (x p) (y p) false /\
  getGridIndex g (x p) (y p) false < Z.of_nat (length (grid g)).
Proof.
  intros H0 Hins.
  destruct (insert_spec g g' p Hins) as (Hshape & k & Hk & Hgrid).
  unfold shape in Hshape. injection Hshape as Hm' Hw' Hh' Hlen.
  assert (Hidx : getGridIndex g' (x p) (y p) false = getGridIndex g (x p) (y p) false).
  { unfold getGridIndex, getGridCoordinates. rewrite Hm', Hw'. reflexivity. }
  unfold py_index in Hk.
  destruct ((0 <=? getGridIndex g (x p) (y p) false)
            && (getGridIndex g (x p) (y p) false <? Z.of_nat (length (grid g)))) eqn:E.
  - injection Hk as <-. apply andb_prop in E as [_ E]. apply Z.ltb_lt in E.
    split; [| split; [exact Hidx | exact E]].
    unfold stored. rewrite Hidx. split; [exact H0 |].
    rewrite Hgrid. apply nth_error_set_nth_same. lia.
  - destruct ((- Z.of_nat (length (grid g)) <=? _) && (_ <? 0)) eqn:E2; [| discriminate].
    apply andb_prop in E2 as [_ E2]. apply Z.ltb_lt in E2. lia.
Qed.

(** The query at the place of a point just inserted finds it.  The index of
    the point must not be negative: a negative index makes [insert] write
    from the end of the list while the query skips it. *)
Theorem insert_then_checkInNeighborhood (g g' : Grid) (p : Point) :
  (0 < minDist g)%Q -> 0 <= width g -> 0 <= x p -> 0 <= y p ->
  insert g p = inr g' ->
  stored g' p /\ checkInNeighborhood g' p = true.
Proof.
  intros Hm Hw Hx Hy Hins.
  assert (H0 : 0 <= getGridIndex g (x p) (y p) false).
  { unfold getGridIndex, getGridCoordinates, newPoint. cbn [x y].
    pose proof (div_cellSize_nonneg (minDist g) (x p) Hm Hx).
    pose proof (div_cellSize_nonneg (minDist g) (y p) Hm Hy).
    apply Z.add_nonneg_nonneg; [apply Z.mul_nonneg_nonneg |]; assumption. }
  destruct (insert_stored g g' p H0 Hins) as (Hst & Hidx & Hlt).
  destruct (insert_spec g g' p Hins) as (Hshape & _).
  unfold shape in Hshape. injection Hshape as Hm' _ _ Hlen.
  split; [exact Hst |].
  apply checkInNeighborhood_window. exists 0, 0.
  split; [lia |]. split; [lia |]. rewrite !Z.add_0_r.
  unfold cell_hit.
  replace (getGridIndex g' (x (getGridCoordinates g' p)) (y (getGridCoordinates g' p)) true)
    with (getGridIndex g' (x p) (y p) false) by reflexivity.
  destruct Hst as [_ Hnth]. rewrite Hnth.
  unfold py_len. rewrite Hidx, Hlen.
  replace ((0 <=? _) && (_ <? _)) with true
    by (symmetry; apply andb_true_intro; split; [apply Z.leb_le | apply Z.ltb_lt]; lia).
  unfold distance_lt, distance2. rewrite Hm'.
  replace ((x p - x p) ^ 2 + (y p - y p) ^ 2) with 0 by ring.
  apply andb_true_intro. split; apply Qltb_true_iff; [exact Hm |].
  change (inject_Z 0) with 0%Q. nra.
Qed.

Lemma insert_then_checkInNeighborhood_witness :
  exists g',
    insert (grid_of (Grid_init 10 100 100)) (newPoint 15 0) = inr g' /\
    stored g' (newPoint 15 0) /\ checkInNeighborhood g' (newPoint 15 0) = true.
Proof.
  destruct (insert (grid_of (Grid_init 10 100 100)) (newPoint 15 0)) as [e | g'] eqn:E.
  - vm_compute in E. discriminate.
  - exists g'. split; [reflexivity |].
    apply (insert_then_checkInNeighborhood (grid_of (Grid_init 10 100 100)) g' (newPoint 15 0)).
    + reflexivity.
    + vm_compute. discriminate.
    + vm_compute. discriminate.
    + vm_compute. discriminate.
    + exact E.
Defined.

(** After [reset] the query finds nothing, wherever it is asked, and the
    grid keeps its shape. *)
Theorem reset_clears (g : Grid) (q : Point) :
  checkInNeighborhood (reset g) q = false /\ shape (reset g) = shape g /\
  forall p, ~ stored (reset g) p.
Proof.
  split; [| split].
  - destruct (checkInNeighborhood (reset g) q) eqn:E; [| reflexivity].
    apply checkInNeighborhood_window in E as (dx & dy & _ & _ & E).
    apply cell_hit_inv in E as [p [Hin _]].
    cbn [reset grid] in Hin. apply repeat_spec in Hin. discriminate.
  - unfold shape, reset. cbn [minDist width height grid]. rewrite repeat_length. reflexivity.
  - intros p [_ H]. apply nth_error_In in H. cbn [reset grid] in H.
    apply repeat_spec in H. discriminate.
Qed.

Lemma div_cellSize_mono (m : Q) (v w : Z) :
  (0 < m)%Q -> 0 <= v <= w -> div_cellSize m v <= div_cellSize m w.
Proof.
  intros Hm [Hv Hvw].
  destruct (div_cellSize_bounds m v Hm Hv) as (Hkv & Hv1 & _).
  destruct (div_cellSize_bounds m w Hm ltac:(lia)) as (Hkw & _ & Hw2).
  assert (Ha : 0 < Qnum m) by (unfold Qlt in Hm; cbn in Hm; lia).
  pose proof (Pos2Z.is_pos (Qden m)) as Hb.
  destruct (Z_le_gt_dec (div_cellSize m v) (div_cellSize m w)) as [Hle | Hgt]; [exact Hle |].
  exfalso.
  assert (H1 : (div_cellSize m w + 1) * Qnum m <= div_cellSize m v * Qnum m) by nia.
  assert (H2 : ((div_cellSize m w + 1) * Qnum m) ^ 2 <= (div_cellSize m v * Qnum m) ^ 2)
    by (apply Z.pow_le_mono_l; nia).
  assert (H3 : 2 * (v * QDen m) ^ 2 <= 2 * (w * QDen m) ^ 2).
  { apply Z.mul_le_mono_nonneg_l; [lia |]. apply Z.pow_le_mono_l. nia. }
  lia.
Qed.

(** The cell numbers never decrease with the coordinates and are never
    negative for a point of non-negative coordinates: a point that lies
    to the right of and below another one is in a cell to the right of and
    below it, or in the same one. *)
Theorem getGridCoordinates_monotone (g : Grid) (p q : Point) :
  (0 < minDist g)%Q -> 0 <= x p <= x q -> 0 <= y p <= y q ->
  0 <= x (getGridCoordinates g p) <= x (getGridCoordinates g q) /\
  0 <= y (getGridCoordinates g p) <= y (getGridCoordinates g q).
Proof.
  intros Hm Hx Hy. unfold getGridCoordinates, newPoint. cbn [x y].
  split; (split; [apply div_cellSize_nonneg; [exact Hm | lia]
                 | apply div_cellSize_mono; [exact Hm | assumption]]).
Qed.

Lemma getGridCoordinates_monotone_witness :
  0 <= x (getGridCoordinates (grid_of (Grid_init 10 100 100)) (newPoint 8 15))
    <= x (getGridCoordinates (grid_of (Grid_init 10 100 100)) (newPoint 15 15)) /\
  0 <= y (getGridCoordinates (grid_of (Grid_init 10 100 100)) (newPoint 8 15))
    <= y (getGridCoordinates (grid_of (Grid_init 10 100 100)) (newPoint 15 15)).
Proof.
  apply (getGridCoordinates_monotone (grid_of (Grid_init 10 100 100))
           (newPoint 8 15) (newPoint 15 15)).
  - reflexivity.
  - cbn. lia.
  - cbn. lia.
Defined.

(** The grid that [Grid] builds for an image of at least one pixel per
    direction: one more column than the cell of [imageWidth], one more row
    than the cell of [imageHeight], and as many slots as cells. *)
Lemma Grid_init_shape (m : Q) (W H : Z) (g : Grid) :
  (0 < m)%Q -> 1 <= W -> 1 <= H ->
  Grid_init m W H = inr g ->
  shape g = (m, div_cellSize m W + 1, div_cellSize m H + 1,
             Z.to_nat ((div_cellSize m W + 1) * (div_cellSize m H + 1))).
Proof.
  intros Hm HW HH. unfold Grid_init.
  assert (Ha : 0 < Qnum m) by (unfold Qlt in Hm; cbn in Hm; lia).
  destruct (Qeq_bool m 0); [discriminate |].
  intros [= <-]. unfold shape, ceil_div_cellSize. cbn [minDist width height grid].
  rewrite (Z.sgn_pos W), (Z.sgn_pos H), (Z.sgn_pos (Qnum m)) by lia.
  cbn [Z.mul Z.ltb Z.compare Pos.mul].
  rewrite repeat_length.
  pose proof (div_cellSize_nonneg m W Hm ltac:(lia)).
  pose proof (div_cellSize_nonneg m H Hm ltac:(lia)).
  f_equal. rewrite Z2Nat.inj_mul by lia. reflexivity.
Qed.

(** The index of a point of the image is inside the list of the grid built
    for that image. *)
Lemma insert_in_image (m : Q) (W H : Z) (g0 g : Grid) (p : Point) :
  (0 < m)%Q -> 1 <= W -> 1 <= H ->
  Grid_init m W H = inr g0 ->
  shape g = shape g0 ->
  0 <= x p <= W -> 0 <= y p <= H ->
  exists g', insert g p = inr g' /\ shape g' = shape g0 /\
             0 <= getGridIndex g (x p) (y p) false.
Proof.
  intros Hm HW HH Hinit Hshape Hx Hy.
  rewrite (Grid_init_shape m W H g0 Hm HW HH Hinit) in Hshape.
  unfold shape in Hshape. injection Hshape as Hmin Hwid Hhei Hlen.
  pose proof (div_cellSize_nonneg m (x p) Hm ltac:(lia)) as Hcx.
  pose proof (div_cellSize_nonneg m (y p) Hm ltac:(lia)) as Hcy.
  pose proof (div_cellSize_mono m (x p) W Hm ltac:(lia)) as Hmx.
  pose proof (div_cellSize_mono m (y p) H Hm ltac:(lia)) as Hmy.
  assert (Hidx : getGridIndex g (x p) (y p) false
                 = div_cellSize m (y p) * (div_cellSize m W + 1) + div_cellSize m (x p)).
  { unfold getGridIndex, getGridCoordinates, newPoint. cbn [x y]. rewrite Hmin, Hwid.
    reflexivity. }
  assert (Hrange : 0 <= getGridIndex g (x p) (y p) false < Z.of_nat (length (grid g))).
  { rewrite Hidx, Hlen. rewrite Z2Nat.id by nia. nia. }
  destruct (insert g p) as [e | g'] eqn:E.
  - exfalso. unfold insert, py_setitem, py_index in E.
    replace ((0 <=? _) && (_ <? _)) with true in E
      by (symmetry; apply andb_true_intro; split; [apply Z.leb_le | apply Z.ltb_lt]; lia).
    discriminate.
  - exists g'. split; [reflexivity |].
    destruct (insert_spec g g' p E) as (Hs & _).
    split; [| lia].
    rewrite Hs. rewrite (Grid_init_shape m W H g0 Hm HW HH Hinit).
    unfold shape. congruence.
Qed.

(** On a grid built for the image, [insert] never raises for a pixel of
    the image, [0 <= x < imageWidth] and [0 <= y < imageHeight]; it keeps
    the shape of the grid and the point sits in the slot of its cell. *)
Theorem insert_inside_image_succeeds (m : Q) (W H : Z) (g0 g : Grid) (p : Point) :
  (0 < m)%Q -> 1 <= W -> 1 <= H ->
  Grid_init m W H = inr g0 ->
  shape g = shape g0 ->
  0 <= x p < W -> 0 <= y p < H ->
  exists g', insert g p = inr g' /\ shape g' = shape g0 /\ stored g' p.
Proof.
  intros Hm HW HH Hinit Hshape Hx Hy.
  destruct (insert_in_image m W H g0 g p Hm HW HH Hinit Hshape
              ltac:(lia) ltac:(lia))
    as (g' & Hins & Hs & H0).
  exists g'. split; [exact Hins |]. split; [exact Hs |].
  exact (proj1 (insert_stored g g' p H0 Hins)).
Qed.

Lemma insert_inside_image_witness :
  exists g',
    insert (grid_of (Grid_init 3 10 10)) (newPoint 9 9) = inr g' /\
    shape g' = shape (grid_of (Grid_init 3 10 10)) /\ stored g' (newPoint 9 9).
Proof.
  apply (insert_inside_image_succeeds 3 10 10 (grid_of (Grid_init 3 10 10))
           (grid_of (Grid_init 3 10 10)) (newPoint 9 9)).
  - reflexivity.
  - lia.
  - lia.
  - reflexivity.
  - reflexivity.
  - cbn. lia.
  - cbn. lia.
Defined.

(** Grid.checkInNeighborhood is sound: a True answer is always backed by a
    point stored in the grid that is closer than [minDist] to the queried
    point; the query never reports a neighbour that is not there. *)
Theorem checkInNeighborhood_sound (g : Grid) (q : Point) :
  checkInNeighborhood g q = true ->
  exists p, In (Some p) (grid g) /\ distance_lt q p (minDist g) = true.
Proof.
  unfold checkInNeighborhood. intros H.
  apply existsb_py_range in H as [cy [_ H]].
  apply existsb_py_range in H as [cx [_ H]].
  unfold cell_hit in H.
  destruct ((0 <=? _) && _); [| discriminate].
  destruct (nth_error (grid g) _) as [[p |] |] eqn:E; try discriminate.
  exists p. split; [| assumption]. eapply nth_error_In; eassumption.
Qed.

(** An instance: the point (7, 0) is stored and (15, 0) is queried. *)
Lemma checkInNeighborhood_sound_witness :
  exists p,
    In (Some p) (grid (grid_of (insert (grid_of (Grid_init 10 100 100)) (newPoint 7 0)))) /\
    distance_lt (newPoint 15 0) p
      (minDist (grid_of (insert (grid_of (Grid_init 10 100 100)) (newPoint 7 0)))) = true.
Proof.
  apply (checkInNeighborhood_sound
           (grid_of (insert (grid_of (Grid_init 10 100 100)) (newPoint 7 0)))
           (newPoint 15 0)).
  vm_compute. reflexivity.
Defined.

(** ** Invariants of the sampling loops *)

Lemma incl_remove_nth {A} (l : list A) (k : nat) : incl (remove_nth l k) l.
Proof.
  revert k. induction l as [| h t IH]; intros k; [destruct k; apply incl_refl |].
  destruct k; cbn [remove_nth].
  - apply incl_tl, incl_refl.
  - apply incl_cons; [left; reflexivity | apply incl_tl, IH].
Qed.

Lemma py_pop_incl {A} (l : list A) (i : Z) (a : A) (rest : list A) :
  py_pop l i = inr (a, rest) -> incl rest l.
Proof.
  unfold py_pop. destruct (py_index (length l) i) as [k |]; [| discriminate].
  destruct (nth_error l k); [| discriminate].
  intros [= _ <-]. apply incl_remove_nth.
Qed.

Lemma post_pop_random_incl T (K : Point -> St -> Prop) s :
  (forall rp r' rest,
      In rp (processingList (snd s)) -> incl rest (processingList (snd s)) ->
      K rp (r', with_lists (snd s) (self_grid (snd s)) (sampledList (snd s)) rest)) ->
  post T pop_random K s.
Proof.
  intros H. unfold pop_random. step. step. step.
  apply post_randint. intros i r' _. step. step. step. step.
  cbn [snd] in *. destruct a as [rp rest].
  pose proof (py_pop_incl _ _ _ _ H0) as Hincl. apply py_pop_spec in H0 as [Hin _].
  step. step. step. cbn [fst snd]. now apply H.
Qed.

Section Invariant.
Variable I : BlueNoiseGenerator -> Prop.
Hypothesis HI : sampler_invariant I.

Lemma inv_uniform_candidates T (n : nat) (rp : Point) s :
  I (snd s) -> post T (uniform_candidates n rp) (fun _ s' => I (snd s')) s.
Proof.
  revert s. induction n as [| n IH]; intros s Hs; cbn [uniform_candidates].
  - step. exact Hs.
  - step. step. step.
    apply post_generateRandomPointAround. intros p r' _ _.
    step. step. cbn [snd]. step.
    destruct (in_bounds (snd s) p) eqn:Eb; cbn [andb].
    + destruct (checkInNeighborhood (self_grid (snd s)) p) eqn:Ec; cbn [negb].
      * step. apply IH. exact Hs.
      * apply post_accept. intros grid' Hins. cbn [fst snd].
        apply IH. cbn [snd]. apply (proj2 HI); assumption.
    + step. apply IH. exact Hs.
Qed.

Lemma inv_uniform_loop (fuel : nat) s :
  I (snd s) -> post True (uniform_loop fuel) (fun _ s' => I (snd s')) s.
Proof.
  revert s. induction fuel as [| fuel IH]; intros s Hs; cbn [uniform_loop].
  - step. step. destruct (keep_sampling (snd s)); [exact Logic.I | step; exact Hs].
  - step. step. destruct (keep_sampling (snd s)); [| step; exact Hs].
    step. unfold uniform_step. step. step. step.
    apply post_pop_random_incl. intros rp r' rest _ Hincl.
    eapply post_mono; [| apply inv_uniform_candidates].
    + cbn beta. intros _ s1 H1. apply IH. exact H1.
    + cbn [snd]. apply (proj1 HI); assumption.
Qed.

Lemma inv_weighted_candidates T (n : nat) (rp : Point) (q0 : list Point) s :
  Forall (fun c => in_bounds (snd s) c = true) q0 ->
  post T (weighted_candidates n rp q0)
       (fun q1 s' => snd s' = snd s /\ Forall (fun c => in_bounds (snd s) c = true) q1) s.
Proof.
  revert q0 s. induction n as [| n IH]; intros q0 s Hq; cbn [weighted_candidates].
  - step. split; [reflexivity | exact Hq].
  - step. step. step.
    apply post_generateRandomPointAround. intros p r' _ _.
    step. step. cbn [snd]. step.
    destruct (in_bounds (snd s) p) eqn:Eb.
    + step. step. step.
      eapply post_mono; [| apply IH].
      * cbn beta. cbn [snd]. intros q1 s' Hpost. exact Hpost.
      * cbn [snd]. eapply Permutation_Forall; [symmetry; apply pq_put_perm |].
        constructor; [exact Eb | exact Hq].
    + step. eapply post_mono; [| apply IH; exact Hq].
      cbn beta. cbn [snd]. intros q1 s' Hpost. exact Hpost.
Qed.

Lemma inv_drain T (q : list Point) s :
  I (snd s) -> Forall (fun c => in_bounds (snd s) c = true) q ->
  post T (drain q)
       (fun q' s' => I (snd s') /\ params (snd s') = params (snd s) /\
                     Forall (fun c => in_bounds (snd s) c = true) q') s.
Proof.
  induction q as [| h t IH]; intros Hs Hq; cbn [drain].
  - step. repeat split; [exact Hs | constructor].
  - inversion Hq as [| ? ? Hh Ht]; subst.
    step. step. destruct (checkInNeighborhood (self_grid (snd s)) h) eqn:E; cbn [negb].
    + apply IH; assumption.
    + step. apply post_accept. intros grid' Hins. step. cbn [snd].
      repeat split; [apply (proj2 HI); assumption | exact Ht].
Qed.

Lemma in_bounds_params (g g' : BlueNoiseGenerator) (c : Point) :
  params g' = params g -> in_bounds g' c = in_bounds g c.
Proof.
  unfold params, in_bounds. intros [= _ _ HH HW _ _ _ HE]. rewrite HH, HW, HE. reflexivity.
Qed.

Lemma inv_weighted_loop (fuel : nat) (q : list Point) s :
  I (snd s) -> Forall (fun c => in_bounds (snd s) c = true) q ->
  post True (weighted_loop fuel q) (fun _ s' => I (snd s')) s.
Proof.
  revert q s. induction fuel as [| fuel IH]; intros q s Hs Hq; cbn [weighted_loop].
  - step. step. destruct (keep_sampling (snd s)); [exact Logic.I | step; exact Hs].
  - step. step. destruct (keep_sampling (snd s)); [| step; exact Hs].
    step. unfold weighted_step. step. step. step.
    apply post_pop_random_incl. intros rp r' rest _ Hincl. step.
    eapply post_mono; [| apply inv_weighted_candidates; exact Hq].
    cbn beta. cbn [snd]. intros q1 s1 [Hs1 Hq1].
    eapply post_mono; [| apply inv_drain].
    + cbn beta. intros q2 s2 (H2 & P2 & Hq2). apply IH; [exact H2 |].
      rewrite Hs1 in P2, Hq2.
      eapply Forall_impl; [| exact Hq2]. cbn beta. intros c Hc.
      rewrite <- Hc. apply in_bounds_params. rewrite P2. reflexivity.
    + rewrite Hs1. apply (proj1 HI); assumption.
    + rewrite Hs1. exact Hq1.
Qed.
End Invariant.

Lemma inside_margin_invariant (g0 : BlueNoiseGenerator) :
  sampler_invariant (inside_margin g0).
Proof.
  split.
  - intros g rest (P & p0 & l & Hs & Hx & Hy & Hall) _.
    split; [exact P |]. exists p0, l. cbn [sampledList with_lists].
    split; [exact Hs |]. split; [exact Hx |]. split; [exact Hy | exact Hall].
  - intros g p grid' (P & p0 & l & Hs & Hx & Hy & Hall) Hb _ _.
    split; [exact P |]. exists p0, (l ++ [p]). cbn [sampledList with_lists].
    rewrite Hs, map_app. cbn [map app]. split; [reflexivity |].
    split; [exact Hx |]. split; [exact Hy |].
    apply Forall_app. split; [exact Hall |].
    constructor; [| constructor]. rewrite <- Hb. symmetry. apply in_bounds_params. exact P.
Qed.

Lemma consistent_invariant : sampler_invariant consistent.
Proof.
  split.
  - intros g rest [Hp Hg] Hincl. split; cbn [processingList sampledList self_grid with_lists].
    + intros p Hin. apply Hp, Hincl, Hin.
    + exact Hg.
  - intros g p grid' [Hp Hg] _ _ Hins.
    split; cbn [processingList sampledList self_grid with_lists].
    + intros q Hin. apply in_app_or in Hin as [Hin | [<- | []]]; apply in_or_app.
      * left. apply Hp, Hin.
      * right. left. reflexivity.
    + intros q Hin. destruct (insert_spec _ _ _ Hins) as (_ & k & _ & Hgrid).
      rewrite Hgrid in Hin. apply In_set_nth in Hin as [[= ->] | Hin]; apply in_or_app.
      * right. left. reflexivity.
      * left. apply Hg, Hin.
Qed.

(** Every sampled point but the seed passed the boundary check: it lies
    strictly more than [edgeThreshold] away from the four sides of the
    image.  The seed is only known to lie in
    [[0, imageWidth] x [0, imageHeight]]. *)
Theorem sampled_points_inside_margin (fuel : nat) (s s1 : St) :
  sampledList (snd s) = [] ->
  generate_sampling fuel s = Done (tt, s1) \/
  generateWeighted_sampling fuel s = Done (tt, s1) ->
  exists p0 rest,
    sampledList (snd s1) = Point_list p0 :: map Point_list rest /\
    0 <= x p0 <= imageWidth (snd s) /\ 0 <= y p0 <= imageHeight (snd s) /\
    Forall (fun p => in_bounds (snd s) p = true) rest.
Proof.
  intros Hnil Hrun.
  assert (Hseed : forall g r (K : unit -> St -> Prop) (c : M unit),
             sampledList g = [] ->
             (forall s' : St, inside_margin g (snd s') -> post True c K s') ->
             post True (seed ;;; c) K (r, g)).
  { intros g r K c Hg Hc. step. apply post_seed. cbn [snd]. intros p r' grid' Hx Hy _ _.
    apply Hc. cbn [snd]. split; [reflexivity |]. exists p, [].
    cbn [sampledList with_lists map]. rewrite Hg. repeat split; try lia. constructor. }
  set (G := fun s' : St =>
              exists p0 rest,
                sampledList (snd s') = Point_list p0 :: map Point_list rest /\
                0 <= x p0 <= imageWidth (snd s) /\ 0 <= y p0 <= imageHeight (snd s) /\
                Forall (fun p => in_bounds (snd s) p = true) rest).
  assert (Hweak : forall s' : St, inside_margin (snd s) (snd s') -> G s').
  { intros s' (_ & p0 & rest & H1 & H2 & H3 & H4). exists p0, rest.
    split; [exact H1 |]. split; [exact H2 |]. split; [exact H3 | exact H4]. }
  change (G s1).
  destruct Hrun as [E | E].
  - refine (post_done True _ (fun _ s' => G s') _ _ _ _ E).
    unfold generate_sampling. destruct s as [r g]. apply Hseed; [exact Hnil |].
    intros s' Hs'. eapply post_mono; [| apply (inv_uniform_loop (inside_margin g));
                                         [apply inside_margin_invariant | exact Hs']].
    cbn beta. intros _ s2 H2. apply Hweak. exact H2.
  - refine (post_done True _ (fun _ s' => G s') _ _ _ _ E).
    unfold generateWeighted_sampling. step. destruct s as [r g]. cbn [snd] in *.
    assert (Hw : forall g1 r1, sampledList g1 = [] ->
               (forall s' : St, inside_margin g1 (snd s') -> G s') ->
               post True (seed ;;; weighted_loop fuel [])
                    (fun _ s' => G s') (r1, g1)).
    { intros g1 r1 Hg1 Himp. apply Hseed; [exact Hg1 |]. intros s' Hs'.
      eapply post_mono; [| apply (inv_weighted_loop (inside_margin g1));
                           [apply inside_margin_invariant | exact Hs' | constructor]].
      cbn beta. intros _ s2 H2. apply Himp. exact H2. }
    apply post_preprocess.
    + apply Hw; [exact Hnil | exact Hweak].
    + intros w. apply Hw; [exact Hnil |].
      intros s' (_ & p0 & rest & H1 & H2 & H3 & H4). exists p0, rest.
      split; [exact H1 |]. split; [exact H2 |]. split; [exact H3 | exact H4].
Qed.

Lemma sampled_points_inside_margin_witness :
  exists s1,
    generate_sampling 10 (small_tape, small_gen) = Done (tt, s1) /\
    exists p0 rest,
      sampledList (snd s1) = Point_list p0 :: map Point_list rest /\
      0 <= x p0 <= imageWidth small_gen /\ 0 <= y p0 <= imageHeight small_gen /\
      Forall (fun p => in_bounds small_gen p = true) rest.
Proof.
  destruct (generate_sampling 10 (small_tape, small_gen)) as [[[] s1] | e |] eqn:E.
  - exists s1. split; [reflexivity |].
    apply (sampled_points_inside_margin 10%nat (small_tape, small_gen) s1);
      [reflexivity | left; exact E].
  - vm_compute in E. discriminate.
  - vm_compute in E. discriminate.
Defined.

Lemma consistent_seeded (g : BlueNoiseGenerator) (p : Point) (grid' : Grid) :
  consistent g -> insert (self_grid g) p = inr grid' ->
  consistent (with_lists g grid' (sampledList g ++ [Point_list p]) (processingList g ++ [p])).
Proof.
  intros [Hp Hg] Hins. split; cbn [processingList sampledList self_grid with_lists].
  - intros q Hin. apply in_app_or in Hin as [Hin | [<- | []]]; apply in_or_app.
    + left. apply Hp, Hin.
    + right. left. reflexivity.
  - intros q Hin. destruct (insert_spec _ _ _ Hins) as (_ & k & _ & Hgrid).
    rewrite Hgrid in Hin. apply In_set_nth in Hin as [[= ->] | Hin]; apply in_or_app.
    + right. left. reflexivity.
    + left. apply Hg, Hin.
Qed.

(** Both samplers keep the lists and the grid consistent: when they return
    from a consistent object (a fresh one on a reset grid is), every point
    of the processing list and every point held by the grid is one of the
    sampled points. *)
Theorem samplers_keep_consistency (fuel : nat) (s s1 : St) :
  consistent (snd s) ->
  generate_sampling fuel s = Done (tt, s1) \/
  generateWeighted_sampling fuel s = Done (tt, s1) ->
  consistent (snd s1).
Proof.
  intros Hc Hrun.
  assert (Hseed : forall g r (c : M unit),
             consistent g ->
             (forall s' : St, consistent (snd s') -> post True c (fun _ s2 => consistent (snd s2)) s') ->
             post True (seed ;;; c) (fun _ s2 => consistent (snd s2)) (r, g)).
  { intros g r c Hg Hcont. step. apply post_seed. cbn [snd]. intros p r' grid' _ _ _ Hins.
    apply Hcont. cbn [snd]. apply consistent_seeded; assumption. }
  destruct Hrun as [E | E].
  - refine (post_done True _ (fun _ s' => consistent (snd s')) _ _ _ _ E).
    unfold generate_sampling. destruct s as [r g]. apply Hseed; [exact Hc |].
    intros s' Hs'. apply inv_uniform_loop; [apply consistent_invariant | exact Hs'].
  - refine (post_done True _ (fun _ s' => consistent (snd s')) _ _ _ _ E).
    unfold generateWeighted_sampling. step. destruct s as [r g]. cbn [snd] in *.
    assert (Hw : forall g1 r1, consistent g1 ->
               post True (seed ;;; weighted_loop fuel [])
                    (fun _ s' => consistent (snd s')) (r1, g1)).
    { intros g1 r1 Hg1. apply Hseed; [exact Hg1 |]. intros s' Hs'.
      apply inv_weighted_loop; [apply consistent_invariant | exact Hs' | constructor]. }
    apply post_preprocess.
    + apply Hw. exact Hc.
    + intros w. apply Hw. exact Hc.
Qed.

Lemma samplers_keep_consistency_witness :
  exists s1,
    generate_sampling 10 (small_tape, small_gen) = Done (tt, s1) /\
    consistent (snd s1).
Proof.
  destruct (generate_sampling 10 (small_tape, small_gen)) as [[[] s1] | e |] eqn:E.
  - exists s1. split; [reflexivity |].
    apply (samplers_keep_consistency 10%nat (small_tape, small_gen) s1);
      [| left; exact E].
    split.
    + intros p [].
    + intros p Hin. exfalso. cbn [snd] in Hin.
      assert (Hnone : forallb (fun c => match c with None => true | Some _ => false end)
                        (grid (self_grid small_gen)) = true) by (vm_compute; reflexivity).
      rewrite forallb_forall in Hnone. specialize (Hnone _ Hin). discriminate.
  - vm_compute in E. discriminate.
  - vm_compute in E. discriminate.
Defined.

(** When the sampling part of a sampler returns, the test of its loop is
    false: the processing list is empty or the sampled list has reached
    the target count. *)
Theorem sampling_stops_on_failed_test (fuel : nat) (s s1 : St) :
  generate_sampling fuel s = Done (tt, s1) \/
  generateWeighted_sampling fuel s = Done (tt, s1) ->
  processingList (snd s1) = [] \/ pointCount (snd s) <= py_len (sampledList (snd s1)).
Proof.
  intros Hrun.
  assert (H : keep_sampling (snd s1) = false /\ pointCount (snd s1) = pointCount (snd s)).
  { destruct Hrun as [E | E].
    - pose proof (post_done True _ _ _ _ _
                    (post_generate_sampling True fuel s (or_introl Logic.I)) E) as (P & K & _).
      split; [exact K |]. unfold params in P. congruence.
    - pose proof (post_done True _ _ _ _ _
                    (post_generateWeighted_sampling True fuel s (or_introl Logic.I)) E)
        as (P & _ & _ & _ & K & _).
      split; [exact K | exact P]. }
  destruct H as [K HN]. unfold keep_sampling in K.
  apply andb_false_iff in K as [K | K].
  - left. apply Z.ltb_ge in K. unfold py_len in K.
    destruct (processingList (snd s1)); [reflexivity | cbn [length] in K; lia].
  - right. apply Z.ltb_ge in K. lia.
Qed.

Lemma sampling_stops_on_failed_test_witness :
  exists s1,
    generate_sampling 10 (small_tape, small_gen) = Done (tt, s1) /\
    (processingList (snd s1) = [] \/
     pointCount small_gen <= py_len (sampledList (snd s1))).
Proof.
  destruct (generate_sampling 10 (small_tape, small_gen)) as [[[] s1] | e |] eqn:E.
  - exists s1. split; [reflexivity |].
    apply (sampling_stops_on_failed_test 10%nat (small_tape, small_gen) s1).
    left. exact E.
  - vm_compute in E. discriminate.
  - vm_compute in E. discriminate.
Defined.

Lemma uniform_loop_idle (fuel : nat) s :
  keep_sampling (snd s) = false -> uniform_loop fuel s = Done (tt, s).
Proof.
  intros H. destruct fuel; cbn [uniform_loop]; unfold bind, get_self, ret; rewrite H; reflexivity.
Qed.

Lemma weighted_loop_idle (fuel : nat) (q : list Point) s :
  keep_sampling (snd s) = false -> weighted_loop fuel q s = Done (tt, s).
Proof.
  intros H. destruct fuel; cbn [weighted_loop]; unfold bind, get_self, ret; rewrite H; reflexivity.
Qed.

(** With a target count of at most 1 the loop is never entered: on a fresh
    object the sampling part returns the seed alone, whatever the fuel and
    the number of candidates per turn. *)
Theorem only_seed_when_pointCount_le_1 (fuel : nat) (s s1 : St) :
  sampledList (snd s) = [] ->
  pointCount (snd s) <= 1 ->
  generate_sampling fuel s = Done (tt, s1) \/
  generateWeighted_sampling fuel s = Done (tt, s1) ->
  exists p0,
    sampledList (snd s1) = [Point_list p0] /\
    processingList (snd s1) = processingList (snd s) ++ [p0] /\
    0 <= x p0 <= imageWidth (snd s) /\ 0 <= y p0 <= imageHeight (snd s).
Proof.
  intros Hnil HN Hrun.
  set (G := fun s2 : St =>
              exists p0,
                sampledList (snd s2) = [Point_list p0] /\
                processingList (snd s2) = processingList (snd s) ++ [p0] /\
                0 <= x p0 <= imageWidth (snd s) /\ 0 <= y p0 <= imageHeight (snd s)).
  assert (Hseed : forall g r (c : M unit),
             sampledList g = [] -> pointCount g <= 1 ->
             processingList g = processingList (snd s) ->
             imageWidth g = imageWidth (snd s) -> imageHeight g = imageHeight (snd s) ->
             (forall s' : St, keep_sampling (snd s') = false -> c s' = Done (tt, s')) ->
             post True (seed ;;; c) (fun _ s2 => G s2) (r, g)).
  { intros g r c Hg Hn Hp HW HH Hidle. step. apply post_seed. cbn [snd].
    intros p r' grid' Hx Hy _ _.
    unfold post. rewrite Hidle.
    - exists p. cbn [snd sampledList processingList with_lists]. rewrite Hg, Hp, <- HW, <- HH.
      split; [reflexivity |]. split; [reflexivity |]. split; assumption.
    - unfold keep_sampling. cbn [snd sampledList pointCount with_lists].
      rewrite Hg. apply andb_false_iff. right. apply Z.ltb_ge. cbn. lia. }
  change (G s1).
  destruct Hrun as [E | E].
  - refine (post_done True _ (fun _ s2 => G s2) _ _ _ _ E).
    unfold generate_sampling. destruct s as [r g]. apply Hseed; try assumption; try reflexivity.
    intros s'. apply uniform_loop_idle.
  - refine (post_done True _ (fun _ s2 => G s2) _ _ _ _ E).
    unfold generateWeighted_sampling. step. destruct s as [r g]. cbn [snd] in *.
    apply post_preprocess.
    + apply Hseed; try assumption; try reflexivity. intros s'. apply weighted_loop_idle.
    + intros w. apply Hseed; try assumption; try reflexivity.
      intros s'. apply weighted_loop_idle.
Qed.

Lemma only_seed_witness :
  exists s1,
    generate_sampling 0 (zero_tape, BlueNoiseGenerator_init 1 10 10 (ones 10 10)
                                      (grid_of (Grid_init 3 10 10)) 3 50)
      = Done (tt, s1) /\
    exists p0,
      sampledList (snd s1) = [Point_list p0] /\
      processingList (snd s1) = [] ++ [p0] /\
      0 <= x p0 <= 10 /\ 0 <= y p0 <= 10.
Proof.
  destruct (generate_sampling 0 (zero_tape, BlueNoiseGenerator_init 1 10 10 (ones 10 10)
                                   (grid_of (Grid_init 3 10 10)) 3 50))
    as [[[] s1] | e |] eqn:E.
  - exists s1. split; [reflexivity |].
    apply (only_seed_when_pointCount_le_1 0%nat
             (zero_tape, BlueNoiseGenerator_init 1 10 10 (ones 10 10)
                           (grid_of (Grid_init 3 10 10)) 3 50) s1).
    + reflexivity.
    + cbn. lia.
    + left. exact E.
  - vm_compute in E. discriminate.
  - vm_compute in E. discriminate.
Defined.

(** ** What generateBoundary appends *)

(** On an image of at least one pixel per direction and with
    [minDist > 0], [generateBoundary] leaves the processing list and the
    grid alone and appends to the sampled list points that all lie on the
    four edge lines of the image, each with its running coordinate inside
    the image. *)
Theorem generateBoundary_points_on_edges (fuel : nat) (s s1 : St) :
  (0 < self_minDist (snd s))%Q -> 1 <= imageWidth (snd s) -> 1 <= imageHeight (snd s) ->
  generateBoundary fuel s = Done (tt, s1) ->
  processingList (snd s1) = processingList (snd s) /\
  self_grid (snd s1) = self_grid (snd s) /\
  exists pts,
    sampledList (snd s1) = sampledList (snd s) ++ pts /\
    Forall (on_edge (snd s)) pts.
Proof.
  intros Hm HW HH E.
  pose proof (post_done True _ _ _ _ _
                (post_generateBoundary True fuel s (or_introl Logic.I)) E)
    as (_ & Hp & Hg & pts & Hs & Hedge).
  split; [exact Hp |]. split; [exact Hg |].
  exists pts. split; [exact Hs | apply Hedge; assumption].
Qed.

Lemma generateBoundary_points_on_edges_witness :
  exists s1,
    generateBoundary 10 (small_tape, small_gen) = Done (tt, s1) /\
    processingList (snd s1) = processingList (snd (small_tape, small_gen)) /\
    self_grid (snd s1) = self_grid (snd (small_tape, small_gen)) /\
    exists pts,
      sampledList (snd s1) = sampledList (snd (small_tape, small_gen)) ++ pts /\
      Forall (on_edge (snd (small_tape, small_gen))) pts.
Proof.
  destruct (generateBoundary 10 (small_tape, small_gen)) as [[[] s1] | e |] eqn:E.
  - exists s1. split; [reflexivity |].
    apply (generateBoundary_points_on_edges 10%nat (small_tape, small_gen) s1).
    + vm_compute. reflexivity.
    + vm_compute. discriminate.
    + vm_compute. discriminate.
    + exact E.
  - vm_compute in E. discriminate.
  - vm_compute in E. discriminate.
Defined.

(** The first turn of the perimeter walk appends the four points of the
    cursors. *)
Lemma post_boundary_loop_first (fuel : nat) (twice aspect : Q) (c : Cursors) s :
  boundary_test (snd s) c = true ->
  post True (boundary_loop fuel twice aspect c)
       (fun _ s' =>
          imageWidth (snd s') = imageWidth (snd s) /\
          imageHeight (snd s') = imageHeight (snd s) /\
          exists mid,
            sampledList (snd s') =
            sampledList (snd s)
            ++ [ (upperWidth c, 0%Q);
                 (lowerWidth c, inject_Z (imageHeight (snd s) - 1));
                 (0%Q, leftHeight c);
                 (inject_Z (imageWidth (snd s) - 1), rightHeight c) ] ++ mid) s.
Proof.
  intros Ht. destruct fuel as [| fuel]; cbn [boundary_loop].
  - step. step. rewrite Ht. exact Logic.I.
  - step. step. rewrite Ht. step. apply post_append_sampled.
    set (g := snd s) in *. cbn [fst snd imageWidth imageHeight self_minDist with_lists].
    step. apply post_uniform. intros u1 r1 _.
    step. apply post_uniform. intros u2 r2 _.
    step. apply post_uniform. intros u3 r3 _.
    step. apply post_uniform. intros u4 r4 _.
    cbn [snd].
    assert (Hgen : forall fuel0 tw c0 s0,
               post True (boundary_loop fuel0 tw aspect c0)
                    (fun _ s' => imageWidth (snd s') = imageWidth (snd s0) /\
                                 imageHeight (snd s') = imageHeight (snd s0) /\
                                 exists pts, sampledList (snd s') = sampledList (snd s0) ++ pts) s0).
    { clear. induction fuel0 as [| fuel0 IH]; intros tw c0 s0; cbn [boundary_loop].
      - step. step. destruct (boundary_test (snd s0) c0); [exact Logic.I |].
        step. repeat split. exists []. rewrite app_nil_r. reflexivity.
      - step. step. destruct (boundary_test (snd s0) c0).
        + step. apply post_append_sampled. cbn [fst snd].
          step. apply post_uniform. intros u1 r1 _.
          step. apply post_uniform. intros u2 r2 _.
          step. apply post_uniform. intros u3 r3 _.
          step. apply post_uniform. intros u4 r4 _.
          eapply post_mono; [| apply IH].
          cbn beta. cbn [snd imageWidth imageHeight sampledList with_lists].
          intros _ s' (HW & HH & pts & Hs). split; [exact HW |]. split; [exact HH |].
          eexists. rewrite Hs, <- app_assoc. reflexivity.
        + step. repeat split. exists []. rewrite app_nil_r. reflexivity. }
    eapply post_mono; [| apply Hgen].
    cbn beta. cbn [snd imageWidth imageHeight sampledList with_lists].
    intros _ s' (HW & HH & pts & Hs). split; [exact HW |]. split; [exact HH |].
    exists pts. rewrite Hs, <- app_assoc. reflexivity.
Qed.

(** On an image of at least one pixel per direction, what
    [generateBoundary] appends starts with (0, 0), (0, H-1), (0, 0),
    (W-1, 0) and ends with (W-1, 0), (W-1, H-1): the corner (0, 0) and the
    corner (W-1, 0) are appended twice, so the list that a sampler returns
    always holds repeated points. *)
Theorem generateBoundary_repeats_corners (fuel : nat) (s s1 : St) :
  1 <= imageWidth (snd s) -> 1 <= imageHeight (snd s) ->
  generateBoundary fuel s = Done (tt, s1) ->
  (exists mid,
     sampledList (snd s1) =
     sampledList (snd s)
     ++ [ (0%Q, 0%Q); (0%Q, inject_Z (imageHeight (snd s) - 1)); (0%Q, 0%Q);
          (inject_Z (imageWidth (snd s) - 1), 0%Q) ]
     ++ mid
     ++ [ (inject_Z (imageWidth (snd s) - 1), 0%Q);
          (inject_Z (imageWidth (snd s) - 1), inject_Z (imageHeight (snd s) - 1)) ]) /\
  ~ NoDup (sampledList (snd s1)).
Proof.
  intros HW HH E.
  assert (Hex : exists mid,
     sampledList (snd s1) =
     sampledList (snd s)
     ++ [ (0%Q, 0%Q); (0%Q, inject_Z (imageHeight (snd s) - 1)); (0%Q, 0%Q);
          (inject_Z (imageWidth (snd s) - 1), 0%Q) ]
     ++ mid
     ++ [ (inject_Z (imageWidth (snd s) - 1), 0%Q);
          (inject_Z (imageWidth (snd s) - 1), inject_Z (imageHeight (snd s) - 1)) ]).
  { refine (post_done True _ (fun _ s' => exists mid, sampledList (snd s') = _) _ _ _ _ E).
    unfold generateBoundary. step. step. step.
    set (g := snd s) in *.
    assert (Htest : boundary_test g (mkCursors 0 0 0 0) = true).
    { unfold boundary_test. cbn [upperWidth lowerWidth leftHeight rightHeight].
      assert (H0W : Qltb 0 (inject_Z (imageWidth g)) = true)
        by (apply Qltb_true_iff; change 0%Q with (inject_Z 0); rewrite <- Zlt_Qlt; lia).
      assert (H0H : Qltb 0 (inject_Z (imageHeight g)) = true)
        by (apply Qltb_true_iff; change 0%Q with (inject_Z 0); rewrite <- Zlt_Qlt; lia).
      rewrite H0W, H0H. reflexivity. }
    assert (Hrest : forall aspect,
      post True
        (boundary_loop fuel (2 * self_minDist g) aspect (mkCursors 0 0 0 0);;;
         g1 <- get_self;;
         append_sampled
           [(inject_Z (imageWidth g1 - 1), 0%Q);
            (inject_Z (imageWidth g1 - 1), inject_Z (imageHeight g1 - 1))])
        (fun _ s' => exists mid,
           sampledList (snd s') =
           sampledList g
           ++ [ (0%Q, 0%Q); (0%Q, inject_Z (imageHeight g - 1)); (0%Q, 0%Q);
                (inject_Z (imageWidth g - 1), 0%Q) ]
           ++ mid
           ++ [ (inject_Z (imageWidth g - 1), 0%Q);
                (inject_Z (imageWidth g - 1), inject_Z (imageHeight g - 1)) ]) s).
    { intros aspect. step.
      eapply post_mono; [| apply post_boundary_loop_first; exact Htest].
      cbn beta. fold g. cbn [upperWidth lowerWidth leftHeight rightHeight].
      intros _ s' (HW' & HH' & mid & Hs).
      step. step. apply post_append_sampled. cbn [snd sampledList with_lists].
      exists mid. rewrite Hs, HW', HH'. rewrite <- !app_assoc. reflexivity. }
    destruct (imageHeight g <? imageWidth g).
    - destruct (imageHeight g =? 0); [step | step; apply Hrest].
    - destruct (imageWidth g =? 0); [step | step; apply Hrest]. }
  split; [exact Hex |].
  destruct Hex as [mid Hs]. rewrite Hs. intros Hnd.
  apply NoDup_app_remove_l in Hnd. cbn [app] in Hnd.
  inversion Hnd as [| ? ? Hnotin _]. apply Hnotin. right. left. reflexivity.
Qed.

Lemma generateBoundary_repeats_corners_witness :
  exists s1,
    generateBoundary 10 (small_tape, small_gen) = Done (tt, s1) /\
    ~ NoDup (sampledList (snd s1)).
Proof.
  destruct (generateBoundary 10 (small_tape, small_gen)) as [[[] s1] | e |] eqn:E.
  - exists s1. split; [reflexivity |].
    apply (generateBoundary_repeats_corners 10%nat (small_tape, small_gen) s1).
    + vm_compute. discriminate.
    + vm_compute. discriminate.
    + exact E.
  - vm_compute in E. discriminate.
  - vm_compute in E. discriminate.
Defined.

(** ** The range of the colours *)

Lemma sum_bounds (lo hi : Q) (l : list Q) :
  (forall v, In v l -> lo <= v /\ v <= hi)%Q ->
  (inject_Z (Z.of_nat (length l)) * lo <= fold_right Qplus 0 l /\
   fold_right Qplus 0 l <= inject_Z (Z.of_nat (length l)) * hi)%Q.
Proof.
  induction l as [| a l IH]; intros H.
  - cbn [length fold_right]. change (inject_Z (Z.of_nat 0)) with 0%Q. split; lra.
  - cbn [length fold_right]. rewrite Nat2Z.inj_succ. unfold Z.succ.
    rewrite inject_Z_plus. change (inject_Z 1) with 1%Q.
    destruct (H a (or_introl eq_refl)) as [Ha1 Ha2].
    destruct IH as [IH1 IH2]; [intros v Hv; apply H; right; exact Hv |].
    split; lra.
Qed.

(** The mean of a non-empty column lies between its bounds. *)
Lemma np_mean_col_bounds (lo hi : Q) (l : list Q) :
  l <> [] ->
  (forall v, In v l -> lo <= v /\ v <= hi)%Q ->
  (lo <= np_mean_col l /\ np_mean_col l <= hi)%Q.
Proof.
  intros Hne H. unfold np_mean_col.
  destruct (sum_bounds lo hi l H) as [H1 H2].
  assert (Hn : (0 < inject_Z (Z.of_nat (length l)))%Q).
  { change 0%Q with (inject_Z 0). rewrite <- Zlt_Qlt.
    destruct l; [contradiction | cbn [length]; lia]. }
  split.
  - apply Qle_shift_div_l; [exact Hn |]. lra.
  - apply Qle_shift_div_r; [exact Hn |]. lra.
Qed.

Lemma In_sort_insert (a b : Q) (l : list Q) : In b (sort_insert a l) -> b = a \/ In b l.
Proof.
  induction l as [| h t IH]; cbn [sort_insert].
  - intros [<- | []]. left. reflexivity.
  - destruct (Qle_bool a h); cbn [In].
    + intros [<- | H]; auto.
    + intros [<- | H]; [auto |]. destruct (IH H); auto.
Qed.

Lemma length_sort_insert (a : Q) (l : list Q) : length (sort_insert a l) = S (length l).
Proof.
  induction l as [| h t IH]; cbn [sort_insert]; [reflexivity |].
  destruct (Qle_bool a h); cbn [length]; [reflexivity | now rewrite IH].
Qed.

Lemma In_np_sort (b : Q) (l : list Q) : In b (np_sort l) -> In b l.
Proof.
  unfold np_sort. induction l as [| a l IH]; cbn [fold_right]; [trivial |].
  intros H. apply In_sort_insert in H as [-> | H]; [left; reflexivity | right; apply IH, H].
Qed.

Lemma length_np_sort (l : list Q) : length (np_sort l) = length l.
Proof.
  unfold np_sort. induction l as [| a l IH]; cbn [fold_right length]; [reflexivity |].
  rewrite length_sort_insert. now rewrite IH.
Qed.

(** The median of a non-empty column lies between its bounds. *)
Lemma np_median_col_bounds (lo hi : Q) (l : list Q) :
  l <> [] ->
  (forall v, In v l -> lo <= v /\ v <= hi)%Q ->
  (lo <= np_median_col l /\ np_median_col l <= hi)%Q.
Proof.
  intros Hne H. unfold np_median_col.
  assert (Hlen : (0 < length l)%nat) by (destruct l; [contradiction | cbn; lia]).
  assert (Hnth : forall k, (k < length l)%nat ->
             (lo <= nth k (np_sort l) 0 /\ nth k (np_sort l) 0 <= hi)%Q).
  { intros k Hk. apply H, In_np_sort, nth_In. rewrite length_np_sort. exact Hk. }
  assert (Hhalf : (length l / 2 < length l)%nat) by (apply Nat.div_lt; lia).
  destruct (Nat.even (length l)).
  - destruct (Hnth (length l / 2 - 1)%nat ltac:(lia)) as [A1 A2].
    destruct (Hnth (length l / 2)%nat Hhalf) as [B1 B2].
    split.
    + apply Qle_shift_div_l; [reflexivity | lra].
    + apply Qle_shift_div_r; [reflexivity | lra].
  - apply Hnth. exact Hhalf.
Qed.

Lemma covered_incl (image : Image) (triangulation : Triangulation) (t : Z) :
  incl (covered image triangulation t) (all_pixels image).
Proof.
  intros c Hc. unfold covered in Hc. apply in_map_iff in Hc as [[k c'] [<- Hin]].
  apply filter_In in Hin as [Hin _]. unfold frame in Hin.
  apply in_map_iff in Hin as [xy [[= _ <-] Hxy]].
  unfold all_pixels. apply in_map_iff. exists xy. split; [reflexivity | exact Hxy].
Qed.

(** When every channel of every pixel lies in [[0, 256)], every channel of
    every colour that [calculateTriColors] returns with the mean or with
    the median lies in [[0, 1)]. *)
Theorem calculateTriColors_in_unit_range (image : Image) (triangulation : Triangulation)
    (f : list Q -> Q) (c : Color) :
  f = np_mean_col \/ f = np_median_col ->
  (forall p, In p (all_pixels image) ->
     0 <= red p /\ red p <= 255 /\ 0 <= green p /\ green p <= 255 /\
     0 <= blue p /\ blue p <= 255)%Q ->
  In c (calculateTriColors image triangulation f) ->
  (0 <= red c /\ red c < 1 /\ 0 <= green c /\ green c < 1 /\ 0 <= blue c /\ blue c < 1)%Q.
Proof.
  intros Hf Hpix Hin.
  apply In_nth_error in Hin as [t Ht].
  assert (Hlt : (t < length (simplices triangulation))%nat).
  { rewrite <- (calculateTriColors_length image triangulation f).
    apply nth_error_Some. rewrite Ht. discriminate. }
  rewrite (calculateTriColors_nth image triangulation f t Hlt) in Ht.
  injection Ht as <-.
  pose proof (covered_incl image triangulation (Z.of_nat t)) as Hincl.
  destruct (covered image triangulation (Z.of_nat t)) as [| c0 cs] eqn:Ecov.
  - cbn [red green blue fst snd]. repeat split; unfold Qdiv; try lra;
      (setoid_replace (0 * / 256)%Q with 0%Q by ring); lra.
  - set (l := c0 :: cs) in *.
    assert (Hb : forall (ch : Color -> Q),
               (forall p, In p (all_pixels image) -> 0 <= ch p /\ ch p <= 255)%Q ->
               (0 <= f (map ch l) / 256 /\ f (map ch l) / 256 < 1)%Q).
    { intros ch Hch.
      assert (Hne : map ch l <> []) by (unfold l; discriminate).
      assert (Hall : (forall v, In v (map ch l) -> 0 <= v /\ v <= 255)%Q).
      { intros v Hv. apply in_map_iff in Hv as [p [<- Hp]]. apply Hch, Hincl, Hp. }
      assert (Hfb : (0 <= f (map ch l) /\ f (map ch l) <= 255)%Q).
      { destruct Hf as [-> | ->];
          [apply np_mean_col_bounds | apply np_median_col_bounds]; assumption. }
      destruct Hfb as [F1 F2]. split.
      - apply Qle_shift_div_l; [reflexivity | lra].
      - apply Qlt_shift_div_r; [reflexivity | lra]. }
    cbn [red green blue fst snd].
    destruct (Hb red) as [R1 R2]; [intros p Hp; destruct (Hpix p Hp); tauto |].
    destruct (Hb green) as [G1 G2]; [intros p Hp; destruct (Hpix p Hp); tauto |].
    destruct (Hb blue) as [B1 B2]; [intros p Hp; destruct (Hpix p Hp); tauto |].
    repeat split; assumption.
Qed.

Lemma calculateTriColors_in_unit_range_witness :
  Forall (fun c =>
            0 <= red c /\ red c < 1 /\ 0 <= green c /\ green c < 1 /\
            0 <= blue c /\ blue c < 1)%Q
         (calculateTriColors strip3 one_simplex np_median_col).
Proof.
  apply Forall_forall. intros c.
  apply (calculateTriColors_in_unit_range strip3 one_simplex np_median_col c).
  - right. reflexivity.
  - intros p Hp. cbn in Hp.
    destruct Hp as [<- | [<- | [<- | []]]]; cbn; repeat split; discriminate.
Defined.

(** ** The target count of the script *)

Lemma int_trunc_floor (q : Q) : (0 <= q)%Q -> int_trunc q = Qfloor q.
Proof.
  destruct q as [n d]. unfold Qle, int_trunc, Qfloor. cbn [Qnum Qden]. intros H.
  apply Z.quot_div_nonneg; lia.
Qed.

(** The target count that the script asks for,
    [int(imageWidth * imageHeight / cellSize ** 2)], is never negative and
    never larger than the number of cells of the grid. *)
Theorem numPoints_at_most_cells (m : Q) (W H : Z) (g : Grid) :
  (0 < m)%Q -> 1 <= W -> 1 <= H ->
  Grid_init m W H = inr g ->
  0 <= numPoints g W H <= width g * height g /\
  py_len (grid g) = width g * height g.
Proof.
  intros Hm HW HH Hinit.
  pose proof (Grid_init_shape m W H g Hm HW HH Hinit) as Hs.
  unfold shape in Hs. injection Hs as Hmin Hwid Hhei Hlen.
  destruct (div_cellSize_bounds m W Hm ltac:(lia)) as (Hkw & _ & Hw2).
  destruct (div_cellSize_bounds m H Hm ltac:(lia)) as (Hkh & _ & Hh2).
  rewrite <- Hwid in Hw2. rewrite <- Hhei in Hh2.
  assert (Ha : 0 < Qnum m) by (unfold Qlt in Hm; cbn in Hm; lia).
  pose proof (Pos2Z.is_pos (Qden m)) as Hb.
  assert (Hw0 : 1 <= width g) by lia. assert (Hh0 : 1 <= height g) by lia.
  split.
  - unfold numPoints. rewrite Hmin.
    set (q := (inject_Z (W * H) / (m * m / 2))%Q).
    assert (Hmm : (0 < m * m / 2)%Q) by (apply Qlt_shift_div_l; [reflexivity | nra]).
    assert (HWH : (0 < inject_Z (W * H))%Q)
      by (change 0%Q with (inject_Z 0); rewrite <- Zlt_Qlt; apply Z.mul_pos_pos; lia).
    assert (Hq0 : (0 <= q)%Q) by (unfold q; apply Qle_shift_div_l; [exact Hmm | lra]).
    rewrite (int_trunc_floor q Hq0). split.
    + change 0 with (Qfloor 0). apply Qfloor_resp_le. exact Hq0.
    + rewrite <- (Qfloor_Z (width g * height g)). apply Qfloor_resp_le.
      unfold q. apply Qle_shift_div_r; [exact Hmm |].
      assert (Hkey : (inject_Z (2 * (W * H)) < inject_Z (width g * height g) * (m * m))%Q).
      { apply sq_lt_minDist.
        set (A := width g * Qnum m) in *. set (B := height g * Qnum m) in *.
        set (P := W * QDen m) in *. set (R := H * QDen m) in *.
        assert (HP : 0 < P) by (unfold P; apply Z.mul_pos_pos; lia).
        assert (HR : 0 < R) by (unfold R; apply Z.mul_pos_pos; lia).
        assert (HA : 0 < A) by (unfold A; apply Z.mul_pos_pos; lia).
        assert (HB : 0 < B) by (unfold B; apply Z.mul_pos_pos; lia).
        assert (Hprod : (2 * P ^ 2) * (2 * R ^ 2) < A ^ 2 * B ^ 2).
        { apply Z.mul_lt_mono_nonneg;
            [pose proof (Z.pow_nonneg P 2); lia | exact Hw2
            | pose proof (Z.pow_nonneg R 2); lia | exact Hh2]. }
        assert (Hsq : (2 * (P * R)) ^ 2 < (A * B) ^ 2).
        { replace ((2 * (P * R)) ^ 2) with ((2 * P ^ 2) * (2 * R ^ 2)) by ring.
          replace ((A * B) ^ 2) with (A ^ 2 * B ^ 2) by ring. exact Hprod. }
        assert (Hlin : 2 * (P * R) < A * B).
        { apply sq_lt_lin; [apply Z.mul_nonneg_nonneg; lia | exact Hsq]. }
        replace (2 * (W * H) * QDen m ^ 2) with (2 * (P * R)) by (unfold P, R; ring).
        replace (width g * height g * Qnum m ^ 2) with (A * B) by (unfold A, B; ring).
        exact Hlin. }
      rewrite inject_Z_mult in Hkey. change (inject_Z 2) with 2%Q in Hkey.
      set (Y := (inject_Z (width g * height g) * (m * m))%Q) in *.
      setoid_replace (inject_Z (width g * height g) * (m * m / 2))%Q with (Y / 2)%Q
        by (unfold Y; field).
      apply Qle_shift_div_l; [reflexivity | lra].
  - unfold py_len. rewrite Hlen, Hwid, Hhei.
    rewrite Z2Nat.id by (apply Z.mul_nonneg_nonneg; lia). reflexivity.
Qed.

Lemma numPoints_at_most_cells_witness :
  0 <= numPoints (grid_of (Grid_init 10 100 100)) 100 100
    <= width (grid_of (Grid_init 10 100 100)) * height (grid_of (Grid_init 10 100 100)) /\
  py_len (grid (grid_of (Grid_init 10 100 100)))
    = width (grid_of (Grid_init 10 100 100)) * height (grid_of (Grid_init 10 100 100)).
Proof.
  apply (numPoints_at_most_cells 10 100 100 (grid_of (Grid_init 10 100 100))).
  - reflexivity.
  - lia.
  - lia.
  - reflexivity.
Defined.

(** ** Runs that return *)

Section ReturnsRules.
Context {A B : Type}.

Lemma returns_ret (a : A) (K : A -> St -> Prop) s : K a s -> returns (ret a) K s.
Proof. exact (fun H => H). Qed.

Lemma returns_bind (c : M A) (k : A -> M B) (K : B -> St -> Prop) s :
  returns c (fun a s' => returns (k a) K s') s -> returns (bind c k) K s.
Proof. unfold returns, bind. destruct (c s) as [[a s'] | e |]; auto. Qed.

Lemma returns_mono (c : M A) (K K' : A -> St -> Prop) s :
  (forall a s', K a s' -> K' a s') -> returns c K s -> returns c K' s.
Proof. unfold returns. destruct (c s) as [[a s'] | e |]; auto. Qed.

Lemma returns_lift (r : exn + A) (a : A) (K : A -> St -> Prop) s :
  r = inr a -> K a s -> returns (lift r) K s.
Proof. intros -> H. exact H. Qed.

Lemma returns_done (c : M A) (K : A -> St -> Prop) s :
  returns c K s -> exists a s', c s = Done (a, s') /\ K a s'.
Proof.
  unfold returns. destruct (c s) as [[a s'] | e |]; [| contradiction | contradiction].
  intros H. exists a, s'. split; [reflexivity | exact H].
Qed.
End ReturnsRules.

Lemma returns_get_self (K : BlueNoiseGenerator -> St -> Prop) s :
  K (snd s) s -> returns get_self K s.
Proof. exact (fun H => H). Qed.

Lemma returns_set_self g (K : unit -> St -> Prop) s :
  K tt (fst s, g) -> returns (set_self g) K s.
Proof. exact (fun H => H). Qed.

Ltac rstep :=
  cbv beta;
  lazymatch goal with
  | |- returns (bind _ _) _ _ => apply returns_bind
  | |- returns (ret _) _ _ => apply returns_ret
  | |- returns get_self _ _ => apply returns_get_self
  | |- returns (set_self _) _ _ => apply returns_set_self
  end; cbv beta.

Lemma returns_random (K : Q -> St -> Prop) s :
  (forall u r', (0 <= u < 1)%Q -> K u (r', snd s)) -> returns random K s.
Proof. intros H. unfold returns, random. apply H, frac_range. Qed.

Lemma returns_randint (a b : Z) (K : Z -> St -> Prop) s :
  a <= b ->
  (forall v r', a <= v <= b -> K v (r', snd s)) -> returns (randint a b) K s.
Proof.
  intros Hab H. unfold randint. destruct (b <? a) eqn:E; [apply Z.ltb_lt in E; lia |].
  rstep. apply returns_random. intros u r' Hu. rstep.
  apply H. pose proof (scaled_floor_range u (b - a + 1) Hu). lia.
Qed.

Lemma returns_uniform (a b : Q) (K : Q -> St -> Prop) s :
  (forall u r', (0 <= u < 1)%Q -> K (a + (b - a) * u)%Q (r', snd s)) ->
  returns (uniform a b) K s.
Proof.
  intros H. unfold uniform. rstep. apply returns_random. intros u r' Hu. rstep. now apply H.
Qed.

Lemma returns_generateRandomPointAround (parent : Point) (m : Q) (K : Point -> St -> Prop) s :
  (forall p r', K p (r', snd s)) -> returns (generateRandomPointAround parent m) K s.
Proof.
  intros H. unfold generateRandomPointAround.
  rstep. apply returns_random. intros r1 ra _.
  rstep. apply returns_random. intros r2 rb _. rstep. apply H.
Qed.

Lemma py_pop_ok {A} (l : list A) (i : Z) :
  0 <= i < py_len l ->
  exists a rest, py_pop l i = inr (a, rest) /\ (length rest + 1 = length l)%nat.
Proof.
  unfold py_len. intros Hi. unfold py_pop, py_index.
  replace ((0 <=? i) && (i <? Z.of_nat (length l))) with true
    by (symmetry; apply andb_true_intro; split; [apply Z.leb_le | apply Z.ltb_lt]; lia).
  destruct (nth_error l (Z.to_nat i)) as [a |] eqn:E.
  - exists a, (remove_nth l (Z.to_nat i)). split; [reflexivity |].
    apply length_remove_nth. lia.
  - apply nth_error_None in E. lia.
Qed.

Lemma returns_pop_random (K : Point -> St -> Prop) s :
  processingList (snd s) <> [] ->
  (forall rp r' rest,
      (length rest + 1 = length (processingList (snd s)))%nat ->
      K rp (r', with_lists (snd s) (self_grid (snd s)) (sampledList (snd s)) rest)) ->
  returns pop_random K s.
Proof.
  intros Hne H. unfold pop_random. rstep. rstep.
  assert (Hlen : 0 <= py_len (processingList (snd s)) - 1).
  { unfold py_len. destruct (processingList (snd s)); [contradiction | cbn [length]; lia]. }
  rstep. apply returns_randint; [exact Hlen |]. intros i r' Hi. rstep. rstep. cbn [snd].
  destruct (py_pop_ok (processingList (snd s)) i ltac:(lia)) as (a & rest & Hpop & Hl).
  rstep. eapply returns_lift; [exact Hpop |]. rstep. rstep. rstep. cbn [fst snd].
  apply H. exact Hl.
Qed.

Lemma well_formed_with_lists g grid' sampled processing :
  well_formed g -> shape grid' = shape (self_grid g) ->
  well_formed (with_lists g grid' sampled processing).
Proof.
  intros (Hm & HW & HH & He & g0 & Hinit & Hs) Hshape.
  unfold well_formed. cbn [self_minDist imageWidth imageHeight edgeThreshold self_grid with_lists].
  repeat split; try assumption. exists g0. split; [exact Hinit | congruence].
Qed.

(** On a well-formed object, inserting a point of the image succeeds. *)
Lemma well_formed_insert (g : BlueNoiseGenerator) (p : Point) :
  well_formed g -> 0 <= x p <= imageWidth g -> 0 <= y p <= imageHeight g ->
  exists grid', insert (self_grid g) p = inr grid' /\ shape grid' = shape (self_grid g).
Proof.
  intros (Hm & HW & HH & He & g0 & Hinit & Hs) Hx Hy.
  destruct (insert_in_image _ _ _ g0 (self_grid g) p Hm HW HH Hinit Hs Hx Hy)
    as (grid' & Hins & Hshape & _).
  exists grid'. split; [exact Hins | congruence].
Qed.

Lemma in_bounds_inside (g : BlueNoiseGenerator) (p : Point) :
  (0 <= edgeThreshold g)%Q -> in_bounds g p = true ->
  0 <= x p <= imageWidth g /\ 0 <= y p <= imageHeight g.
Proof.
  intros He Hb. unfold in_bounds in Hb.
  apply andb_prop in Hb as [Hb H4]. apply andb_prop in Hb as [Hb H3].
  apply andb_prop in Hb as [H1 H2].
  apply Qltb_true_iff in H1, H2, H3, H4.
  assert (Hx0 : (inject_Z 0 < inject_Z (x p))%Q) by (change (inject_Z 0) with 0%Q; lra).
  assert (Hx1 : (inject_Z (x p) < inject_Z (imageWidth g))%Q) by lra.
  assert (Hy0 : (inject_Z 0 < inject_Z (y p))%Q) by (change (inject_Z 0) with 0%Q; lra).
  assert (Hy1 : (inject_Z (y p) < inject_Z (imageHeight g))%Q) by lra.
  rewrite <- Zlt_Qlt in Hx0, Hx1, Hy0, Hy1. lia.
Qed.

Lemma returns_uniform_candidates (n : nat) (rp : Point) s :
  well_formed (snd s) ->
  returns (uniform_candidates n rp)
          (fun _ s' => well_formed (snd s') /\ exists a, (a <= n)%nat /\ grew a (snd s) (snd s')) s.
Proof.
  revert s. induction n as [| n IH]; intros s Hwf; cbn [uniform_candidates].
  - rstep. split; [exact Hwf |]. exists 0%nat. split; [lia | apply grew_refl].
  - rstep. rstep. rstep.
    apply returns_generateRandomPointAround. intros p r'.
    rstep. rstep. cbn [snd]. rstep.
    destruct (in_bounds (snd s) p && negb (checkInNeighborhood (self_grid (snd s)) p)) eqn:E.
    + apply andb_prop in E as [Eb _].
      destruct Hwf as (Hm & HW & HH & He & Hg0).
      destruct (in_bounds_inside _ _ He Eb) as [Hx Hy].
      destruct (well_formed_insert (snd s) p (conj Hm (conj HW (conj HH (conj He Hg0)))) Hx Hy)
        as (grid' & Hins & Hshape).
      unfold accept. rstep. rstep. cbn [snd]. rstep.
      eapply returns_lift; [exact Hins |]. rstep. cbn [fst snd].
      eapply returns_mono; [| apply IH].
      * cbn beta. cbn [snd]. intros _ s' (Hwf' & a & Ha & Hg). split; [exact Hwf' |].
        exists (1 + a)%nat. split; [lia |].
        eapply grew_trans; [apply grew_accept | exact Hg].
      * cbn [snd]. apply well_formed_with_lists; [| exact Hshape].
        exact (conj Hm (conj HW (conj HH (conj He Hg0)))).
    + rstep. eapply returns_mono; [| apply IH; exact Hwf].
      cbn beta. cbn [snd]. intros _ s' (Hwf' & a & Ha & Hg). split; [exact Hwf' |].
      exists a. split; [lia | exact Hg].
Qed.

Lemma well_formed_params (g g' : BlueNoiseGenerator) :
  params g' = params g -> shape (self_grid g') = shape (self_grid g) ->
  well_formed g -> well_formed g'.
Proof.
  unfold params. intros [= _ _ HH HW _ Hm _ He] Hs (H1 & H2 & H3 & H4 & g0 & Hinit & Hs0).
  unfold well_formed. rewrite HH, HW, Hm, He.
  repeat split; try assumption. exists g0. split; [exact Hinit | congruence].
Qed.

Lemma returns_uniform_loop (fuel : nat) s :
  well_formed (snd s) ->
  (loop_fuel (Z.to_nat (newPointsToGenerate (snd s))) (snd s) <= fuel)%nat ->
  returns (uniform_loop fuel)
          (fun _ s' => well_formed (snd s') /\ params (snd s') = params (snd s)) s.
Proof.
  revert s. induction fuel as [| fuel IH]; intros s Hwf Hfuel; cbn [uniform_loop].
  - rstep. rstep. destruct (keep_sampling (snd s)) eqn:Ek.
    + exfalso. unfold keep_sampling in Ek. apply andb_prop in Ek as [Hp _].
      apply Z.ltb_lt in Hp. unfold loop_fuel, py_len in Hfuel, Hp.
      destruct (processingList (snd s)); cbn [length] in *; [lia |].
      apply Nat.le_0_r in Hfuel. discriminate.
    + rstep. split; [exact Hwf | reflexivity].
  - rstep. rstep. destruct (keep_sampling (snd s)) eqn:Ek.
    + rstep. unfold uniform_step. rstep. rstep. rstep.
      assert (Hne : processingList (snd s) <> []).
      { unfold keep_sampling in Ek. apply andb_prop in Ek as [Hp _]. apply Z.ltb_lt in Hp.
        intros Hnil. rewrite Hnil in Hp. cbn in Hp. lia. }
      apply returns_pop_random; [exact Hne |]. intros rp r' rest Hlen.
      eapply returns_mono; [| apply returns_uniform_candidates].
      * cbn beta. cbn [snd]. intros _ s1 (Hwf1 & a & Ha & (P & S & L)).
        cbn [sampledList processingList with_lists] in S, L.
        assert (Hstep : stepped a (snd s) (snd s1)).
        { unfold stepped. split; [rewrite P; reflexivity |]. split; [exact S | lia]. }
        pose proof (loop_fuel_decreases _ a _ _ Ek Ha Hstep) as Hdec.
        assert (HK : newPointsToGenerate (snd s1) = newPointsToGenerate (snd s)).
        { destruct Hstep as (P' & _). unfold params in P'. congruence. }
        eapply returns_mono; [| apply IH; [exact Hwf1 | rewrite HK; lia]].
        cbn beta. intros _ s2 (Hwf2 & P2). split; [exact Hwf2 |].
        destruct Hstep as (P' & _). congruence.
      * cbn [snd]. apply well_formed_with_lists; [exact Hwf | reflexivity].
    + rstep. split; [exact Hwf | reflexivity].
Qed.

Lemma returns_seed (K : Point -> St -> Prop) s :
  well_formed (snd s) ->
  (forall p r' grid',
      shape grid' = shape (self_grid (snd s)) ->
      K p (r', with_lists (snd s) grid' (sampledList (snd s) ++ [Point_list p])
                          (processingList (snd s) ++ [p]))) ->
  returns seed K s.
Proof.
  intros Hwf H. unfold seed. rstep. rstep. rstep.
  pose proof Hwf as (Hm & HW & HH & He & Hg0).
  apply returns_randint; [lia |]. intros sx r1 Hx. rstep.
  apply returns_randint; [lia |]. intros sy r2 Hy. rstep. cbn [snd].
  destruct (well_formed_insert (snd s) (newPoint sx sy) Hwf) as (grid' & Hins & Hshape);
    [cbn [x newPoint]; lia | cbn [y newPoint]; lia |].
  eapply returns_lift; [exact Hins |]. rstep. rstep. rstep. cbn [fst snd].
  apply H. exact Hshape.
Qed.

Lemma returns_append_sampled (pts : list (Q * Q)) (K : unit -> St -> Prop) s :
  K tt (fst s, with_lists (snd s) (self_grid (snd s)) (sampledList (snd s) ++ pts)
                          (processingList (snd s))) ->
  returns (append_sampled pts) K s.
Proof. intros H. unfold append_sampled. rstep. rstep. rstep. exact H. Qed.

Lemma returns_boundary_loop (fuel : nat) (aspect : Q) (c : Cursors) s :
  (boundary_fuel (snd s) (upperWidth c) <= fuel)%nat ->
  (0 < self_minDist (snd s))%Q -> (1 <= aspect)%Q ->
  returns (boundary_loop fuel (2 * self_minDist (snd s)) aspect c)
          (fun _ s' => imageWidth (snd s') = imageWidth (snd s) /\
                       imageHeight (snd s') = imageHeight (snd s)) s.
Proof.
  revert c s. induction fuel as [| fuel IH]; intros c s Hfuel Hm Ha; cbn [boundary_loop].
  - rstep. rstep. destruct (boundary_test (snd s) c) eqn:Et.
    + exfalso. unfold boundary_test in Et.
      apply andb_prop in Et as [Et _]. apply andb_prop in Et as [Et _].
      apply andb_prop in Et as [_ Et]. apply Qltb_true_iff in Et.
      pose proof (boundary_fuel_decreases (snd s) (upperWidth c) (self_minDist (snd s))
                    Hm Et (Qle_refl _)). lia.
    + rstep. split; reflexivity.
  - rstep. rstep. destruct (boundary_test (snd s) c) eqn:Et.
    + unfold boundary_test in Et.
      apply andb_prop in Et as [Et _]. apply andb_prop in Et as [Et _].
      apply andb_prop in Et as [_ Hup]. apply Qltb_true_iff in Hup.
      rstep. apply returns_append_sampled. set (g := snd s) in *.
      cbn [fst snd imageWidth imageHeight self_minDist with_lists].
      rstep. apply returns_uniform. intros u1 r1 Hu1.
      rstep. apply returns_uniform. intros u2 r2 Hu2.
      rstep. apply returns_uniform. intros u3 r3 Hu3.
      rstep. apply returns_uniform. intros u4 r4 Hu4.
      cbn [snd].
      match goal with
      | |- returns (boundary_loop _ _ _ ?c') _ ?s2 => pose proof (IH c' s2) as IH2
      end.
      cbn [snd self_minDist imageWidth imageHeight with_lists upperWidth] in IH2.
      apply IH2; [| exact Hm | exact Ha].
      assert (Hd : (self_minDist g <=
                    (if imageHeight g <? imageWidth g then self_minDist g * aspect
                     else self_minDist g)
                    + ((if imageHeight g <? imageWidth g then 2 * self_minDist g * aspect
                        else 2 * self_minDist g)
                       - (if imageHeight g <? imageWidth g then self_minDist g * aspect
                          else self_minDist g)) * u1)%Q).
      { destruct Hu1 as [Hu1 _].
        eapply Qle_trans; [| apply uniform_delta_ge; [exact Hu1 |]];
          destruct (imageHeight g <? imageWidth g); nra || lra. }
      pose proof (boundary_fuel_decreases g (upperWidth c) _ Hm Hup Hd) as Hdec.
      unfold boundary_fuel in *. cbn [imageWidth self_minDist with_lists]. lia.
    + rstep. split; reflexivity.
Qed.

Lemma returns_generateBoundary (fuel : nat) s :
  (boundary_fuel (snd s) 0 <= fuel)%nat ->
  (0 < self_minDist (snd s))%Q -> 1 <= imageWidth (snd s) -> 1 <= imageHeight (snd s) ->
  returns (generateBoundary fuel) (fun _ _ => True) s.
Proof.
  intros Hfuel Hm HW HH. unfold generateBoundary. rstep. rstep. rstep.
  set (g := snd s) in *.
  assert (Hasp : forall aspect, (1 <= aspect)%Q ->
    returns
      (boundary_loop fuel (2 * self_minDist g) aspect (mkCursors 0 0 0 0);;;
       g1 <- get_self;;
       append_sampled
         [(inject_Z (imageWidth g1 - 1), 0%Q);
          (inject_Z (imageWidth g1 - 1), inject_Z (imageHeight g1 - 1))])
      (fun _ _ => True) s).
  { intros aspect Ha. rstep.
    eapply returns_mono; [| apply (returns_boundary_loop fuel aspect (mkCursors 0 0 0 0) s);
                            assumption].
    cbn beta. intros _ s1 _. rstep. rstep. apply returns_append_sampled. exact Logic.I. }
  destruct (imageHeight g <? imageWidth g) eqn:Ewide.
  - apply Z.ltb_lt in Ewide. destruct (imageHeight g =? 0) eqn:E0.
    + apply Z.eqb_eq in E0. lia.
    + rstep. apply Hasp. apply aspect_ge_1; lia.
  - apply Z.ltb_ge in Ewide. destruct (imageWidth g =? 0) eqn:E0.
    + apply Z.eqb_eq in E0. lia.
    + rstep. apply Hasp. apply aspect_ge_1; lia.
Qed.



(** ** generateWeighted returns *)

Lemma py_getitem_ok {A} (l : list A) (i : Z) :
  0 <= i < py_len l -> exists a, py_getitem l i = inr a /\ In a l.
Proof.
  unfold py_len. intros Hi. unfold py_getitem, py_index.
  replace ((0 <=? i) && (i <? Z.of_nat (length l))) with true
    by (symmetry; apply andb_true_intro; split; [apply Z.leb_le | apply Z.ltb_lt]; lia).
  destruct (nth_error l (Z.to_nat i)) as [a |] eqn:E.
  - exists a. split; [reflexivity | eapply nth_error_In; exact E].
  - apply nth_error_None in E. lia.
Qed.

(** The importance of a pixel strictly inside the image is there. *)
Lemma weight_at_ok (g : BlueNoiseGenerator) (p : Point) :
  weighted_ready g ->
  0 <= x p < imageWidth g -> 0 <= y p < imageHeight g ->
  exists w, weight_at g p = inr w.
Proof.
  intros (_ & rows & Hw & Hlen & Hrows) Hx Hy. unfold weight_at. rewrite Hw.
  destruct (py_getitem_ok rows (y p)) as (row & Hrow & Hin); [unfold py_len; lia |].
  rewrite Hrow. rewrite Forall_forall in Hrows. specialize (Hrows row Hin).
  destruct (py_getitem_ok row (x p)) as (w & Hget & _); [unfold py_len; lia |].
  exists w. exact Hget.
Qed.

Lemma in_bounds_strictly_inside (g : BlueNoiseGenerator) (p : Point) :
  (0 <= edgeThreshold g)%Q -> in_bounds g p = true ->
  0 < x p < imageWidth g /\ 0 < y p < imageHeight g.
Proof.
  intros He Hb. unfold in_bounds in Hb.
  apply andb_prop in Hb as [Hb H4]. apply andb_prop in Hb as [Hb H3].
  apply andb_prop in Hb as [H1 H2].
  apply Qltb_true_iff in H1, H2, H3, H4.
  assert (Hx0 : (inject_Z 0 < inject_Z (x p))%Q) by (change (inject_Z 0) with 0%Q; lra).
  assert (Hx1 : (inject_Z (x p) < inject_Z (imageWidth g))%Q) by lra.
  assert (Hy0 : (inject_Z 0 < inject_Z (y p))%Q) by (change (inject_Z 0) with 0%Q; lra).
  assert (Hy1 : (inject_Z (y p) < inject_Z (imageHeight g))%Q) by lra.
  rewrite <- Zlt_Qlt in Hx0, Hx1, Hy0, Hy1. lia.
Qed.

Lemma weighted_ready_with_lists g grid' sampled processing :
  weighted_ready g -> shape grid' = shape (self_grid g) ->
  weighted_ready (with_lists g grid' sampled processing).
Proof.
  intros (Hwf & w & Hw & Hfit) Hshape. split.
  - apply well_formed_with_lists; assumption.
  - exists w. split; [exact Hw | exact Hfit].
Qed.

Lemma returns_weighted_candidates (n : nat) (rp : Point) (q0 : list Point) s :
  weighted_ready (snd s) ->
  Forall (fun c => in_bounds (snd s) c = true) q0 ->
  returns (weighted_candidates n rp q0)
          (fun q1 s' => snd s' = snd s /\ Forall (fun c => in_bounds (snd s) c = true) q1) s.
Proof.
  revert q0 s. induction n as [| n IH]; intros q0 s Hr Hq; cbn [weighted_candidates].
  - rstep. split; [reflexivity | exact Hq].
  - rstep. rstep. rstep.
    apply returns_generateRandomPointAround. intros p r'.
    rstep. rstep. cbn [snd]. rstep.
    destruct (in_bounds (snd s) p) eqn:Eb.
    + pose proof Hr as ((_ & _ & _ & He & _) & _).
      destruct (in_bounds_strictly_inside _ _ He Eb) as [Hx Hy].
      destruct (weight_at_ok (snd s) p Hr ltac:(lia) ltac:(lia)) as (w & Hw).
      rstep. eapply returns_lift; [exact Hw |]. rstep.
      eapply returns_mono; [| apply IH; [exact Hr |]].
      * cbn beta. cbn [snd]. intros q1 s' Hpost. exact Hpost.
      * cbn [snd]. eapply Permutation_Forall; [symmetry; apply pq_put_perm |].
        constructor; [exact Eb | exact Hq].
    + rstep. eapply returns_mono; [| apply IH; [exact Hr | exact Hq]].
      cbn beta. cbn [snd]. intros q1 s' Hpost. exact Hpost.
Qed.

Lemma returns_drain (q : list Point) s :
  weighted_ready (snd s) ->
  Forall (fun c => in_bounds (snd s) c = true) q ->
  returns (drain q)
          (fun q' s' => weighted_ready (snd s') /\
                        Forall (fun c => in_bounds (snd s) c = true) q' /\
                        params (snd s') = params (snd s) /\
                        exists a, (a <= 1)%nat /\
                          length (sampledList (snd s')) = (length (sampledList (snd s)) + a)%nat /\
                          length (processingList (snd s'))
                            = (length (processingList (snd s)) + a)%nat) s.
Proof.
  induction q as [| h t IH]; intros Hr Hq; cbn [drain].
  - rstep. split; [exact Hr |]. split; [constructor |]. split; [reflexivity |].
    exists 0%nat. repeat split; lia.
  - inversion Hq as [| ? ? Hh Ht]; subst.
    rstep. rstep. destruct (checkInNeighborhood (self_grid (snd s)) h) eqn:E; cbn [negb].
    + apply IH; assumption.
    + pose proof Hr as (Hwf & _). pose proof Hwf as (_ & _ & _ & He & _).
      destruct (in_bounds_inside _ _ He Hh) as [Hx Hy].
      destruct (well_formed_insert (snd s) h Hwf Hx Hy) as (grid' & Hins & Hshape).
      rstep. unfold accept. rstep. rstep. cbn [snd]. rstep.
      eapply returns_lift; [exact Hins |]. rstep. cbn [fst snd]. rstep. cbn [snd].
      split; [apply weighted_ready_with_lists; assumption |].
      split; [exact Ht |]. split; [reflexivity |].
      exists 1%nat. cbn [sampledList processingList with_lists]. rewrite !length_app.
      cbn [length]. repeat split; lia.
Qed.

Lemma weighted_ready_params (g g' : BlueNoiseGenerator) :
  params g' = params g -> shape (self_grid g') = shape (self_grid g) ->
  weighted_ready g -> weighted_ready g'.
Proof.
  intros P Hs (Hwf & w & Hw & Hlen & Hrows). split.
  - eapply well_formed_params; eassumption.
  - unfold params in P. injection P as _ _ HH HW _ _ HI _.
    exists w. split; [congruence |]. unfold surface_fits. rewrite HH, HW. split; assumption.
Qed.

Lemma returns_weighted_loop (fuel : nat) (q : list Point) s :
  weighted_ready (snd s) ->
  Forall (fun c => in_bounds (snd s) c = true) q ->
  (loop_fuel 1 (snd s) <= fuel)%nat ->
  returns (weighted_loop fuel q) (fun _ s' => params (snd s') = params (snd s)) s.
Proof.
  revert q s. induction fuel as [| fuel IH]; intros q s Hr Hq Hfuel; cbn [weighted_loop].
  - rstep. rstep. destruct (keep_sampling (snd s)) eqn:Ek.
    + exfalso. unfold keep_sampling in Ek. apply andb_prop in Ek as [Hp _].
      apply Z.ltb_lt in Hp. unfold loop_fuel, py_len in Hfuel, Hp.
      destruct (processingList (snd s)); cbn [length] in *; [lia |].
      apply Nat.le_0_r in Hfuel. discriminate.
    + rstep. reflexivity.
  - rstep. rstep. destruct (keep_sampling (snd s)) eqn:Ek.
    + rstep. unfold weighted_step. rstep. rstep. rstep.
      assert (Hne : processingList (snd s) <> []).
      { unfold keep_sampling in Ek. apply andb_prop in Ek as [Hp _]. apply Z.ltb_lt in Hp.
        intros Hnil. rewrite Hnil in Hp. cbn in Hp. lia. }
      apply returns_pop_random; [exact Hne |]. intros rp r' rest Hlen. rstep.
      set (g := snd s) in *.
      set (g1 := with_lists g (self_grid g) (sampledList g) rest).
      assert (Hr1 : weighted_ready g1)
        by (apply weighted_ready_with_lists; [exact Hr | reflexivity]).
      eapply returns_mono; [| apply returns_weighted_candidates; [exact Hr1 | exact Hq]].
      cbn beta. cbn [snd]. intros q1 s1 [Hs1 Hq1].
      eapply returns_mono; [| apply returns_drain; rewrite Hs1; [exact Hr1 | exact Hq1]].
      cbn beta. rewrite Hs1. intros q2 s2 (Hr2 & Hq2 & P2 & a & Ha & Hsa & Hpa).
      cbn [sampledList processingList with_lists g1] in Hsa, Hpa.
      assert (Hstep : stepped a g (snd s2)).
      { unfold stepped. split; [rewrite P2; reflexivity |]. split; [exact Hsa | lia]. }
      pose proof (loop_fuel_decreases 1 a _ _ Ek Ha Hstep) as Hdec.
      eapply returns_mono; [| apply IH; [exact Hr2 | | lia]].
      * cbn beta. intros _ s3 P3. rewrite P3, P2. reflexivity.
      * eapply Forall_impl; [| exact Hq2]. cbn beta. intros c Hc.
        rewrite <- Hc. apply in_bounds_params. rewrite P2. reflexivity.
    + rstep. reflexivity.
Qed.

Lemma length_normalize (rows : list (list Q)) (g : BlueNoiseGenerator) :
  surface_fits g rows -> surface_fits g (normalize rows).
Proof.
  unfold surface_fits, normalize. cbv zeta. intros [Hlen Hrows].
  rewrite length_map. split; [exact Hlen |].
  apply Forall_map. eapply Forall_impl; [| exact Hrows].
  cbn beta. intros row Hrow. rewrite length_map. exact Hrow.
Qed.



(** ** insert writes one slot *)

Lemma nth_error_set_nth_other {A} (l : list A) (k j : nat) (a : A) :
  j <> k -> nth_error (set_nth l k a) j = nth_error l j.
Proof.
  revert k j. induction l as [| h t IH]; intros k j Hjk; [destruct k; reflexivity |].
  destruct k, j; cbn [set_nth nth_error]; try reflexivity; [lia | apply IH; lia].
Qed.

(** [insert] overwrites the occupant of the cell of the new point and
    leaves every other cell alone: a point stored in another cell stays
    stored, and a different point that was stored in the same cell is
    gone. *)
Theorem insert_overwrites_only_its_cell (g g' : Grid) (p q : Point) :
  0 <= getGridIndex g (x q) (y q) false ->
  stored g p ->
  insert g q = inr g' ->
  (getGridIndex g (x p) (y p) false <> getGridIndex g (x q) (y q) false -> stored g' p) /\
  (getGridIndex g (x p) (y p) false = getGridIndex g (x q) (y q) false ->
   p <> q -> ~ stored g' p) /\
  stored g' q.
Proof.
  intros Hq0 [Hp0 Hp] Hins.
  destruct (insert_spec g g' q Hins) as (Hshape & k & Hk & Hgrid).
  unfold shape in Hshape. injection Hshape as Hm' Hw' Hh' Hlen.
  assert (Hidx : forall r, getGridIndex g' (x r) (y r) false = getGridIndex g (x r) (y r) false).
  { intros r. unfold getGridIndex, getGridCoordinates. rewrite Hm', Hw'. reflexivity. }
  assert (Hkq : k = Z.to_nat (getGridIndex g (x q) (y q) false)
                /\ (k < length (grid g))%nat).
  { unfold py_index in Hk.
    destruct ((0 <=? _) && (_ <? _)) eqn:E.
    - injection Hk as <-. apply andb_prop in E as [_ E]. apply Z.ltb_lt in E. split; lia.
    - destruct ((- Z.of_nat (length (grid g)) <=? _) && (_ <? 0)) eqn:E2; [| discriminate].
      apply andb_prop in E2 as [_ E2]. apply Z.ltb_lt in E2. lia. }
  destruct Hkq as [-> Hklt].
  split; [| split].
  - intros Hne. unfold stored. rewrite Hidx. split; [exact Hp0 |].
    rewrite Hgrid, nth_error_set_nth_other; [exact Hp | lia].
  - intros He Hpq [_ Hst]. rewrite Hidx, Hgrid, He in Hst.
    rewrite nth_error_set_nth_same in Hst by exact Hklt. congruence.
  - unfold stored. rewrite Hidx. split; [exact Hq0 |].
    rewrite Hgrid. apply nth_error_set_nth_same. exact Hklt.
Qed.

Lemma insert_overwrites_only_its_cell_witness :
  let g := grid_of (insert (grid_of (Grid_init 10 100 100)) (newPoint 8 8)) in
  exists g',
    insert g (newPoint 14 14) = inr g' /\
    (getGridIndex g 8 8 false <> getGridIndex g 14 14 false -> stored g' (newPoint 8 8)) /\
    (getGridIndex g 8 8 false = getGridIndex g 14 14 false ->
     newPoint 8 8 <> newPoint 14 14 -> ~ stored g' (newPoint 8 8)) /\
    stored g' (newPoint 14 14).
Proof.
  intros g.
  destruct (insert g (newPoint 14 14)) as [e | g'] eqn:E.
  - vm_compute in E. discriminate.
  - exists g'. split; [reflexivity |].
    apply (insert_overwrites_only_its_cell g g' (newPoint 8 8) (newPoint 14 14)).
    + vm_compute. discriminate.
    + split; [vm_compute; discriminate | vm_compute; reflexivity].
    + exact E.
Defined.

Lemma np_size_map {A B} (f : A -> B) (rows : list (list A)) :
  np_size (map (map f) rows) = np_size rows.
Proof.
  unfold np_size. induction rows as [| row rows IH]; cbn [map fold_right].
  - reflexivity.
  - rewrite length_map, IH. reflexivity.
Qed.

(** ** The candidate and its parent *)



(** ** The sampled list only grows *)

Lemma extends_invariant (l0 : list (Q * Q)) (p0 : Point) :
  sampler_invariant (fun g => exists more, sampledList g = l0 ++ Point_list p0 :: more).
Proof.
  split.
  - intros g rest [more Hs] _. exists more. exact Hs.
  - intros g p grid' [more Hs] _ _ _. exists (more ++ [Point_list p]).
    cbn [sampledList with_lists]. rewrite Hs, <- app_assoc. reflexivity.
Qed.

Lemma post_seed_then T (c : M unit) (K : unit -> St -> Prop) s :
  (forall p s', sampledList (snd s') = sampledList (snd s) ++ [Point_list p] ->
                params (snd s') = params (snd s) ->
                post T c K s') ->
  post T (seed ;;; c) K s.
Proof.
  intros H. step. apply post_seed. intros p r' grid' _ _ _ _. apply (H p); reflexivity.
Qed.

Lemma post_sampling_extends (fuel : nat) s :
  post True (generate_sampling fuel)
       (fun _ s' => exists p0 more,
            sampledList (snd s') = sampledList (snd s) ++ Point_list p0 :: more) s /\
  post True (generateWeighted_sampling fuel)
       (fun _ s' => exists p0 more,
            sampledList (snd s') = sampledList (snd s) ++ Point_list p0 :: more) s.
Proof.
  split.
  - unfold generate_sampling. apply post_seed_then. intros p s' Hs _.
    eapply post_mono; [| apply (inv_uniform_loop _ (extends_invariant (sampledList (snd s)) p))].
    + cbn beta. intros _ s2 [more H2]. exists p, more. exact H2.
    + exists []. exact Hs.
  - unfold generateWeighted_sampling. step.
    assert (Hw : forall s0 : St, sampledList (snd s0) = sampledList (snd s) ->
               post True (seed ;;; weighted_loop fuel [])
                    (fun _ s' => exists p0 more,
                         sampledList (snd s') = sampledList (snd s) ++ Point_list p0 :: more)
                    s0).
    { intros s0 H0. apply post_seed_then. intros p s' Hs _.
      eapply post_mono;
        [| apply (inv_weighted_loop _ (extends_invariant (sampledList (snd s)) p))].
      - cbn beta. intros _ s2 [more H2]. exists p, more. exact H2.
      - exists []. rewrite Hs, H0. reflexivity.
      - constructor. }
    apply post_preprocess.
    + apply Hw. reflexivity.
    + intros w. apply Hw. reflexivity.
Qed.

(** The list that a sampler returns is the [sampledList] of the object
    itself, and the method only appended to it: what the object held
    before the call is still there, followed by the seed and the other
    new points.  A second call on the same object returns the points of
    the first call again. *)
Theorem samplers_extend_sampledList (fuel : nat) (s s1 : St) (l : list (Q * Q)) :
  generate fuel s = Done (l, s1) \/ generateWeighted fuel s = Done (l, s1) ->
  l = sampledList (snd s1) /\
  exists p0 more, l = sampledList (snd s) ++ Point_list p0 :: more.
Proof.
  set (G := fun (l' : list (Q * Q)) (s' : St) =>
              l' = sampledList (snd s') /\
              exists p0 more, l' = sampledList (snd s) ++ Point_list p0 :: more).
  assert (Htail : forall s0 : St,
             (exists p0 more,
                 sampledList (snd s0) = sampledList (snd s) ++ Point_list p0 :: more) ->
             post True (generateBoundary fuel ;;; (g <- get_self ;; ret (sampledList g)))
                  G s0).
  { intros s0 (p0 & more & H0). step.
    eapply post_mono; [| apply (post_generateBoundary True fuel s0 (or_introl I))].
    cbn beta. intros _ s2 (_ & _ & _ & pts & H2 & _). step. step. step.
    split; [reflexivity |]. exists p0, (more ++ pts).
    rewrite H2, H0, <- app_assoc. reflexivity. }
  intros [E | E]; refine (post_done True _ G _ _ _ _ E).
  - unfold generate. step.
    eapply post_mono; [| apply (proj1 (post_sampling_extends fuel s))].
    cbn beta. intros _ s0 H0. apply Htail. exact H0.
  - unfold generateWeighted. step.
    eapply post_mono; [| apply (proj2 (post_sampling_extends fuel s))].
    cbn beta. intros _ s0 H0. apply Htail. exact H0.
Qed.

Lemma samplers_extend_sampledList_witness :
  exists l s1,
    generate 10 (small_tape, small_gen) = Done (l, s1) /\
    l = sampledList (snd s1) /\
    exists p0 more, l = sampledList (snd (small_tape, small_gen)) ++ Point_list p0 :: more.
Proof.
  destruct (generate 10 (small_tape, small_gen)) as [[l s1] | e |] eqn:E.
  - exists l, s1. split; [reflexivity |].
    apply (samplers_extend_sampledList 10%nat (small_tape, small_gen) s1 l).
    left. exact E.
  - vm_compute in E. discriminate.
  - vm_compute in E. discriminate.
Defined.

(** ** A second call of generateWeighted *)

Lemma imageWeight_invariant (w : option (list (list npfloat))) :
  sampler_invariant (fun g => imageWeight g = w).
Proof. split; intros; assumption. Qed.

Lemma preprocess_fresh (s : St) :
  imageWeight (snd s) = None ->
  preprocess s = Done (tt, (fst s, set_imageWeight (snd s) (normalize (rawWeight (snd s))))).
Proof. intros H. unfold preprocess, bind, get_self, ret, set_self. rewrite H. reflexivity. Qed.

Lemma post_generateWeighted_surface (fuel : nat) s :
  imageWeight (snd s) = None ->
  post True (generateWeighted fuel)
       (fun _ s' => imageWeight (snd s') = Some (normalize (rawWeight (snd s)))) s.
Proof.
  intros Hnone. unfold generateWeighted, generateWeighted_sampling.
  step. step. unfold post at 1. rewrite (preprocess_fresh s Hnone).
  apply post_seed_then. intros p s' _ P.
  eapply post_mono;
    [| apply (inv_weighted_loop _ (imageWeight_invariant
                                    (Some (normalize (rawWeight (snd s))))))].
  - cbn beta. intros _ s2 H2. step.
    eapply post_mono; [| apply (post_generateBoundary True fuel s2 (or_introl I))].
    cbn beta. intros _ s3 (P3 & _). step. step. step.
    unfold params in P3. congruence.
  - unfold params in P. cbn [snd imageWeight set_imageWeight] in P.
    injection P as _ _ _ _ _ _ Hw _. exact Hw.
  - constructor.
Qed.

Lemma np_size_concat {A} (w : list (list A)) : length (concat w) = np_size w.
Proof.
  unfold np_size. induction w as [| row w IH]; cbn [concat fold_right].
  - reflexivity.
  - rewrite length_app, IH. reflexivity.
Qed.

Lemma generateWeighted_stale_surface (fuel : nat) (s : St) (w : list (list npfloat)) :
  imageWeight (snd s) = Some w -> (2 <= np_size w)%nat ->
  generateWeighted fuel s = Raise ValueError.
Proof.
  intros Hw Hsize. rewrite <- np_size_concat in Hsize.
  unfold generateWeighted, generateWeighted_sampling, preprocess, bind, get_self.
  rewrite Hw. unfold lift, np_truth.
  destruct (concat w) as [| a [| b t]]; cbn [length] in Hsize; try lia.
  reflexivity.
Qed.

(** [if not self.imageWeight] asks numpy for the truth value of the
    surface once a call has stored it.  On an image of two pixels or more
    that is an error: after one call of [generateWeighted] has returned,
    every further call on the same object raises ValueError, whatever the
    fuel and the random draws.  (The script builds a new object for each
    picture.) *)
Theorem generateWeighted_again_raises_ValueError (fuel fuel' : nat) (s s1 : St)
    (l : list (Q * Q)) :
  imageWeight (snd s) = None ->
  (2 <= np_size (rawWeight (snd s)))%nat ->
  generateWeighted fuel s = Done (l, s1) ->
  generateWeighted fuel' s1 = Raise ValueError.
Proof.
  intros Hnone Hsize E.
  pose proof (post_done True _ _ _ _ _ (post_generateWeighted_surface fuel s Hnone) E) as Hw.
  cbn beta in Hw.
  apply (generateWeighted_stale_surface fuel' s1 _ Hw).
  unfold normalize. cbv zeta. rewrite np_size_map. exact Hsize.
Qed.

Lemma generateWeighted_again_raises_witness :
  exists l s1,
    generateWeighted 10 (small_tape, small_gen) = Done (l, s1) /\
    generateWeighted 10 s1 = Raise ValueError.
Proof.
  destruct (generateWeighted 10 (small_tape, small_gen)) as [[l s1] | e |] eqn:E.
  - exists l, s1. split; [reflexivity |].
    apply (generateWeighted_again_raises_ValueError 10%nat 10%nat (small_tape, small_gen) s1 l).
    + reflexivity.
    + vm_compute. lia.
    + exact E.
  - vm_compute in E. discriminate.
  - vm_compute in E. discriminate.
Defined.

(** ** The number of boundary points *)

(** Each turn of the perimeter walk appends four points. *)
Lemma post_boundary_loop_count (fuel : nat) (tw aspect : Q) (c : Cursors) s :
  post True (boundary_loop fuel tw aspect c)
       (fun _ s' =>
          exists k : nat,
            (boundary_test (snd s) c = true -> 1 <= k)%nat /\
            length (sampledList (snd s')) = (length (sampledList (snd s)) + 4 * k)%nat) s.
Proof.
  revert c s. induction fuel as [| fuel IH]; intros c s; cbn [boundary_loop].
  - step. step. destruct (boundary_test (snd s) c) eqn:Et; [exact I |].
    step. exists 0%nat. split; [discriminate | lia].
  - step. step. destruct (boundary_test (snd s) c) eqn:Et.
    + step. apply post_append_sampled. set (g := snd s) in *.
      cbn [fst snd imageWidth imageHeight self_minDist with_lists].
      step. apply post_uniform. intros u1 r1 _.
      step. apply post_uniform. intros u2 r2 _.
      step. apply post_uniform. intros u3 r3 _.
      step. apply post_uniform. intros u4 r4 _.
      cbn [snd].
      eapply post_mono; [| apply IH].
      cbn beta. cbn [snd sampledList with_lists].
      intros _ s' (k & _ & Hlen).
      exists (S k). split; [intros _; lia |].
      rewrite Hlen, length_app. cbn [length]. lia.
    + step. exists 0%nat. split; [discriminate | lia].
Qed.

(** On an image of at least one pixel per direction, [generateBoundary]
    appends [4 * k + 2] points for some [k >= 1]: four per turn of its
    loop, which runs at least once, and the two corners at the end.  So
    it appends at least six points, and their number leaves the remainder
    2 when divided by 4. *)
Theorem generateBoundary_count (fuel : nat) (s s1 : St) :
  1 <= imageWidth (snd s) -> 1 <= imageHeight (snd s) ->
  generateBoundary fuel s = Done (tt, s1) ->
  exists k : nat,
    (1 <= k)%nat /\
    length (sampledList (snd s1)) = (length (sampledList (snd s)) + 4 * k + 2)%nat.
Proof.
  intros Hw Hh E.
  refine (post_done True _
            (fun _ s' =>
               exists k : nat,
                 (1 <= k)%nat /\
                 length (sampledList (snd s'))
                 = (length (sampledList (snd s)) + 4 * k + 2)%nat) _ _ _ _ E).
  unfold generateBoundary. step. step. step.
  set (g := snd s) in *.
  assert (Hasp : forall aspect,
    post True
      (boundary_loop fuel (2 * self_minDist g) aspect (mkCursors 0 0 0 0);;;
       g1 <- get_self;;
       append_sampled
         [(inject_Z (imageWidth g1 - 1), 0%Q);
          (inject_Z (imageWidth g1 - 1), inject_Z (imageHeight g1 - 1))])
      (fun _ s' =>
         exists k : nat,
           (1 <= k)%nat /\
           length (sampledList (snd s')) = (length (sampledList g) + 4 * k + 2)%nat) s).
  { intros aspect. step.
    eapply post_mono; [| apply post_boundary_loop_count].
    cbn beta. fold g. intros _ s2 (k & Hk1 & Hlen).
    step. step. apply post_append_sampled. cbn [snd sampledList with_lists].
    exists k. rewrite length_app, Hlen. cbn [length]. split; [| lia].
    apply Hk1.
    unfold boundary_test. cbn [upperWidth lowerWidth leftHeight rightHeight].
    assert (H0W : Qltb 0 (inject_Z (imageWidth g)) = true).
    { apply Qltb_true_iff. change 0%Q with (inject_Z 0). rewrite <- Zlt_Qlt. lia. }
    assert (H0H : Qltb 0 (inject_Z (imageHeight g)) = true).
    { apply Qltb_true_iff. change 0%Q with (inject_Z 0). rewrite <- Zlt_Qlt. lia. }
    rewrite H0W, H0H. reflexivity. }
  destruct (imageHeight g <? imageWidth g) eqn:Ewide.
  - destruct (imageHeight g =? 0) eqn:E0.
    + step.
    + step. apply Hasp.
  - destruct (imageWidth g =? 0) eqn:E0.
    + step.
    + step. apply Hasp.
Qed.

Lemma generateBoundary_count_witness :
  exists s1 (k : nat),
    generateBoundary 10 (small_tape, small_gen) = Done (tt, s1) /\
    (1 <= k)%nat /\
    length (sampledList (snd s1))
    = (length (sampledList (snd (small_tape, small_gen))) + 4 * k + 2)%nat.
Proof.
  destruct (generateBoundary 10 (small_tape, small_gen)) as [[[] s1] | e |] eqn:E.
  - destruct (generateBoundary_count 10%nat (small_tape, small_gen) s1) as [k Hk].
    + cbn. lia.
    + cbn. lia.
    + exact E.
    + exists s1, k. split; [reflexivity | exact Hk].
  - vm_compute in E. discriminate.
  - vm_compute in E. discriminate.
Defined.

(** ** One point per cell *)

Lemma index_decode (w a b a' b' : Z) :
  0 <= a < w -> 0 <= a' < w -> b * w + a = b' * w + a' -> a = a' /\ b = b'.
Proof.
  intros Ha Ha' E.
  assert (Hb : b = b').
  { destruct (Z.lt_trichotomy b b') as [Hlt | [Heq | Hgt]]; [exfalso | exact Heq | exfalso].
    - assert (b * w + w <= b' * w) by nia. lia.
    - assert (b' * w + w <= b * w) by nia. lia. }
  subst b'. split; [lia | reflexivity].
Qed.

Lemma same_cell_distance (m : Q) (p q : Point) :
  (0 < m)%Q ->
  0 <= x p -> 0 <= y p -> 0 <= x q -> 0 <= y q ->
  div_cellSize m (x p) = div_cellSize m (x q) ->
  div_cellSize m (y p) = div_cellSize m (y q) ->
  distance_lt p q m = true.
Proof.
  intros Hm Hxp Hyp Hxq Hyq Ex Ey.
  pose proof (same_cell_axis _ _ _ Hm Hxp Hxq Ex) as Hx.
  pose proof (same_cell_axis _ _ _ Hm Hyp Hyq Ey) as Hy.
  unfold distance_lt. apply andb_true_intro. split; [apply Qltb_true_iff; exact Hm |].
  apply Qltb_true_iff. unfold distance2.
  setoid_replace (m * m)%Q with (inject_Z 1 * (m * m))%Q
    by (change (inject_Z 1) with 1%Q; ring).
  apply sq_lt_minDist. nia.
Qed.

(** The cell of a point of the image is a cell of the grid built for it. *)
Lemma well_formed_cell (g : BlueNoiseGenerator) (p : Point) :
  well_formed g -> 0 <= x p <= imageWidth g -> 0 <= y p <= imageHeight g ->
  (0 < minDist (self_grid g))%Q /\
  0 <= div_cellSize (minDist (self_grid g)) (x p) < width (self_grid g) /\
  0 <= div_cellSize (minDist (self_grid g)) (y p) < height (self_grid g) /\
  Z.of_nat (length (grid (self_grid g))) = width (self_grid g) * height (self_grid g).
Proof.
  intros (Hm & HW & HH & _ & g0 & Hinit & Hs) Hx Hy.
  rewrite (Grid_init_shape _ _ _ g0 Hm HW HH Hinit) in Hs.
  unfold shape in Hs. injection Hs as Hmin Hwid Hhei Hlen.
  rewrite Hmin, Hwid, Hhei, Hlen.
  pose proof (div_cellSize_nonneg _ (x p) Hm ltac:(lia)) as Hcx.
  pose proof (div_cellSize_nonneg _ (y p) Hm ltac:(lia)) as Hcy.
  pose proof (div_cellSize_mono _ (x p) (imageWidth g) Hm ltac:(lia)) as Hmx.
  pose proof (div_cellSize_mono _ (y p) (imageHeight g) Hm ltac:(lia)) as Hmy.
  split; [exact Hm |]. split; [lia |]. split; [lia |].
  rewrite Z2Nat.id by nia. reflexivity.
Qed.

Lemma well_formed_index (g : BlueNoiseGenerator) (p : Point) :
  well_formed g -> 0 <= x p <= imageWidth g -> 0 <= y p <= imageHeight g ->
  0 <= getGridIndex (self_grid g) (x p) (y p) false
    < Z.of_nat (length (grid (self_grid g))).
Proof.
  intros Hwf Hx Hy.
  destruct (well_formed_cell g p Hwf Hx Hy) as (_ & Hcx & Hcy & Hlen).
  unfold getGridIndex, getGridCoordinates, newPoint. cbn [x y]. rewrite Hlen. nia.
Qed.

Lemma getGridIndex_shape (g g' : Grid) (vx vy : Z) (b : bool) :
  shape g' = shape g -> getGridIndex g' vx vy b = getGridIndex g vx vy b.
Proof.
  unfold shape. intros [= Hm Hw _ _]. unfold getGridIndex, getGridCoordinates.
  rewrite Hm, Hw. reflexivity.
Qed.

(** A point held in the slot of the cell of [p], in the same cell as [p],
    makes the query at [p] answer True. *)
Lemma own_cell_blocks (G : Grid) (p q : Point) :
  (0 < minDist G)%Q ->
  0 <= x p -> 0 <= y p -> 0 <= x q -> 0 <= y q ->
  0 <= getGridIndex G (x p) (y p) false < Z.of_nat (length (grid G)) ->
  nth_error (grid G) (Z.to_nat (getGridIndex G (x p) (y p) false)) = Some (Some q) ->
  div_cellSize (minDist G) (x p) = div_cellSize (minDist G) (x q) ->
  div_cellSize (minDist G) (y p) = div_cellSize (minDist G) (y q) ->
  checkInNeighborhood G p = true.
Proof.
  intros Hm Hxp Hyp Hxq Hyq Hidx Hnth Ex Ey.
  apply checkInNeighborhood_window. exists 0, 0.
  split; [lia |]. split; [lia |]. rewrite !Z.add_0_r.
  unfold cell_hit.
  assert (E : getGridIndex G (x (getGridCoordinates G p)) (y (getGridCoordinates G p)) true
              = getGridIndex G (x p) (y p) false).
  { unfold getGridIndex, getGridCoordinates, newPoint. cbn [x y]. reflexivity. }
  rewrite E. unfold py_len.
  replace ((0 <=? _) && (_ <? _)) with true
    by (symmetry; apply andb_true_intro; split; [apply Z.leb_le | apply Z.ltb_lt]; lia).
  rewrite Hnth. apply same_cell_distance; assumption.
Qed.

Lemma Point_list_inj (p q : Point) :
  Point_list p = Point_list q -> x p = x q /\ y p = y q.
Proof. unfold Point_list, inject_Z. intros [= Hx Hy]. split; assumption. Qed.

Lemma NoDup_snoc {A} (l : list A) (a : A) : NoDup l -> ~ In a l -> NoDup (l ++ [a]).
Proof.
  intros Hl Ha. eapply Permutation_NoDup; [apply Permutation_cons_append |].
  constructor; assumption.
Qed.

Lemma one_per_cell_invariant : sampler_invariant one_per_cell.
Proof.
  split.
  - intros g rest (Hwf & Hnd & Hst & Hocc) _.
    split; [apply well_formed_with_lists; [exact Hwf | reflexivity] |].
    split; [exact Hnd |]. split; [exact Hst | exact Hocc].
  - intros g p grid' (Hwf & Hnd & Hst & Hocc) Hb Hc Hins.
    pose proof Hwf as (_ & _ & _ & He & _).
    destruct (in_bounds_inside g p He Hb) as [Hx Hy].
    destruct (well_formed_cell g p Hwf Hx Hy) as (Hm & Hcx & Hcy & Hlen).
    pose proof (well_formed_index g p Hwf Hx Hy) as Hidx.
    destruct (insert_spec _ _ _ Hins) as (Hshape & k & Hk & Hgrid).
    set (G := self_grid g) in *.
    set (idx := getGridIndex G (x p) (y p) false) in *.
    assert (Ek : k = Z.to_nat idx).
    { unfold py_index in Hk.
      replace ((0 <=? idx) && (idx <? Z.of_nat (length (grid G)))) with true in Hk
        by (symmetry; apply andb_true_intro; split; [apply Z.leb_le | apply Z.ltb_lt]; lia).
      congruence. }
    assert (Hklt : (k < length (grid G))%nat) by lia.
    assert (Hfree : forall q, nth_error (grid G) k <> Some (Some q)).
    { intros q Hq. destruct (Hocc k q Hq) as (Hqx & Hqy & Hqk).
      destruct (well_formed_cell g q Hwf Hqx Hqy) as (_ & Hqcx & Hqcy & _).
      fold G in Hqcx, Hqcy.
      assert (Eidx : getGridIndex G (x q) (y q) false = idx) by lia.
      unfold idx, getGridIndex, getGridCoordinates, newPoint in Eidx. cbn [x y] in Eidx.
      apply index_decode in Eidx as [Ecx Ecy]; [| lia | lia].
      assert (Hblock : checkInNeighborhood G p = true).
      { apply (own_cell_blocks G p q Hm);
          [lia | lia | lia | lia | fold idx; lia | fold idx; rewrite <- Ek; exact Hq
          | symmetry; exact Ecx | symmetry; exact Ecy]. }
      congruence. }
    assert (Hsame : forall vx vy, getGridIndex grid' vx vy false = getGridIndex G vx vy false).
    { intros vx vy. apply getGridIndex_shape. exact Hshape. }
    split; [apply well_formed_with_lists; assumption |].
    cbn [sampledList self_grid with_lists imageWidth imageHeight].
    split; [| split].
    + apply NoDup_snoc; [exact Hnd |]. intros Hin.
      destruct (Hst _ Hin) as (q & Eq & Hq0 & Hq).
      apply Point_list_inj in Eq as [Exq Eyq]. rewrite Exq, Eyq in Hq.
      fold G idx in Hq. rewrite <- Ek in Hq. exact (Hfree q Hq).
    + intros pt Hin. apply in_app_or in Hin as [Hin | [<- | []]].
      * destruct (Hst _ Hin) as (q & Eq & Hq0 & Hq). exists q. split; [exact Eq |].
        unfold stored. rewrite Hsame. fold G in Hq0, Hq. split; [exact Hq0 |].
        rewrite Hgrid, nth_error_set_nth_other; [exact Hq |].
        intros Ekq. rewrite Ekq in Hq. exact (Hfree q Hq).
      * exists p. split; [reflexivity |]. unfold stored. rewrite Hsame. fold idx.
        split; [lia |]. rewrite Hgrid, <- Ek. apply nth_error_set_nth_same. exact Hklt.
    + intros j q Hj. rewrite Hsame. rewrite Hgrid in Hj.
      destruct (Nat.eq_dec j k) as [-> | Hjk].
      * rewrite nth_error_set_nth_same in Hj by exact Hklt. injection Hj as <-.
        fold idx. split; [exact Hx |]. split; [exact Hy | lia].
      * rewrite nth_error_set_nth_other in Hj by exact Hjk. exact (Hocc j q Hj).
Qed.

Lemma shape_invariant (sh : Q * Z * Z * nat) :
  sampler_invariant (fun g => shape (self_grid g) = sh).
Proof.
  split.
  - intros g rest H _. exact H.
  - intros g p grid' H _ _ Hins. cbn [self_grid with_lists].
    destruct (insert_spec _ _ _ Hins) as [Hs _]. congruence.
Qed.

Lemma sampler_invariant_and (I J : BlueNoiseGenerator -> Prop) :
  sampler_invariant I -> sampler_invariant J -> sampler_invariant (fun g => I g /\ J g).
Proof.
  intros [I1 I2] [J1 J2]. split.
  - intros g rest [HI HJ] Hincl. split; [apply I1 | apply J1]; assumption.
  - intros g p grid' [HI HJ] Hb Hc Hins. split; [apply I2 | apply J2]; assumption.
Qed.

(** The seed on a grid that holds nothing. *)
Lemma one_per_cell_seeded (g : BlueNoiseGenerator) (p : Point) (grid' : Grid) :
  well_formed g -> sampledList g = [] -> reset (self_grid g) = self_grid g ->
  0 <= x p <= imageWidth g -> 0 <= y p <= imageHeight g ->
  insert (self_grid g) p = inr grid' ->
  one_per_cell (with_lists g grid' (sampledList g ++ [Point_list p])
                           (processingList g ++ [p])) /\
  shape grid' = shape (self_grid g).
Proof.
  intros Hwf Hnil Hreset Hx Hy Hins.
  pose proof (well_formed_index g p Hwf Hx Hy) as Hidx.
  destruct (insert_spec _ _ _ Hins) as (Hshape & k & Hk & Hgrid).
  set (G := self_grid g) in *.
  set (idx := getGridIndex G (x p) (y p) false) in *.
  assert (Ek : k = Z.to_nat idx).
  { unfold py_index in Hk.
    replace ((0 <=? idx) && (idx <? Z.of_nat (length (grid G)))) with true in Hk
      by (symmetry; apply andb_true_intro; split; [apply Z.leb_le | apply Z.ltb_lt]; lia).
    congruence. }
  assert (Hklt : (k < length (grid G))%nat) by lia.
  assert (Hempty : forall j q, nth_error (grid G) j <> Some (Some q)).
  { intros j q Hj. apply nth_error_In in Hj. rewrite <- Hreset in Hj.
    unfold reset in Hj. cbn [grid] in Hj. apply repeat_spec in Hj. discriminate. }
  assert (Hsame : forall vx vy, getGridIndex grid' vx vy false = getGridIndex G vx vy false).
  { intros vx vy. apply getGridIndex_shape. exact Hshape. }
  split; [| exact Hshape].
  split; [apply well_formed_with_lists; assumption |].
  cbn [sampledList self_grid with_lists imageWidth imageHeight]. rewrite Hnil. cbn [app].
  split; [| split].
  - constructor; [intros [] | constructor].
  - intros pt [<- | []]. exists p. split; [reflexivity |]. unfold stored. rewrite Hsame.
    fold idx. split; [lia |]. rewrite Hgrid, <- Ek. apply nth_error_set_nth_same. exact Hklt.
  - intros j q Hj. rewrite Hsame. rewrite Hgrid in Hj.
    destruct (Nat.eq_dec j k) as [-> | Hjk].
    + rewrite nth_error_set_nth_same in Hj by exact Hklt. injection Hj as <-.
      fold idx. split; [exact Hx |]. split; [exact Hy | lia].
    + rewrite nth_error_set_nth_other in Hj by exact Hjk. exfalso. exact (Hempty j q Hj).
Qed.

(** As many slots as points. *)
Lemma one_per_cell_count (g : BlueNoiseGenerator) :
  one_per_cell g -> (length (sampledList g) <= length (grid (self_grid g)))%nat.
Proof.
  intros (_ & Hnd & Hst & _).
  set (G := self_grid g) in *.
  set (f := fun pt : Q * Q =>
              Z.to_nat (getGridIndex G (Qfloor (fst pt)) (Qfloor (snd pt)) false)).
  assert (Hf : forall pt, In pt (sampledList g) ->
             exists p, Point_list p = pt /\ nth_error (grid G) (f pt) = Some (Some p)).
  { intros pt Hin. destruct (Hst pt Hin) as (p & <- & _ & Hp). exists p.
    split; [reflexivity |]. unfold f, Point_list. cbn [fst snd]. rewrite !Qfloor_Z. exact Hp. }
  replace (length (sampledList g)) with (length (map f (sampledList g)))
    by apply length_map.
  replace (length (grid G)) with (length (seq 0 (length (grid G)))) by apply length_seq.
  apply NoDup_incl_length.
  - apply NoDup_map_NoDup_ForallPairs; [| exact Hnd].
    intros a b Ha Hb E.
    destruct (Hf a Ha) as (pa & <- & Hpa). destruct (Hf b Hb) as (pb & <- & Hpb).
    rewrite E in Hpa. congruence.
  - intros n Hn. apply in_map_iff in Hn as (pt & <- & Hin).
    destruct (Hf pt Hin) as (p & _ & Hp). apply in_seq. split; [lia |].
    cbn [plus]. apply nth_error_Some. congruence.
Qed.

(** From a fresh well-formed object and a grid that holds nothing, as
    after [Grid(...)] or [grid.reset()], both samplers keep one point per
    cell when the seed is a pixel of the image ([x < imageWidth] and
    [y < imageHeight]; the seed can also fall one past the last column or
    row, which is left out here): no accepted point ever overwrites
    another one.  When the sampling loop ends, the sampled points are
    pairwise different, the grid holds each of them in the slot of its own
    cell, and they are at most as many as the grid has cells, whatever
    [pointCount] is. *)
Theorem sampled_points_one_per_cell (fuel : nat) (s s1 : St) :
  well_formed (snd s) -> sampledList (snd s) = [] ->
  reset (self_grid (snd s)) = self_grid (snd s) ->
  generate_sampling fuel s = Done (tt, s1) \/
  generateWeighted_sampling fuel s = Done (tt, s1) ->
  (exists p0 rest,
      sampledList (snd s1) = Point_list p0 :: rest /\
      x p0 < imageWidth (snd s) /\ y p0 < imageHeight (snd s)) ->
  NoDup (sampledList (snd s1)) /\
  (forall pt, In pt (sampledList (snd s1)) ->
              exists p, Point_list p = pt /\ stored (self_grid (snd s1)) p) /\
  (length (sampledList (snd s1)) <= length (grid (self_grid (snd s))))%nat.
Proof.
  intros Hwf Hnil Hreset Hrun _.
  set (sh := shape (self_grid (snd s))).
  set (G := fun s' : St => one_per_cell (snd s') /\ shape (self_grid (snd s')) = sh).
  pose proof (sampler_invariant_and _ _ one_per_cell_invariant (shape_invariant sh)) as Hinv.
  assert (Hseed : forall (c : M unit) (s0 : St),
             well_formed (snd s0) -> sampledList (snd s0) = [] ->
             reset (self_grid (snd s0)) = self_grid (snd s0) ->
             shape (self_grid (snd s0)) = sh ->
             (forall s' : St, G s' -> post True c (fun _ s2 => G s2) s') ->
             post True (seed ;;; c) (fun _ s2 => G s2) s0).
  { intros c s0 Hwf0 Hnil0 Hreset0 Hsh0 Hc. step. apply post_seed.
    intros p r' grid' Hx Hy _ Hins.
    destruct (one_per_cell_seeded (snd s0) p grid' Hwf0 Hnil0 Hreset0 Hx Hy Hins) as [H1 H2].
    apply Hc. split; [exact H1 |]. cbn [snd self_grid with_lists]. congruence. }
  assert (HG : G s1).
  { destruct Hrun as [E | E]; refine (post_done True _ (fun _ s' => G s') _ _ _ _ E).
    - unfold generate_sampling. apply Hseed; try assumption; [reflexivity |].
      intros s' [H1 H2]. apply (inv_uniform_loop _ Hinv). split; assumption.
    - unfold generateWeighted_sampling. step.
      assert (Hloop : forall s' : St, G s' -> post True (weighted_loop fuel [])
                                                   (fun _ s2 => G s2) s').
      { intros s' [H1 H2]. apply (inv_weighted_loop _ Hinv); [split; assumption | constructor]. }
      apply post_preprocess.
      + apply Hseed; try assumption. reflexivity.
      + intros w. apply Hseed; try assumption. reflexivity. }
  destruct HG as [H1 H2].
  pose proof (one_per_cell_count _ H1) as Hcount.
  destruct H1 as (_ & Hnd & Hst & _).
  split; [exact Hnd |]. split; [exact Hst |].
  unfold sh, shape in H2. injection H2 as _ _ _ Hlen. rewrite <- Hlen. exact Hcount.
Qed.

Lemma sampled_points_one_per_cell_witness :
  exists s1,
    generate_sampling 10 (small_tape, small_gen) = Done (tt, s1) /\
    NoDup (sampledList (snd s1)) /\
    (forall pt, In pt (sampledList (snd s1)) ->
                exists p, Point_list p = pt /\ stored (self_grid (snd s1)) p) /\
    (length (sampledList (snd s1))
     <= length (grid (self_grid (snd (small_tape, small_gen)))))%nat.
Proof.
  destruct (generate_sampling 10 (small_tape, small_gen)) as [[[] s1] | e |] eqn:E.
  - exists s1. split; [reflexivity |].
    apply (sampled_points_one_per_cell 10%nat (small_tape, small_gen) s1).
    + unfold well_formed. split; [reflexivity |].
      split; [vm_compute; discriminate |]. split; [vm_compute; discriminate |].
      split; [vm_compute; discriminate |].
      exists (grid_of (Grid_init 3 10 10)). split; reflexivity.
    + reflexivity.
    + reflexivity.
    + left. exact E.
    + exists (newPoint 0 5), [Point_list (newPoint 4 5)].
      pose proof E as E'. vm_compute in E'. injection E' as <-.
      split; [reflexivity |]. split; reflexivity.
  - vm_compute in E. discriminate.
  - vm_compute in E. discriminate.
Defined.

(** ** A negative minDist *)

(** [Grid] accepts a negative [minDist]: the cell size is negative, so are
    [width] and [height], and [[None] * width * height] is the empty list.
    Such a grid has no slot: [insert] raises IndexError for every point
    and the query answers False everywhere. *)
Theorem Grid_negative_minDist_has_no_slot (m : Q) (W H : Z) (g : Grid) (p : Point) :
  (m < 0)%Q -> 1 <= W -> 1 <= H ->
  Grid_init m W H = inr g ->
  grid g = [] /\ width g <= 0 /\ height g <= 0 /\
  insert g p = inl IndexError /\ checkInNeighborhood g p = false.
Proof.
  intros Hm HW HH. unfold Grid_init.
  assert (Ha : Qnum m < 0) by (unfold Qlt in Hm; cbn in Hm; lia).
  destruct (Qeq_bool m 0); [discriminate |].
  assert (Hneg : forall v, 1 <= v -> ceil_div_cellSize m v <= 0).
  { intros v Hv. unfold ceil_div_cellSize, div_cellSize.
    rewrite (Z.sgn_pos v), (Z.sgn_neg (Qnum m)) by lia.
    replace (0 <? 1 * -1) with false by reflexivity.
    assert (0 <= Z.sqrt (2 * (v * QDen m) ^ 2) / Z.abs (Qnum m)).
    { apply Z.div_pos; [apply Z.sqrt_nonneg | lia]. }
    lia. }
  pose proof (Hneg W HW) as Hw. pose proof (Hneg H HH) as Hh.
  intros [= <-]. cbn [grid width height].
  assert (E : repeat (@None Point)
                (Z.to_nat (ceil_div_cellSize m W) * Z.to_nat (ceil_div_cellSize m H)) = []).
  { replace (Z.to_nat (ceil_div_cellSize m W)) with 0%nat by lia. reflexivity. }
  split; [exact E |]. split; [exact Hw |]. split; [exact Hh |]. split.
  - unfold insert, py_setitem. cbn [grid]. rewrite E. cbn [length].
    unfold py_index. cbn [Z.of_nat Z.opp].
    replace ((0 <=? _) && (_ <? 0)) with false
      by (symmetry; apply andb_false_iff; destruct (Z.ltb_spec
            (getGridIndex (mkGrid m (ceil_div_cellSize m W) (ceil_div_cellSize m H) [])
               (x p) (y p) false) 0); [left; apply Z.leb_gt; lia | right; reflexivity]).
    reflexivity.
  - destruct (checkInNeighborhood _ p) eqn:Ec; [| reflexivity].
    apply checkInNeighborhood_window in Ec as (dx & dy & _ & _ & Ec).
    apply cell_hit_inv in Ec as [q [Hin _]].
    cbn [grid] in Hin. rewrite E in Hin. destruct Hin.
Qed.

Lemma Grid_negative_minDist_witness :
  grid (grid_of (Grid_init (-18) 100 80)) = [] /\
  width (grid_of (Grid_init (-18) 100 80)) <= 0 /\
  height (grid_of (Grid_init (-18) 100 80)) <= 0 /\
  insert (grid_of (Grid_init (-18) 100 80)) (newPoint 5 5) = inl IndexError /\
  checkInNeighborhood (grid_of (Grid_init (-18) 100 80)) (newPoint 5 5) = false.
Proof.
  apply (Grid_negative_minDist_has_no_slot (-18) 100 80).
  - reflexivity.
  - lia.
  - lia.
  - reflexivity.
Defined.
